(** * ASlack-Stream: the state synchronisation engine of [slack.service.ts]

    A shallow embedding of [src/services/slack/slack.service.ts]:
    the reaction aggregator ([DisplaySlackReactionInfo],
    [DisplaySlackMessageInfo]), and the service ([SlackService]) with its
    connection reconciler [refresh], its reaction target resolver
    [findReactionTarget] and its message dispatcher [onReceiveMessage].

    Conventions of the embedding.
    - A JavaScript value that may be [undefined]/[null] is an [option].
    - Reading a property of [undefined] raises [TypeError]; code that can do
      so returns an [outcome].
    - Objects that are mutated in place and found again later carry their
      identity: timeline entries are addressed by their index in [infos]
      (what [Array.prototype.find] returns is the object at that index) and
      by an allocation number [oid]; connections live in a heap and the
      service holds references to them; a message object carries a
      reference number, and an assignment made through one entry shows in
      every entry that holds the object.
    - An object literal used as a map is read as JavaScript reads it: own
      properties first, then what the object inherits.
    - The parsers ([slack-parser.service]) and the connection
      ([slack-client]) are not part of the sources: a parser is the
      constructor call that builds it, what it returns is a parameter, and a
      connection is what the service observes of it. The two emoji handlers,
      which only forward to the emoji registry of a connection, are left
      out. *)

From stdpp Require Import gmap strings list fin_maps.

Set Default Proof Using "Type".

(** ** Outcomes of code that may raise *)

Inductive outcome (A : Type) : Type :=
| Ok (a : A)
| TypeError.
Arguments Ok {A} a.
Arguments TypeError {A}.

(** [Array.prototype.find] with a callback that may raise: the elements are
    visited from index 0, the first one on which the callback is truthy is
    returned (with its index, which stands for the identity of the object
    found), and an exception of the callback ends the search. *)
Fixpoint find_from {A : Type} (p : A → outcome bool) (i : nat) (l : list A)
  : outcome (option (nat * A)) :=
  match l with
  | [] => Ok None
  | x :: l' =>
      match p x with
      | TypeError => TypeError
      | Ok true => Ok (Some (i, x))
      | Ok false => find_from p (S i) l'
      end
  end.

Definition find {A : Type} (p : A → outcome bool) (l : list A)
  : outcome (option (nat * A)) := find_from p 0 l.

(** ** Protocol payloads (declared in [slack.types] and [slack-client]) *)

(** Modelled from the spec: [Attachment] is declared in [slack.types], which
    is not part of the sources; the service only moves attachments around, so
    an attachment is an opaque payload here. *)
Record Attachment : Type := { payload : string }.

(** Modelled from the spec: the user/emoji directory of a connection
    ([dataStore]), declared in [slack-client]; the service only passes it to
    the parsers. *)
Record DataStore : Type := { userNames : list (string * string) }.

Module File.
(** The fields of a file object that the service reads. *)
Record t : Type := {
  id : string;
  mimetype : string;
  url_private : string;
  thumb_480 : option string;
  thumb_360 : option string;
  thumb_160 : option string;
  thumb_80 : option string;
  thumb_64 : option string
}.
End File.

Module Comment.
Record t : Type := { id : string }.
End Comment.

Module Embedded.
(** [rawMessage.message]: the message embedded in a [message_changed]
    event. *)
Record t : Type := {
  ts : string;
  text : string;
  attachments : option (list Attachment)
}.
End Embedded.

Module Raw.
(** [SlackMessage.rawMessage] *)
Record t : Type := {
  subtype : option string;
  ts : string;
  channel : string;
  deleted_ts : option string;
  files : option (list File.t);
  attachments : option (list Attachment);
  comment : option Comment.t;
  message : option Embedded.t
}.

Definition set_attachments (a : option (list Attachment)) (r : t) : t :=
  {| subtype := subtype r; ts := ts r; channel := channel r;
     deleted_ts := deleted_ts r; files := files r; attachments := a;
     comment := comment r; message := message r |}.
End Raw.

Module Body.
(** [SlackMessage.message]: the message body; [addMessage] tests it for
    truthiness and reads its [files]. *)
Record t : Type := { files : option (list File.t) }.
End Body.

Module SlackMessage.
(** A [SlackMessage] object. The stream of a connection hands the same
    object to every subscription, and an entry keeps a reference to the
    object it was built from: [ref] is the identity of the object, and two
    entries whose messages have the same [ref] hold the same object. The raw
    message is part of the object. *)
Record t : Type := {
  ref : nat;
  rawMessage : Raw.t;
  message : option Body.t;
  text : string;
  subType : option string;
  teamID : string;
  channelID : string;
  ts : string;
  myUserId : string;
  dataStore : DataStore
}.

Definition set_text (s : string) (m : t) : t :=
  {| ref := ref m; rawMessage := rawMessage m; message := message m; text := s;
     subType := subType m; teamID := teamID m; channelID := channelID m;
     ts := ts m; myUserId := myUserId m; dataStore := dataStore m |}.

Definition set_rawMessage (r : Raw.t) (m : t) : t :=
  {| ref := ref m; rawMessage := r; message := message m; text := text m;
     subType := subType m; teamID := teamID m; channelID := channelID m;
     ts := ts m; myUserId := myUserId m; dataStore := dataStore m |}.
End SlackMessage.

Module Item.
(** [reaction.item]: the target descriptor of a reaction event. The code
    switches on the string [type] and then reads the fields of the variant
    it expects; a field the event does not carry is [undefined]. *)
Record t : Type := {
  type : string;
  ts : option string;
  file : option string;
  file_comment : option string
}.
End Item.

Module Reaction.
Record t : Type := {
  reaction : string;
  user : string;
  item : Item.t
}.
End Reaction.

Module SlackReactionAdded.
(** [SlackReactionAdded] and [SlackReactionRemoved] have the same shape;
    the service passes the former type to both handlers. *)
Record t : Type := { reaction : Reaction.t }.
End SlackReactionAdded.

(** ** Parsers *)

(** A connection is referred to by its address in the heap of the service. *)
Definition cref : Type := nat.

(** The parser objects that [refresh] builds, as the constructor calls that
    build them. [EmojiParser c] holds the emoji registry of connection [c],
    which is mutable: what a parser returns is therefore not a function of
    the parser object alone (see [DisplaySlackMessageInfo.addReaction]). *)
#[warnings="-register-all"]
Inductive SlackParser : Type :=
| LinkParser
| NewLineParser
| EmojiParser (c : cref)
| MarkDownParser
| ComposedParser (ps : list SlackParser).

(** ** Reaction groups *)

Module DisplaySlackReactionInfo.
(** The back reference [target] to the owning entry is only read by the
    derived attributes [includeMine] and [userNames]; it is left out. *)
Record t : Type := {
  rawReaction : string;
  reaction : string;
  users : list string;
  showReactedUsers : bool
}.

(** [new DisplaySlackReactionInfo(target, rawReaction, reaction, users)] *)
Definition new (rawReaction reaction : string) (users : list string) : t :=
  {| rawReaction := rawReaction; reaction := reaction; users := users;
     showReactedUsers := false |}.

Definition set_users (us : list string) (r : t) : t :=
  {| rawReaction := rawReaction r; reaction := reaction r; users := us;
     showReactedUsers := showReactedUsers r |}.

Definition removeUser (user : string) (r : t) : t :=
  set_users (filter (λ u, u ≠ user) (users r)) r.

Definition addUser (user : string) (r : t) : t :=
  let r' := removeUser user r in
  set_users (users r' ++ [user]) r'.

Definition count (r : t) : nat := length (users r).
End DisplaySlackReactionInfo.

(** ** Timeline entries *)

Module DisplaySlackMessageInfo.
Import DisplaySlackReactionInfo.

Record t : Type := {
  oid : nat;
  message : SlackMessage.t;
  parser : SlackParser;
  attachmentTextParser : option SlackParser;
  edited : bool;
  image : option string;
  reactions : list DisplaySlackReactionInfo.t
}.

(** [new DisplaySlackMessageInfo(message, parser, attachmentTextParser)];
    [o] is the identity of the new object. *)
Definition new (o : nat) (message : SlackMessage.t) (parser : SlackParser)
    (attachmentTextParser : option SlackParser) : t :=
  {| oid := o; message := message; parser := parser;
     attachmentTextParser := attachmentTextParser;
     edited := false; image := None; reactions := [] |}.

Definition set_reactions (rs : list DisplaySlackReactionInfo.t) (e : t) : t :=
  {| oid := oid e; message := message e; parser := parser e;
     attachmentTextParser := attachmentTextParser e;
     edited := edited e; image := image e; reactions := rs |}.

Definition set_image (i : option string) (e : t) : t :=
  {| oid := oid e; message := message e; parser := parser e;
     attachmentTextParser := attachmentTextParser e;
     edited := edited e; image := i; reactions := reactions e |}.

Definition set_edited (b : bool) (e : t) : t :=
  {| oid := oid e; message := message e; parser := parser e;
     attachmentTextParser := attachmentTextParser e;
     edited := b; image := image e; reactions := reactions e |}.

Definition set_message (m : SlackMessage.t) (e : t) : t :=
  {| oid := oid e; message := m; parser := parser e;
     attachmentTextParser := attachmentTextParser e;
     edited := edited e; image := image e; reactions := reactions e |}.

(** [get attachments()] *)
Definition attachments (e : t) : list Attachment :=
  match Raw.attachments (SlackMessage.rawMessage (message e)) with
  | Some a => a
  | None => []
  end.

Definition doesReactionExist (e : t) : bool :=
  bool_decide (0 < length (reactions e)).

Section Reactions.
(** [parse p text dataStore] is what [p.parse(text, dataStore)] returns
    when it is called; the parsers themselves are in
    [slack-parser.service], which is not part of the sources. *)
Variable parse : SlackParser → string → DataStore → string.

(** The group key: the rendered form of [:<raw emoji>::notitle:]. *)
Definition rendered (e : t) (info : SlackReactionAdded.t) : string :=
  parse (parser e)
    (":" +:+ Reaction.reaction (SlackReactionAdded.reaction info)
         +:+ "::notitle:")
    (SlackMessage.dataStore (message e)).

(** [this.reactions.find(r => r.reaction === reaction)] *)
Definition findGroup (key : string) (e : t)
  : option (nat * DisplaySlackReactionInfo.t) :=
  list_find (λ r, reaction r = key) (reactions e).

Definition addReaction (info : SlackReactionAdded.t) (e : t) : t :=
  let reaction := rendered e info in
  let user := Reaction.user (SlackReactionAdded.reaction info) in
  match findGroup reaction e with
  | Some (i, target) =>
      set_reactions (<[i := addUser user target]> (reactions e)) e
  | None =>
      set_reactions
        (reactions e ++
         [DisplaySlackReactionInfo.new
            (Reaction.reaction (SlackReactionAdded.reaction info))
            reaction [user]]) e
  end.

Definition removeReaction (info : SlackReactionAdded.t) (e : t) : t :=
  let reaction := rendered e info in
  match findGroup reaction e with
  | Some (i, target) =>
      let target' :=
        removeUser (Reaction.user (SlackReactionAdded.reaction info)) target in
      let e' := set_reactions (<[i := target']> (reactions e)) e in
      if bool_decide (count target' = 0)
      then set_reactions
             (filter (λ r, DisplaySlackReactionInfo.reaction r ≠ reaction)
                (reactions e')) e'
      else e'
  | None => e
  end.
End Reactions.
End DisplaySlackMessageInfo.

(** ** Connections *)

Module SlackClient.
(** What the service observes of a connection ([slack-client] is not part
    of the sources): its token, how often [start()] and [stop()] were
    called on it, the parser the service stores in it, and the
    [markRead] and [getImage] requests it was sent. *)
Record t : Type := {
  token : string;
  starts : nat;
  stops : nat;
  attachmentTextParser : option SlackParser;
  reads : list (string * string);
  fetches : list string
}.

(** [new SlackClientImpl(token, http)] *)
Definition new (token : string) : t :=
  {| token := token; starts := 0; stops := 0;
     attachmentTextParser := None; reads := []; fetches := [] |}.

Definition start (c : t) : t :=
  {| token := token c; starts := S (starts c); stops := stops c;
     attachmentTextParser := attachmentTextParser c;
     reads := reads c; fetches := fetches c |}.

Definition stop (c : t) : t :=
  {| token := token c; starts := starts c; stops := S (stops c);
     attachmentTextParser := attachmentTextParser c;
     reads := reads c; fetches := fetches c |}.

Definition set_attachmentTextParser (p : SlackParser) (c : t) : t :=
  {| token := token c; starts := starts c; stops := stops c;
     attachmentTextParser := Some p;
     reads := reads c; fetches := fetches c |}.

Definition markRead (channel ts : string) (c : t) : t :=
  {| token := token c; starts := starts c; stops := stops c;
     attachmentTextParser := attachmentTextParser c;
     reads := reads c ++ [(channel, ts)]; fetches := fetches c |}.

Definition getImage (url : string) (c : t) : t :=
  {| token := token c; starts := starts c; stops := stops c;
     attachmentTextParser := attachmentTextParser c;
     reads := reads c; fetches := fetches c ++ [url] |}.
End SlackClient.

(** ** The service *)

(** [outcome] is the exception monad of the resolver's callbacks. *)
Definition outcome_bind {A B : Type} (m : outcome A) (f : A → outcome B)
  : outcome B :=
  match m with
  | Ok a => f a
  | TypeError => TypeError
  end.

(** JavaScript's [a && b] on operands that may raise: [b] is only evaluated
    when [a] is truthy. *)
Definition and_then (a b : outcome bool) : outcome bool :=
  match a with
  | Ok true => b
  | _ => a
  end.
Infix "&&&" := and_then (at level 40, left associativity).

(** [haystack.indexOf(needle) !== -1] *)
Fixpoint includes (needle haystack : string) : bool :=
  String.prefix needle haystack ||
  match haystack with
  | EmptyString => false
  | String _ rest => includes needle rest
  end.

Module SlackService.
Module Entry := DisplaySlackMessageInfo.

(** The five event streams of a connection. *)
Inductive Stream : Type :=
| messages | reactionAdded | reactionRemoved | emojiAdded | emojiRemoved.

(** One subscription of the bundle: the stream of connection [client] it
    listens to, and the parser its handler closes over (the emoji handlers
    close over none). *)
Record Subscribed : Type := {
  client : cref;
  stream : Stream;
  handlerParser : option SlackParser
}.

Record t : Type := {
  clients : list cref;
  infos : list Entry.t;
  onChange : nat;                     (* calls of [_onChange.next(this)] *)
  subscription : list Subscribed;
  heap : gmap cref SlackClient.t;     (* the connection objects *)
  next_oid : nat;                     (* entries allocated so far *)
  prototype_1 : bool                  (* [Object.prototype[1]] is [true] *)
}.

Definition init : t :=
  {| clients := []; infos := []; onChange := 0; subscription := [];
     heap := ∅; next_oid := 0; prototype_1 := false |}.

Definition set_infos (l : list Entry.t) (s : t) : t :=
  {| clients := clients s; infos := l; onChange := onChange s;
     subscription := subscription s; heap := heap s;
     next_oid := next_oid s; prototype_1 := prototype_1 s |}.

Definition set_heap (h : gmap cref SlackClient.t) (s : t) : t :=
  {| clients := clients s; infos := infos s; onChange := onChange s;
     subscription := subscription s; heap := h;
     next_oid := next_oid s; prototype_1 := prototype_1 s |}.

(** [this._onChange.next(this)] *)
Definition notify (s : t) : t :=
  {| clients := clients s; infos := infos s; onChange := S (onChange s);
     subscription := subscription s; heap := heap s;
     next_oid := next_oid s; prototype_1 := prototype_1 s |}.

(** *** Reconciliation of the connections *)

(** The cache of [refresh] is an object literal used as a map from tokens to
    pairs [[connection, reused?]]. The read [cache[token]] finds the own
    properties of the object, which the first loop creates, and otherwise
    what the object inherits: a token that names an inherited property is
    found truthy although no connection was cached under it. *)

(** The property names of [Object.prototype]. *)
Definition Object_prototype : list string :=
  ["constructor"; "hasOwnProperty"; "isPrototypeOf"; "propertyIsEnumerable";
   "toLocaleString"; "toString"; "valueOf"; "__defineGetter__";
   "__defineSetter__"; "__lookupGetter__"; "__lookupSetter__"; "__proto__"].

(** The property names of [Array.prototype], besides those of
    [Object.prototype] (ECMAScript 2015 to 2017). They are only met when the
    prototype of the cache is a pair, see [cache_set]. *)
Definition Array_prototype : list string :=
  ["concat"; "copyWithin"; "entries"; "every"; "fill"; "filter"; "find";
   "findIndex"; "forEach"; "includes"; "indexOf"; "join"; "keys";
   "lastIndexOf"; "map"; "pop"; "push"; "reduce"; "reduceRight"; "reverse";
   "shift"; "slice"; "some"; "sort"; "splice"; "unshift"; "values"].

(** The own properties of the cache: token ↦ [connection, reused?]. *)
Abbreviation Cache := (gmap string (cref * bool)).

(** [cache[token] = [slack, false]]. An assignment creates or replaces an
    own property, except under the name [__proto__]: that one reaches the
    setter every object inherits, which makes the pair the prototype of the
    cache. The second component is that prototype, when it is a pair. *)
Definition cache_set (token : string) (slack : cref)
    (c : Cache * option (cref * bool)) : Cache * option (cref * bool) :=
  if decide (token = "__proto__") then (c.1, Some (slack, false))
  else (<[token := (slack, false)]> c.1, c.2).

(** [for (const slack of this.clients) cache[slack.token] = [slack, false]] *)
Definition build_cache (h : gmap cref SlackClient.t) (cs : list cref)
  : Cache * option (cref * bool) :=
  foldl (λ cache slack,
           match h !! slack with
           | Some c => cache_set (SlackClient.token c) slack cache
           | None => cache
           end) (∅, None) cs.

Definition fullParser (client : cref) : SlackParser :=
  ComposedParser [LinkParser; NewLineParser; EmojiParser client; MarkDownParser].

Definition attachmentParser (client : cref) : SlackParser :=
  ComposedParser [LinkParser; NewLineParser; EmojiParser client].

(** The five [this.subscription.add(client.<stream>.subscribe(...))]. *)
Definition bundle (c : cref) (parser : SlackParser) : list Subscribed :=
  [ {| client := c; stream := messages; handlerParser := Some parser |};
    {| client := c; stream := reactionAdded; handlerParser := Some parser |};
    {| client := c; stream := reactionRemoved; handlerParser := Some parser |};
    {| client := c; stream := emojiAdded; handlerParser := None |};
    {| client := c; stream := emojiRemoved; handlerParser := None |} ].

(** What the callback of [this.setting.tokens.map] reads and writes. *)
Record Pass : Type := {
  cache : Cache;                      (* the own properties of [cache] *)
  proto : option (cref * bool);       (* its prototype, when it is a pair *)
  objects : gmap cref SlackClient.t;
  subscribed : list Subscribed;
  inherited_1 : bool                  (* [Object.prototype[1]] is [true] *)
}.

(** The state of the pass before the first token: [this.subscription] was
    unsubscribed and replaced, and the first loop has filled the cache. *)
Definition initial_pass (s : t) : Pass :=
  {| cache := (build_cache (heap s) (clients s)).1;
     proto := (build_cache (heap s) (clients s)).2;
     objects := heap s; subscribed := [];
     inherited_1 := prototype_1 s |}.

(** What [cache[token]] evaluates to. *)
Inductive property : Type :=
| Pair (slack : cref) (used : bool)   (* a pair of the cache *)
| Foreign                             (* another truthy value *)
| Undefined.                          (* [undefined], or [false] *)

(** [cache[token]]. The name [__proto__] reaches the inherited getter, which
    returns the prototype of the cache. Any other name is looked up among
    the own properties, then in the prototype: [Object.prototype], with its
    functions and with the property [1] once [refresh] has created it; or the
    pair that replaced it, with its two elements, its [length] and what
    arrays inherit. *)
Definition cache_get (p : Pass) (token : string) : property :=
  if decide (token = "__proto__") then
    match proto p with
    | Some (c, b) => Pair c b
    | None => Foreign
    end
  else
    match cache p !! token with
    | Some (c, b) => Pair c b
    | None =>
        match proto p with
        | None =>
            if bool_decide (token ∈ Object_prototype)
               || (inherited_1 p && bool_decide (token = "1"))
            then Foreign else Undefined
        | Some (c, b) =>
            if bool_decide (token = "1") then
              if b then Foreign else Undefined
            else if bool_decide
                      (token ∈ "0" :: "length" :: Array_prototype
                                 ++ Object_prototype)
            then Foreign else Undefined
        end
    end.

(** [cache[token][1] = true] on the pair [[c, _]] found under [token]. *)
Definition mark (token : string) (c : cref) (p : Pass) : Pass :=
  if decide (token = "__proto__")
  then {| cache := cache p; proto := Some (c, true); objects := objects p;
          subscribed := subscribed p; inherited_1 := inherited_1 p |}
  else {| cache := <[token := (c, true)]> (cache p); proto := proto p;
          objects := objects p; subscribed := subscribed p;
          inherited_1 := inherited_1 p |}.

(** [client = new SlackClientImpl(token, this.http); client.start()] *)
Definition build (token : string) (c : cref) (p : Pass) : Pass :=
  {| cache := cache p; proto := proto p;
     objects := <[c := SlackClient.start (SlackClient.new token)]> (objects p);
     subscribed := subscribed p; inherited_1 := inherited_1 p |}.

(** The rest of the callback: the two parsers of [client] and its five
    subscriptions. *)
Definition listen (client : cref) (p : Pass) : Pass :=
  {| cache := cache p; proto := proto p;
     objects :=
       alter (SlackClient.set_attachmentTextParser (attachmentParser client))
             client (objects p);
     subscribed := subscribed p ++ bundle client (fullParser client);
     inherited_1 := inherited_1 p |}.

(** [cache[token][1] = true] on a truthy value that is not a pair of the
    cache: under [__proto__] the value is [Object.prototype], which gets the
    property [1]; the other values are functions, a connection, a number or
    a boolean, whose properties are not read again. *)
Definition taint (token : string) (p : Pass) : Pass :=
  {| cache := cache p; proto := proto p; objects := objects p;
     subscribed := subscribed p;
     inherited_1 := inherited_1 p || bool_decide (token = "__proto__") |}.

(** The body of the callback of [this.setting.tokens.map], for one token.
    When [cache[token]] is truthy and not a pair of the cache, its element
    [0] is [undefined], and so is [client]: [client.emoji] raises. *)
Definition connect (token : string) (p : Pass) : outcome cref * Pass :=
  match cache_get p token with
  | Pair c _ => (Ok c, listen c (mark token c p))
  | Undefined =>
      let c := fresh (dom (objects p)) in
      (Ok c, listen c (build token c p))
  | Foreign => (TypeError, taint token p)
  end.

(** [this.setting.tokens.map(...)]: an exception of the callback ends it. *)
Fixpoint connect_all (tokens : list string) (p : Pass)
  : outcome (list cref) * Pass :=
  match tokens with
  | [] => (Ok [], p)
  | t :: ts =>
      match connect t p with
      | (Ok c, p') =>
          match connect_all ts p' with
          | (Ok cs, p'') => (Ok (c :: cs), p'')
          | (TypeError, p'') => (TypeError, p'')
          end
      | (TypeError, p') => (TypeError, p')
      end
  end.

(** [for (const key of Object.keys(cache)) if (!info[1]) info[0].stop()].
    The keys are the own properties of the cache. The loop body acts on one
    connection; the order in which the keys are visited is that of
    [map_to_list]. *)
Definition stop_unused (cache : Cache) (h : gmap cref SlackClient.t)
  : gmap cref SlackClient.t :=
  foldl (λ h (kv : string * (cref * bool)),
           if kv.2.2 then h else alter SlackClient.stop kv.2.1 h)
        h (map_to_list cache).

(** [refresh()], with [tokens] the values of [this.setting.tokens]. When the
    callback raises, [this.clients] is not assigned and the last loop is not
    run; the connections built and the subscriptions made so far stay. *)
Definition refresh (tokens : list string) (s : t) : outcome unit * t :=
  match connect_all tokens (initial_pass s) with
  | (Ok cs, p) =>
      (Ok (),
       {| clients := cs; infos := infos s; onChange := onChange s;
          subscription := subscribed p;
          heap := stop_unused (cache p) (objects p);
          next_oid := next_oid s; prototype_1 := inherited_1 p |})
  | (TypeError, p) =>
      (TypeError,
       {| clients := clients s; infos := infos s; onChange := onChange s;
          subscription := subscribed p; heap := objects p;
          next_oid := next_oid s; prototype_1 := inherited_1 p |})
  end.

Definition numTeams (s : t) : nat := length (clients s).

(** *** Resolution of reaction targets *)

(** Arrays and objects are truthy, [undefined] and [null] are not. *)
Definition truthy {A : Type} (o : option A) : bool := bool_decide (is_Some o).

(** A string is truthy unless it is empty. *)
Definition truthy_string (o : option string) : bool :=
  match o with
  | Some s => negb (String.eqb s "")
  | None => false
  end.

(** [files[0]] followed by a property read: raises when [files] is
    [undefined] or has no first element. *)
Definition first_file (files : option (list File.t)) : outcome File.t :=
  match files with
  | Some (f :: _) => Ok f
  | _ => TypeError
  end.

(** [comment.id] *)
Definition comment_id (c : option Comment.t) : outcome string :=
  match c with
  | Some c => Ok (Comment.id c)
  | None => TypeError
  end.

(** The callback of the [file] case (and of the fallback of the
    [file_comment] case). *)
Definition isFileShare (target : Item.t) (m : Entry.t) : outcome bool :=
  let raw := SlackMessage.rawMessage (Entry.message m) in
  Ok (bool_decide (SlackMessage.subType (Entry.message m) = Some "file_share"))
  &&& Ok (truthy (Raw.files raw))
  &&& outcome_bind (first_file (Raw.files raw))
        (λ f, Ok (bool_decide (Some (File.id f) = Item.file target))).

(** The first callback of the [file_comment] case. *)
Definition isFileComment (target : Item.t) (m : Entry.t) : outcome bool :=
  let raw := SlackMessage.rawMessage (Entry.message m) in
  Ok (bool_decide (SlackMessage.subType (Entry.message m) = Some "file_comment"))
  &&& Ok (truthy (Raw.files raw))
  &&& outcome_bind (first_file (Raw.files raw))
        (λ f, Ok (bool_decide (Some (File.id f) = Item.file target)))
  &&& Ok (truthy (Raw.comment raw))
  &&& outcome_bind (comment_id (Raw.comment raw))
        (λ c, Ok (bool_decide (Some c = Item.file_comment target))).

(** The callback of the [message] case. *)
Definition isMessage (target : Item.t) (m : Entry.t) : outcome bool :=
  Ok (bool_decide
        (Some (Raw.ts (SlackMessage.rawMessage (Entry.message m)))
         = Item.ts target)).

Definition findReactionTarget (s : t) (reaction : SlackReactionAdded.t)
  : outcome (option (nat * Entry.t)) :=
  let target := Reaction.item (SlackReactionAdded.reaction reaction) in
  if decide (Item.type target = "message") then
    find (isMessage target) (infos s)
  else if decide (Item.type target = "file") then
    find (isFileShare target) (infos s)
  else if decide (Item.type target = "file_comment") then
    outcome_bind (find (isFileComment target) (infos s))
      (λ message,
         match message with
         | Some _ => Ok message
         | None => find (isFileShare target) (infos s)
         end)
  else Ok None.

(** *** The event handlers

    A handler is an [async] function: an exception ends it (the promise is
    rejected) and leaves the service as it was mutated so far. [M A] is the
    state-and-exception monad of the handlers. *)
Definition M (A : Type) : Type := t → outcome A * t.

Definition ret {A : Type} (a : A) : M A := λ s, (Ok a, s).

Definition bind {A B : Type} (m : M A) (f : A → M B) : M B :=
  λ s, match m s with
       | (Ok a, s') => f a s'
       | (TypeError, s') => (TypeError, s')
       end.

Notation "'do' x <- m ; k" := (bind m (λ x, k))
  (at level 10, x pattern, m at level 100, k at level 200,
   format "'[v' 'do'  x  <-  m ; '/' k ']'").
Notation "m >> k" := (bind m (λ _, k))
  (at level 100, k at level 200, right associativity).

Definition get : M t := λ s, (Ok s, s).
Definition modify (f : t → t) : M unit := λ s, (Ok (), f s).
Definition lift {A : Type} (o : outcome A) : M A := λ s, (o, s).

(** [this._onChange.next(this)] as a handler step. *)
Definition emit : M unit := modify notify.

(** A method call on the connection object [client]. *)
Definition call (client : cref) (f : SlackClient.t → SlackClient.t) : M unit :=
  modify (λ s, set_heap (alter f client (heap s)) s).

(** A handler either ran to its end, or is suspended at
    [await client.getImage(...)] with the entry [entry] waiting for its
    image. *)
Inductive progress : Type :=
| Completed
| Awaiting (entry : nat).

Section Handlers.
Variable parse : SlackParser → string → DataStore → string.

Definition onReactionAdded (reaction : SlackReactionAdded.t)
    (parser : SlackParser) (client : cref) : M unit :=
  do s <- get;
  do target <- lift (findReactionTarget s reaction);
  match target with
  | Some (i, e) =>
      modify (set_infos (<[i := Entry.addReaction parse reaction e]> (infos s)))
  | None => ret ()
  end >>
  emit.

Definition onReactionRemoved (reaction : SlackReactionAdded.t)
    (parser : SlackParser) (client : cref) : M unit :=
  do s <- get;
  do target <- lift (findReactionTarget s reaction);
  match target with
  | Some (i, e) =>
      modify (set_infos (<[i := Entry.removeReaction parse reaction e]> (infos s)))
  | None => ret ()
  end >>
  emit.
End Handlers.

Definition getMaximumThumbnail (message : SlackMessage.t) : outcome string :=
  outcome_bind (first_file (Raw.files (SlackMessage.rawMessage message)))
    (λ file,
       if truthy_string (File.thumb_480 file) then Ok (default "" (File.thumb_480 file))
       else if truthy_string (File.thumb_360 file) then Ok (default "" (File.thumb_360 file))
       else if truthy_string (File.thumb_160 file) then Ok (default "" (File.thumb_160 file))
       else if truthy_string (File.thumb_80 file) then Ok (default "" (File.thumb_80 file))
       else if truthy_string (File.thumb_64 file) then Ok (default "" (File.thumb_64 file))
       else Ok "").

(** [this.infos.unshift(info)] for a new entry built from [message]. *)
Definition unshift (message : SlackMessage.t) (parser : SlackParser)
    (client : cref) (s : t) : t :=
  let info :=
    Entry.new (next_oid s) message parser
      (heap s !! client ≫= SlackClient.attachmentTextParser) in
  {| clients := clients s; infos := info :: infos s; onChange := onChange s;
     subscription := subscription s; heap := heap s;
     next_oid := S (next_oid s); prototype_1 := prototype_1 s |}.

(** [addMessage] up to its end or to [await client.getImage(...)]. *)
Definition addMessage (message : SlackMessage.t) (parser : SlackParser)
    (client : cref) : M progress :=
  match SlackMessage.message message with
  | Some body =>
      do s <- get;
      modify (unshift message parser client) >>
      do isImage <- lift (Ok (truthy (Body.files body))
                         &&& outcome_bind (first_file (Body.files body))
                               (λ f, Ok (includes "image" (File.mimetype f))));
      if isImage then
        do url <- lift (getMaximumThumbnail message);
        call client (SlackClient.getImage url) >>
        ret (Awaiting (next_oid s))
      else
        call client (SlackClient.markRead (SlackMessage.channelID message)
                       (SlackMessage.ts message)) >>
        emit >>
        ret Completed
  | None => ret Completed
  end.

(** The rest of [addMessage] once [getImage] has settled: [image] is the
    fetched image, or [None] ([undefined]) when the fetch failed. The
    assignment [info.image = ...] reaches the entry object wherever it is;
    an entry that has left the timeline is no longer observable. *)
Definition addMessage_resume (entry : nat) (image : option string)
    (message : SlackMessage.t) (client : cref) : M unit :=
  modify (λ s, set_infos
                 ((λ m, if decide (Entry.oid m = entry)
                        then Entry.set_image image m else m) <$> infos s) s) >>
  call client (SlackClient.markRead (SlackMessage.channelID message)
                 (SlackMessage.ts message)) >>
  emit.

Definition replyMessage (message : SlackMessage.t) (parser : SlackParser)
    (client : cref) : M unit :=
  ret ().

Definition removeDeletedMessage (message : SlackMessage.t)
    (parser : SlackParser) (client : cref) : M unit :=
  modify (λ s, set_infos
                 (filter (λ m, Raw.deleted_ts (SlackMessage.rawMessage message)
                               ≠ Some (Raw.ts (SlackMessage.rawMessage (Entry.message m))))
                    (infos s)) s) >>
  emit.

(** [message.rawMessage.message], about to be read a property of. *)
Definition embedded (message : SlackMessage.t) : outcome Embedded.t :=
  match Raw.message (SlackMessage.rawMessage message) with
  | Some em => Ok em
  | None => TypeError
  end.

(** The callback of [changeMessage]. *)
Definition isEdited (message : SlackMessage.t) (m : Entry.t) : outcome bool :=
  outcome_bind (embedded message)
    (λ em, Ok (bool_decide
                 (Raw.ts (SlackMessage.rawMessage (Entry.message m)) = Embedded.ts em)))
  &&& Ok (bool_decide
            (Raw.channel (SlackMessage.rawMessage (Entry.message m))
             = Raw.channel (SlackMessage.rawMessage message))).

(** The two assignments of [changeMessage] through [edited.message]: to the
    text of the message object, then to the attachments of its raw
    message. *)
Definition assign (em : Embedded.t) (m : SlackMessage.t) : SlackMessage.t :=
  let m1 := SlackMessage.set_text (Embedded.text em) m in
  SlackMessage.set_rawMessage
    (Raw.set_attachments (Embedded.attachments em) (SlackMessage.rawMessage m1))
    m1.

(** The three assignments of [changeMessage], seen from the entry found:
    the flag is a field of the entry, the other two go to its message. *)
Definition edit (em : Embedded.t) (edited : Entry.t) : Entry.t :=
  let e1 := Entry.set_edited true edited in
  Entry.set_message (assign em (Entry.message e1)) e1.

(** What the entry [m] shows once the two assignments were made to the
    message object [object]: an entry that holds this object shows its new
    text and attachments, any other entry is as it was. *)
Definition shown (object : SlackMessage.t) (em : Embedded.t) (m : Entry.t)
  : Entry.t :=
  if decide (SlackMessage.ref (Entry.message m) = SlackMessage.ref object)
  then Entry.set_message (assign em (Entry.message m)) m
  else m.

Definition changeMessage (message : SlackMessage.t) (parser : SlackParser)
    (client : cref) : M unit :=
  do s <- get;
  do edited <- lift (find (isEdited message) (infos s));
  match edited with
  | Some (i, e) =>
      do em <- lift (embedded message);
      modify (set_infos (shown (Entry.message e) em
                           <$> <[i := Entry.set_edited true e]> (infos s))) >>
      emit
  | None => ret ()
  end.

(** [onReceiveMessage]: the [switch] on [message.rawMessage.subtype], then
    the notification. When [addMessage] is suspended, so is the caller, and
    the notification waits for [onReceiveMessage_resume]. The handlers other
    than [addMessage] contain no [await]: their mutations are complete when
    they return, and the notification of the dispatcher, which follows its
    own [await] of them, is run here with the handler; the timeline and the
    number of notifications of the event are the same. *)
Definition onReceiveMessage (message : SlackMessage.t) (parser : SlackParser)
    (client : cref) : M progress :=
  let subtype := Raw.subtype (SlackMessage.rawMessage message) in
  do p <-
    (if decide (subtype = Some "message_deleted") then
       removeDeletedMessage message parser client >> ret Completed
     else if decide (subtype = Some "message_changed") then
       changeMessage message parser client >> ret Completed
     else if decide (subtype = Some "message_replied") then
       replyMessage message parser client >> ret Completed
     else addMessage message parser client);
  match p with
  | Completed => emit >> ret Completed
  | Awaiting entry => ret (Awaiting entry)
  end.

Definition onReceiveMessage_resume (entry : nat) (image : option string)
    (message : SlackMessage.t) (client : cref) : M unit :=
  addMessage_resume entry image message client >>
  emit.
End SlackService.

(** * Vocabulary of the properties *)

Module Group := DisplaySlackReactionInfo.
Module Entry := DisplaySlackMessageInfo.
Import SlackService.

(** ** Reaction groups *)

(** The entries the program can build: a new entry has no reaction, and
    reactions only change through [addReaction] and [removeReaction]; an
    edit, made through this entry or through another one that holds the
    same message, and the arrival of the image leave them alone. The parser's answers
    may differ from one call to the next (the emoji registry is mutable),
    hence [parse] is chosen anew at each step. *)
Inductive reachable : Entry.t → Prop :=
| reachable_new o message parser attachmentTextParser :
    reachable (Entry.new o message parser attachmentTextParser)
| reachable_add parse info e :
    reachable e → reachable (Entry.addReaction parse info e)
| reachable_remove parse info e :
    reachable e → reachable (Entry.removeReaction parse info e)
| reachable_edit em e :
    reachable e → reachable (edit em e)
| reachable_shown object em e :
    reachable e → reachable (shown object em e)
| reachable_image image e :
    reachable e → reachable (Entry.set_image image e).

(** The states of the service: one step is one call of [refresh] or the run
    of one event handler, up to its end or to its suspension. *)
Inductive step : SlackService.t → SlackService.t → Prop :=
| step_refresh tokens s :
    step s (refresh tokens s).2
| step_message message parser client s :
    step s (onReceiveMessage message parser client s).2
| step_image entry image message client s :
    step s (onReceiveMessage_resume entry image message client s).2
| step_reaction_added parse reaction parser client s :
    step s (onReactionAdded parse reaction parser client s).2
| step_reaction_removed parse reaction parser client s :
    step s (onReactionRemoved parse reaction parser client s).2.

(** ** Resolver *)

Definition raw_of (m : Entry.t) : Raw.t :=
  SlackMessage.rawMessage (Entry.message m).

(** The files list of the entry, when present, is non-empty. *)
Definition files_nonempty (m : Entry.t) : Prop :=
  Raw.files (raw_of m) ≠ Some [].

(** The same, required only of the entries whose subtype the resolver
    searches for. *)
Definition searched_files_nonempty (m : Entry.t) : Prop :=
  SlackMessage.subType (Entry.message m) = Some "file_share"
  ∨ SlackMessage.subType (Entry.message m) = Some "file_comment" →
  Raw.files (raw_of m) ≠ Some [].

(** An entry of subtype [file_share] whose first file is the target's. *)
Definition file_share_of (target : Item.t) (m : Entry.t) : Prop :=
  SlackMessage.subType (Entry.message m) = Some "file_share"
  ∧ ∃ f fs, Raw.files (raw_of m) = Some (f :: fs)
            ∧ Some (File.id f) = Item.file target.

(** An entry of subtype [file_comment] whose first file and whose comment
    are the target's. *)
Definition file_comment_of (target : Item.t) (m : Entry.t) : Prop :=
  SlackMessage.subType (Entry.message m) = Some "file_comment"
  ∧ (∃ f fs, Raw.files (raw_of m) = Some (f :: fs)
             ∧ Some (File.id f) = Item.file target)
  ∧ ∃ c, Raw.comment (raw_of m) = Some c
         ∧ Some (Comment.id c) = Item.file_comment target.

(** ** Dispatcher *)

(** The entry has the timestamp of the message embedded in the event and the
    channel of the event. *)
Definition matches_edit (message : SlackMessage.t) (em : Embedded.t)
    (m : Entry.t) : Prop :=
  Raw.ts (raw_of m) = Embedded.ts em
  ∧ Raw.channel (raw_of m) = Raw.channel (SlackMessage.rawMessage message).

(** ** Reconciler *)

Definition tokenOf (h : gmap cref SlackClient.t) (c : cref) : option string :=
  SlackClient.token <$> h !! c.

(** Two states of a connection object with the same token and the same
    numbers of [start()] and [stop()] calls. *)
Definition same_lifecycle (x x' : SlackClient.t) : Prop :=
  SlackClient.token x' = SlackClient.token x
  ∧ SlackClient.starts x' = SlackClient.starts x
  ∧ SlackClient.stops x' = SlackClient.stops x.

(** Every active connection is an object of the heap. *)
Definition no_dangling (s : SlackService.t) : Prop :=
  ∀ c, c ∈ clients s → is_Some (heap s !! c).

(** The active connections have pairwise distinct tokens. *)
Definition distinct_tokens (s : SlackService.t) : Prop :=
  ∀ c1 c2, c1 ∈ clients s → c2 ∈ clients s →
           tokenOf (heap s) c1 = tokenOf (heap s) c2 → c1 = c2.

(** A token that the cache of [refresh] finds only when a connection is
    cached under it: it names no property of [Object.prototype]. *)
Definition plain (s : SlackService.t) (token : string) : Prop :=
  (token ∉ Object_prototype) ∧ (prototype_1 s = true → token ≠ "1").

(** No active connection has the token [__proto__]: the prototype of the
    cache of [refresh] is [Object.prototype]. *)
Definition ordinary (s : SlackService.t) : Prop :=
  ∀ c, c ∈ clients s → tokenOf (heap s) c ≠ Some "__proto__".

(** How the connection [c] that serves the token [t] relates to the pass
    state [p] before the pass and [p'] after it: it is the cached connection
    of that token, or a connection that did not exist, was built with the
    token and was started once. *)
Definition serves (p p' : Pass) (t : string) (c : cref) : Prop :=
  (∃ b, cache p !! t = Some (c, b))
  ∨ (cache p !! t = None ∧ objects p !! c = None
     ∧ ∃ x', objects p' !! c = Some x' ∧ SlackClient.token x' = t
             ∧ SlackClient.starts x' = 1 ∧ SlackClient.stops x' = 0).

(** * Sample data *)

(** A renderer that returns its input. *)
Definition plain_parse : SlackParser → string → DataStore → string :=
  λ _ text _, text.

Definition sample_file (id : string) : File.t :=
  {| File.id := id; File.mimetype := "text/plain";
     File.url_private := "https://files.example/" +:+ id;
     File.thumb_480 := None; File.thumb_360 := None; File.thumb_160 := None;
     File.thumb_80 := None; File.thumb_64 := None |}.

Definition file_message (ref : nat) (ts : string) (subType : option string)
    (files : option (list File.t)) (comment : option Comment.t)
  : SlackMessage.t :=
  {| SlackMessage.ref := ref;
     SlackMessage.rawMessage :=
       {| Raw.subtype := subType; Raw.ts := ts; Raw.channel := "C1";
          Raw.deleted_ts := None; Raw.files := files; Raw.attachments := None;
          Raw.comment := comment; Raw.message := None |};
     SlackMessage.message := Some {| Body.files := files |};
     SlackMessage.text := "hello"; SlackMessage.subType := subType;
     SlackMessage.teamID := "T1"; SlackMessage.channelID := "C1";
     SlackMessage.ts := ts; SlackMessage.myUserId := "U0";
     SlackMessage.dataStore := {| userNames := [] |} |}.

Definition file_entry (o : nat) (ts : string) (subType : option string)
    (files : option (list File.t)) (comment : option Comment.t) : Entry.t :=
  Entry.new o (file_message o ts subType files comment) (fullParser 0) None.

Definition plain_entry : Entry.t := file_entry 0 "100.5" None None None.

(** A second entry built from the message object of [plain_entry]. *)
Definition plain_twin : Entry.t :=
  Entry.new 6 (file_message 0 "100.5" None None None) (fullParser 0) None.

Definition share_F1 : Entry.t :=
  file_entry 1 "101.0" (Some "file_share") (Some [sample_file "F1"]) None.

Definition plain_empty_files : Entry.t :=
  file_entry 2 "102.0" None (Some []) None.

Definition share_empty_files : Entry.t :=
  file_entry 3 "103.0" (Some "file_share") (Some []) None.

Definition comment_empty_files : Entry.t :=
  file_entry 4 "104.0" (Some "file_comment") (Some [])
    (Some {| Comment.id := "Fc9" |}).

Definition timeline (l : list Entry.t) : SlackService.t := set_infos l init.

Definition on_message (ts : string) : Item.t :=
  {| Item.type := "message"; Item.ts := Some ts; Item.file := None;
     Item.file_comment := None |}.

Definition on_file (f : string) : Item.t :=
  {| Item.type := "file"; Item.ts := None; Item.file := Some f;
     Item.file_comment := None |}.

Definition on_file_comment (f c : string) : Item.t :=
  {| Item.type := "file_comment"; Item.ts := None; Item.file := Some f;
     Item.file_comment := Some c |}.

Definition reaction_on (item : Item.t) : SlackReactionAdded.t :=
  {| SlackReactionAdded.reaction :=
       {| Reaction.reaction := "smile"; Reaction.user := "U1";
          Reaction.item := item |} |}.

Definition reacted (emoji user : string) : SlackReactionAdded.t :=
  {| SlackReactionAdded.reaction :=
       {| Reaction.reaction := emoji; Reaction.user := user;
          Reaction.item := on_message "100.5" |} |}.

(** The entry after U1 and then U2 reacted with [smile]. *)
Definition two_users : Entry.t :=
  Entry.addReaction plain_parse (reacted "smile" "U2")
    (Entry.addReaction plain_parse (reacted "smile" "U1") plain_entry).

Definition smile_of (users : list string) : Group.t :=
  Group.new "smile" ":smile::notitle:" users.

(** A [message_changed] event for the message [ts] of channel C1. *)
Definition changed_event (ts text : string) : SlackMessage.t :=
  {| SlackMessage.ref := 20;
     SlackMessage.rawMessage :=
       {| Raw.subtype := Some "message_changed"; Raw.ts := "200.0";
          Raw.channel := "C1"; Raw.deleted_ts := None; Raw.files := None;
          Raw.attachments := None; Raw.comment := None;
          Raw.message := Some {| Embedded.ts := ts; Embedded.text := text;
                                 Embedded.attachments := None |} |};
     SlackMessage.message := None;
     SlackMessage.text := ""; SlackMessage.subType := Some "message_changed";
     SlackMessage.teamID := "T1"; SlackMessage.channelID := "C1";
     SlackMessage.ts := "200.0"; SlackMessage.myUserId := "U0";
     SlackMessage.dataStore := {| userNames := [] |} |}.

(** A [message_deleted] event for the message [ts]. *)
Definition deleted_event (ts : string) : SlackMessage.t :=
  {| SlackMessage.ref := 21;
     SlackMessage.rawMessage :=
       {| Raw.subtype := Some "message_deleted"; Raw.ts := "201.0";
          Raw.channel := "C1"; Raw.deleted_ts := Some ts; Raw.files := None;
          Raw.attachments := None; Raw.comment := None; Raw.message := None |};
     SlackMessage.message := None;
     SlackMessage.text := ""; SlackMessage.subType := Some "message_deleted";
     SlackMessage.teamID := "T1"; SlackMessage.channelID := "C1";
     SlackMessage.ts := "201.0"; SlackMessage.myUserId := "U0";
     SlackMessage.dataStore := {| userNames := [] |} |}.

(** The same token configured twice, then removed from the configuration. *)
Definition twice_A : SlackService.t := (refresh ["A"; "A"] init).2.
Definition twice_A_removed : SlackService.t := (refresh [] twice_A).2.

(** The same token configured twice, then once. *)
Definition twice_A_once : SlackService.t := (refresh ["A"] twice_A).2.

(** Tokens A and B, reconfigured to B and C. *)
Definition tokens_AB : SlackService.t := (refresh ["A"; "B"] init).2.
Definition tokens_BC : SlackService.t := (refresh ["B"; "C"] tokens_AB).2.

(** A concrete list of tokens is plain for a service that has not touched
    [Object.prototype]. *)
Ltac plain_tokens :=
  repeat (apply Forall_cons; split;
          [split; [by apply (bool_decide_unpack _)|by intros [=]]|]);
  apply Forall_nil_2.

(** Case analysis on the entries of a concrete timeline. *)
Ltac each_entry :=
  apply Forall_forall; intros ? Hx;
  repeat (apply elem_of_cons in Hx as [->|Hx]);
  [..|by apply elem_of_nil in Hx].

(** * Vocabulary of the further properties *)

(** ** Derived attributes *)

(** [get includeMine()] of a reaction group; [target] is the entry that owns
    the group. [find] returns the user found, and [!!] of it is false when
    that string is empty. *)
Definition includeMine (target : Entry.t) (r : Group.t) : bool :=
  truthy_string
    (snd <$> list_find (λ u, u = SlackMessage.myUserId (Entry.message target))
               (Group.users r)).

(** The thumbnails of a file, largest first. *)
Definition thumbnails (file : File.t) : list (option string) :=
  [File.thumb_480 file; File.thumb_360 file; File.thumb_160 file;
   File.thumb_80 file; File.thumb_64 file].

(** A thumbnail reference that is missing or empty. *)
Definition no_thumbnail (t : option string) : Prop := t = None ∨ t = Some "".

(** The first reference of the list that is truthy, or the empty string. *)
Fixpoint first_truthy (l : list (option string)) : string :=
  match l with
  | [] => ""
  | t :: l' => if truthy_string t then default "" t else first_truthy l'
  end.

(** ** Events and timelines *)

(** The subtype of the event is one that [onReceiveMessage] hands to
    [addMessage]. *)
Definition unhandled_subtype (message : SlackMessage.t) : Prop :=
  Raw.subtype (SlackMessage.rawMessage message) ≠ Some "message_deleted"
  ∧ Raw.subtype (SlackMessage.rawMessage message) ≠ Some "message_changed"
  ∧ Raw.subtype (SlackMessage.rawMessage message) ≠ Some "message_replied".

(** The entry has the timestamp the descriptor names. *)
Definition has_ts (target : Item.t) (m : Entry.t) : Prop :=
  Some (Raw.ts (raw_of m)) = Item.ts target.

(** The message carries no image: it has no files, or its first file is not
    of an image type. *)
Definition no_image (body : Body.t) : Prop :=
  Body.files body = None
  ∨ ∃ f fs, Body.files body = Some (f :: fs)
            ∧ includes "image" (File.mimetype f) = false.

(** The first file of the message is of an image type. *)
Definition has_image (body : Body.t) : Prop :=
  ∃ f fs, Body.files body = Some (f :: fs)
          ∧ includes "image" (File.mimetype f) = true.

(** The entries of the timeline are distinct objects, allocated before the
    next one. *)
Definition oids_wf (s : SlackService.t) : Prop :=
  NoDup (Entry.oid <$> infos s)
  ∧ Forall (λ e, Entry.oid e < next_oid s) (infos s).

(** One run of an event handler. *)
Inductive handles : SlackService.t → SlackService.t → Prop :=
| handles_message message parser client s :
    handles s (onReceiveMessage message parser client s).2
| handles_image entry image message client s :
    handles s (onReceiveMessage_resume entry image message client s).2
| handles_reaction_added parse reaction parser client s :
    handles s (onReactionAdded parse reaction parser client s).2
| handles_reaction_removed parse reaction parser client s :
    handles s (onReactionRemoved parse reaction parser client s).2.

(** The steps of a service whose configuration never lists a token twice. *)
Inductive careful_step : SlackService.t → SlackService.t → Prop :=
| careful_refresh tokens s :
    NoDup tokens → careful_step s (refresh tokens s).2
| careful_handles s s' :
    handles s s' → careful_step s s'.

(** ** Further sample data *)

(** An image file whose two largest thumbnails are missing or empty. *)
Definition image_file (id thumb : string) : File.t :=
  {| File.id := id; File.mimetype := "image/png";
     File.url_private := "https://files.example/" +:+ id;
     File.thumb_480 := None; File.thumb_360 := Some "";
     File.thumb_160 := Some thumb; File.thumb_80 := Some "small";
     File.thumb_64 := None |}.

Definition image_message : SlackMessage.t :=
  file_message 15 "105.0" (Some "file_share") (Some [image_file "F5" "thumb160"]) None.

(** A [message_replied] event. *)
Definition replied_event : SlackMessage.t :=
  file_message 18 "108.0" (Some "message_replied") None None.

(** A [message_changed] event that carries no embedded message. *)
Definition bare_changed_event : SlackMessage.t :=
  file_message 19 "109.0" (Some "message_changed") None None.

(** The comment Fc1 on the file F1, tracked as an entry of its own. *)
Definition comment_F1 : Entry.t :=
  file_entry 5 "111.0" (Some "file_comment") (Some [sample_file "F1"])
    (Some {| Comment.id := "Fc1" |}).

(** The token A configured once, then twice: the second [refresh] reuses
    connection 0 for both occurrences and subscribes to its streams twice. *)
Definition once_then_twice_A : SlackService.t :=
  (refresh ["A"; "A"] (refresh ["A"] init).2).2.

(** The service after the connections of A and B received an image message:
    the entry waits for its image. *)
Definition awaiting_image : SlackService.t :=
  (onReceiveMessage image_message (fullParser 0) 0 tokens_AB).2.

(** The service after a message arrived and U1 reacted to it. *)
Definition reacted_timeline : SlackService.t :=
  (onReactionAdded plain_parse (reacted "smile" "U1") (fullParser 0) 0
     (onReceiveMessage (file_message 0 "100.5" None None None) (fullParser 0) 0
        init).2).2.


(** * Reaction groups: [addUser] and [removeUser] *)

Section Groups.
Implicit Types (u v : string) (g : Group.t).

Lemma users_removeUser u g :
  Group.users (Group.removeUser u g) = filter (λ v, v ≠ u) (Group.users g).
Proof. reflexivity. Qed.

Lemma users_addUser u g :
  Group.users (Group.addUser u g) = filter (λ v, v ≠ u) (Group.users g) ++ [u].
Proof. reflexivity. Qed.

Lemma set_users_id g : Group.set_users (Group.users g) g = g.
Proof. by destruct g. Qed.

Lemma filter_ne_snoc u (l : list string) :
  filter (λ v, v ≠ u) (l ++ [u]) = filter (λ v, v ≠ u) l.
Proof.
  rewrite filter_app, filter_cons_False, filter_nil, app_nil_r; [done|].
  intros H; by apply H.
Qed.

Lemma filter_ne_idemp u (l : list string) :
  filter (λ v, v ≠ u) (filter (λ v, v ≠ u) l) = filter (λ v, v ≠ u) l.
Proof.
  induction l as [|x l IH]; [done|].
  rewrite filter_cons. case_decide; [|done].
  by rewrite filter_cons_True, IH.
Qed.

Lemma filter_ne_absent u (l : list string) :
  u ∉ l → filter (λ v, v ≠ u) l = l.
Proof.
  induction l as [|x l IH]; [done|]. intros [Hne Hl]%not_elem_of_cons.
  by rewrite filter_cons_True, IH.
Qed.

Lemma filter_ne_all_eq u (l : list string) :
  (∀ v, v ∈ l → v = u) → filter (λ v, v ≠ u) l = [].
Proof.
  intros Hall. induction l as [|x l IH]; [done|].
  rewrite filter_cons_False; [apply IH|].
  - intros v Hv. apply Hall. by right.
  - intros Hne. apply Hne, Hall. by left.
Qed.

Lemma filter_eq_after_add u (l : list string) :
  filter (λ v, v = u) (filter (λ v, v ≠ u) l ++ [u]) = [u].
Proof.
  rewrite filter_app, filter_cons_True, filter_nil by done.
  replace (filter (λ v, v = u) (filter (λ v, v ≠ u) l)) with (@nil string); [done|].
  symmetry. induction l as [|x l IH]; [done|].
  rewrite (filter_cons (λ v, v ≠ u)). case_decide; [|done].
  by rewrite filter_cons_False.
Qed.

Lemma addUser_addUser u g :
  Group.addUser u (Group.addUser u g) = Group.addUser u g.
Proof.
  destruct g as [raw key us shown].
  unfold Group.addUser, Group.removeUser, Group.set_users; simpl.
  by rewrite filter_ne_snoc, filter_ne_idemp.
Qed.

Lemma addUser_new u raw (k : string) :
  Group.addUser u (Group.new raw k [u]) = Group.new raw k [u].
Proof.
  unfold Group.addUser, Group.removeUser, Group.set_users, Group.new; simpl.
  by rewrite filter_cons_False, filter_nil by (intros H; by apply H).
Qed.

Lemma addUser_last_is_noop u g :
  NoDup (Group.users g) → last (Group.users g) = Some u → Group.addUser u g = g.
Proof.
  intros Hnd (l & Hl)%last_Some. rewrite <- (set_users_id g) at 2.
  unfold Group.addUser, Group.removeUser.
  destruct g as [raw key us shown]; unfold Group.set_users; simpl in *.
  f_equal. subst us. rewrite filter_ne_snoc. f_equal.
  apply NoDup_app in Hnd as (_ & Hnot & _). apply filter_ne_absent.
  intros Hin. by eapply Hnot; [|left].
Qed.

Lemma NoDup_addUser u g :
  NoDup (Group.users g) → NoDup (Group.users (Group.addUser u g)).
Proof.
  intros Hnd. rewrite users_addUser. apply NoDup_app. split_and!.
  - by apply NoDup_filter.
  - intros x [Hx _]%list_elem_of_filter ->%list_elem_of_singleton. by apply Hx.
  - apply NoDup_singleton.
Qed.

Lemma NoDup_removeUser u g :
  NoDup (Group.users g) → NoDup (Group.users (Group.removeUser u g)).
Proof. intros. rewrite users_removeUser. by apply NoDup_filter. Qed.

Lemma elem_of_addUser u g v :
  v ∈ Group.users (Group.addUser u g) ↔ v = u ∨ v ∈ Group.users g.
Proof.
  rewrite users_addUser, elem_of_app, list_elem_of_filter, list_elem_of_singleton.
  destruct (decide (v = u)); tauto.
Qed.

Lemma length_filter_ne_NoDup u (l : list string) :
  u ∈ l → NoDup l → S (length (filter (λ v, v ≠ u) l)) = length l.
Proof.
  induction l as [|x l IH]; intros Hin Hnd; [by apply elem_of_nil in Hin|].
  apply NoDup_cons in Hnd as [Hx Hnd]. rewrite filter_cons. case_decide as Hxu.
  - simpl. f_equal. apply IH; [|done]. apply elem_of_cons in Hin as [->|]; done.
  - subst x. simpl. f_equal. by rewrite filter_ne_absent.
Qed.

Lemma count_addUser_member u g :
  u ∈ Group.users g → NoDup (Group.users g) →
  Group.count (Group.addUser u g) = Group.count g.
Proof.
  intros Hin Hnd. unfold Group.count. rewrite users_addUser, length_app. simpl.
  rewrite <- (length_filter_ne_NoDup u (Group.users g)) by done. lia.
Qed.
End Groups.

(** * Entries: [addReaction] and [removeReaction] *)

Section Entries.
Variable parse : SlackParser → string → DataStore → string.
Implicit Types (e : Entry.t) (info : SlackReactionAdded.t) (g : Group.t).

Lemma set_reactions_id e : Entry.set_reactions (Entry.reactions e) e = e.
Proof. by destruct e. Qed.

Lemma rendered_set_reactions rs e info :
  Entry.rendered parse (Entry.set_reactions rs e) info
  = Entry.rendered parse e info.
Proof. reflexivity. Qed.

Lemma rendered_addReaction info info' e :
  Entry.rendered parse (Entry.addReaction parse info' e) info
  = Entry.rendered parse e info.
Proof. unfold Entry.addReaction. by destruct (Entry.findGroup _ e) as [[??]|]. Qed.

Lemma findGroup_set_reactions (k : string) rs e :
  Entry.findGroup k (Entry.set_reactions rs e)
  = list_find (λ r, Group.reaction r = k) rs.
Proof. reflexivity. Qed.

Lemma list_find_insert_same (k : string) (rs : list Group.t) i g g' :
  list_find (λ r, Group.reaction r = k) rs = Some (i, g) →
  Group.reaction g' = k →
  list_find (λ r, Group.reaction r = k) (<[i:=g']> rs) = Some (i, g').
Proof.
  intros (Hi & _ & Hleast)%list_find_Some Hk. apply list_find_insert_Some.
  right; left. split_and!; eauto using lookup_lt_Some.
Qed.

Lemma filter_insert_same (k : string) (rs : list Group.t) i g g' :
  rs !! i = Some g → Group.reaction g = k → Group.reaction g' = k →
  filter (λ r, Group.reaction r ≠ k) (<[i:=g']> rs)
  = filter (λ r, Group.reaction r ≠ k) rs.
Proof.
  revert i. induction rs as [|r rs IH]; intros [|i] Hi Hg Hg'; simplify_eq/=.
  - rewrite !filter_cons_False; [done|..]; by intros [].
  - rewrite !filter_cons. by rewrite (IH i).
Qed.

Lemma filter_key_absent (k : string) (rs : list Group.t) :
  list_find (λ r, Group.reaction r = k) rs = None →
  filter (λ r, Group.reaction r ≠ k) rs = rs.
Proof.
  intros Hnone%list_find_None. induction Hnone as [|r rs Hr _ IH]; [done|].
  by rewrite filter_cons_True, IH.
Qed.

Lemma list_find_filter_key (k : string) (rs : list Group.t) :
  list_find (λ r, Group.reaction r = k) (filter (λ r, Group.reaction r ≠ k) rs)
  = None.
Proof.
  apply list_find_None, Forall_forall. by intros r [? _]%list_elem_of_filter.
Qed.

Lemma addReaction_found info e i g :
  let k := Entry.rendered parse e info in
  let u := Reaction.user (SlackReactionAdded.reaction info) in
  Entry.findGroup k e = Some (i, g) →
  Entry.addReaction parse info e
  = Entry.set_reactions (<[i := Group.addUser u g]> (Entry.reactions e)) e.
Proof. intros k u Hfind. unfold Entry.addReaction. fold k. by rewrite Hfind. Qed.

Lemma addReaction_absent info e :
  let k := Entry.rendered parse e info in
  let u := Reaction.user (SlackReactionAdded.reaction info) in
  Entry.findGroup k e = None →
  Entry.addReaction parse info e
  = Entry.set_reactions
      (Entry.reactions e ++
       [Group.new (Reaction.reaction (SlackReactionAdded.reaction info)) k [u]]) e.
Proof. intros k u Hfind. unfold Entry.addReaction. fold k. by rewrite Hfind. Qed.

(** After [addReaction] the group of the key exists, holds the user last, and
    the groups of the other keys are the same. *)
Lemma findGroup_addReaction info e :
  let k := Entry.rendered parse e info in
  let u := Reaction.user (SlackReactionAdded.reaction info) in
  ∃ i g, Entry.findGroup k (Entry.addReaction parse info e) = Some (i, g)
         ∧ Group.reaction g = k
         ∧ Group.users g
           = match Entry.findGroup k e with
             | Some (_, g0) => filter (λ v, v ≠ u) (Group.users g0) ++ [u]
             | None => [u]
             end
         ∧ filter (λ r, Group.reaction r ≠ k)
             (Entry.reactions (Entry.addReaction parse info e))
           = filter (λ r, Group.reaction r ≠ k) (Entry.reactions e).
Proof.
  intros k u. unfold Entry.addReaction. fold k u.
  destruct (Entry.findGroup k e) as [[i g]|] eqn:Hfind.
  - pose proof Hfind as (Hi & Hk & _)%list_find_Some.
    exists i, (Group.addUser u g). split_and!; [|done|done|].
    + unfold Entry.findGroup; simpl.
      eapply list_find_insert_same; [exact Hfind|done].
    + simpl. by eapply filter_insert_same.
  - exists (length (Entry.reactions e)),
      (Group.new (Reaction.reaction (SlackReactionAdded.reaction info)) k [u]).
    split_and!; [|reflexivity|reflexivity|].
    + unfold Entry.findGroup; simpl. rewrite list_find_app_r by done.
      simpl. by rewrite decide_True.
    + simpl. rewrite filter_app, filter_cons_False, filter_nil, app_nil_r; [done|].
      by intros [].
Qed.

Lemma addReaction_addReaction info e :
  Entry.addReaction parse info (Entry.addReaction parse info e)
  = Entry.addReaction parse info e.
Proof.
  set (k := Entry.rendered parse e info).
  set (u := Reaction.user (SlackReactionAdded.reaction info)).
  destruct (Entry.findGroup k e) as [[i g]|] eqn:Hfind.
  - rewrite (addReaction_found info e i g Hfind). fold u.
    pose proof Hfind as (Hi & Hk & _)%list_find_Some.
    erewrite addReaction_found.
    2:{ rewrite rendered_set_reactions, findGroup_set_reactions.
        eapply list_find_insert_same; [exact Hfind|exact Hk]. }
    unfold Entry.set_reactions; simpl.
    by rewrite list_insert_insert_eq, addUser_addUser.
  - rewrite (addReaction_absent info e Hfind). fold k u.
    erewrite addReaction_found.
    2:{ rewrite rendered_set_reactions, findGroup_set_reactions. fold k.
        rewrite list_find_app_r by exact Hfind. simpl.
        rewrite decide_True by done. reflexivity. }
    unfold Entry.set_reactions; simpl. fold u. rewrite addUser_new.
    f_equal. apply list_insert_id.
    rewrite lookup_app_r by lia. by rewrite Nat.sub_diag.
Qed.

Lemma removeReaction_emptied info e i g :
  let k := Entry.rendered parse e info in
  let u := Reaction.user (SlackReactionAdded.reaction info) in
  Entry.findGroup k e = Some (i, g) →
  filter (λ v, v ≠ u) (Group.users g) = [] →
  Entry.removeReaction parse info e
  = Entry.set_reactions
      (filter (λ r, Group.reaction r ≠ k) (Entry.reactions e)) e.
Proof.
  intros k u Hfind Hempty. unfold Entry.removeReaction. fold k u. rewrite Hfind.
  pose proof Hfind as (Hi & Hk & _)%list_find_Some.
  unfold Group.count. rewrite users_removeUser, Hempty. simpl.
  unfold Entry.set_reactions; simpl. f_equal. by eapply filter_insert_same.
Qed.
End Entries.

(** Every group of a reachable entry holds each of its users once, and holds
    at least one user. *)
Lemma reachable_groups e :
  reachable e →
  Forall (λ g, NoDup (Group.users g) ∧ Group.users g ≠ []) (Entry.reactions e).
Proof.
  induction 1 as [o m p ap|parse info e _ IH|parse info e _ IH
                   |em e _ IH|object em e _ IH|image e _ IH];
    [| | |exact IH|by unfold shown; case_decide|exact IH].
  - constructor.
  - unfold Entry.addReaction.
    destruct (Entry.findGroup _ e) as [[i g]|] eqn:Hfind; simpl.
    + apply list_find_Some in Hfind as (Hi & _).
      destruct (Forall_lookup_1 _ _ _ _ IH Hi) as [Hnd _].
      apply Forall_insert; [done|]. split; [by apply NoDup_addUser|].
      rewrite users_addUser. by intros [_ ?]%app_eq_nil.
    + apply Forall_app. split; [done|]. apply Forall_singleton.
      split; [apply NoDup_singleton|done].
  - unfold Entry.removeReaction.
    destruct (Entry.findGroup _ e) as [[i g]|] eqn:Hfind; [|done].
    pose proof Hfind as (Hi & Hk & _)%list_find_Some.
    destruct (Forall_lookup_1 _ _ _ _ IH Hi) as [Hnd _].
    set (u := Reaction.user (SlackReactionAdded.reaction info)).
    case_bool_decide as Hcount; simpl.
    + apply Forall_forall. intros r [Hr Hin]%list_elem_of_filter.
      apply list_elem_of_lookup in Hin as [j Hj].
      destruct (decide (j = i)) as [->|Hne].
      * rewrite list_lookup_insert_eq in Hj by eauto using lookup_lt_Some.
        simplify_eq; by destruct Hr.
      * rewrite list_lookup_insert_ne in Hj by done.
        by apply (Forall_lookup_1 _ _ _ _ IH Hj).
    + apply Forall_insert; [done|]. split; [by apply NoDup_removeUser|].
      intros Hnil. apply Hcount. unfold Group.count. by rewrite Hnil.
Qed.

(** C8. Invariant: in every reaction group of an entry reached through any
    sequence of [addReaction] and [removeReaction] calls, each user
    identifier occurs at most once in the group's [users] list. *)
Theorem reachable_users_NoDup e :
  reachable e → Forall (λ g, NoDup (Group.users g)) (Entry.reactions e).
Proof.
  intros Hreach. eapply Forall_impl; [by apply reachable_groups|].
  by intros g [Hnd _].
Qed.

Lemma reachable_two_users : reachable two_users.
Proof.
  unfold two_users, plain_entry, file_entry.
  do 2 apply reachable_add. apply reachable_new.
Defined.

Lemma two_users_sample :
  Forall (λ g, NoDup (Group.users g)) (Entry.reactions two_users).
Proof. apply reachable_users_NoDup. exact reachable_two_users. Defined.

(** C9. After [addUser(u)] on a reaction group, [u] is the last element of
    the group's [users] list, also when [u] was already present: the users
    other than [u] keep their order, and re-adding a user that is present
    changes neither the members nor the count. *)
Theorem addUser_moves_user_to_end e g user :
  reachable e → g ∈ Entry.reactions e →
  last (Group.users (Group.addUser user g)) = Some user
  ∧ filter (λ v, v ≠ user) (Group.users (Group.addUser user g))
    = filter (λ v, v ≠ user) (Group.users g)
  ∧ (user ∈ Group.users g →
     Group.count (Group.addUser user g) = Group.count g
     ∧ ∀ v, v ∈ Group.users (Group.addUser user g) ↔ v ∈ Group.users g).
Proof.
  intros Hreach Hg.
  pose proof (proj1 (Forall_forall _ _) (reachable_groups e Hreach) g Hg)
    as [Hnd _].
  split_and!.
  - rewrite users_addUser. apply last_snoc.
  - rewrite users_addUser. by rewrite filter_ne_snoc, filter_ne_idemp.
  - intros Hin. split; [by apply count_addUser_member|].
    intros v. rewrite elem_of_addUser. split; [intros [->|]|]; auto.
Qed.

Lemma move_to_end_sample :
  Group.users (Group.addUser "U1" (smile_of ["U1"; "U2"])) = ["U2"; "U1"]
  ∧ last (Group.users (Group.addUser "U1" (smile_of ["U1"; "U2"]))) = Some "U1"
  ∧ Group.count (Group.addUser "U1" (smile_of ["U1"; "U2"]))
    = Group.count (smile_of ["U1"; "U2"]).
Proof.
  destruct (addUser_moves_user_to_end two_users (smile_of ["U1"; "U2"]) "U1")
    as (Hlast & _ & Hsame).
  - exact reachable_two_users.
  - by left.
  - split_and!; [reflexivity|exact Hlast|]. apply Hsame. by left.
Defined.

(** C3, as stated, fails: the group [smile] holds U1 and U2; adding U1 again
    is not a no-op, the users list becomes U2, U1. *)
Lemma readding_user_reorders :
  Entry.findGroup ":smile::notitle:" two_users = Some (0, smile_of ["U1"; "U2"])
  ∧ "U1" ∈ Group.users (smile_of ["U1"; "U2"])
  ∧ Entry.reactions (Entry.addReaction plain_parse (reacted "smile" "U1") two_users)
    = [smile_of ["U2"; "U1"]]
  ∧ Entry.reactions (Entry.addReaction plain_parse (reacted "smile" "U1") two_users)
    ≠ Entry.reactions two_users.
Proof.
  split_and!; [reflexivity|by left|reflexivity|].
  intros H. vm_compute in H. discriminate H.
Qed.

(** C3, amended. [addReaction] is idempotent: applying it twice in a row
    gives the state that applying it once gives, and the user then has
    exactly one membership in the group. When a group with the key already
    contains the user, adding the user again changes neither the members nor
    the count of the group, and leaves the other groups alone, but it moves
    the user to the end of the [users] list: the state is unchanged when the
    user was already last. *)
Theorem addReaction_twice_is_once parse info e :
  reachable e →
  let k := Entry.rendered parse e info in
  let u := Reaction.user (SlackReactionAdded.reaction info) in
  Entry.addReaction parse info (Entry.addReaction parse info e)
    = Entry.addReaction parse info e
  ∧ (∃ i g, Entry.findGroup k (Entry.addReaction parse info e) = Some (i, g)
            ∧ filter (λ v, v = u) (Group.users g) = [u])
  ∧ (∀ i g, Entry.findGroup k e = Some (i, g) → u ∈ Group.users g →
            Entry.reactions (Entry.addReaction parse info e)
              = <[i := Group.addUser u g]> (Entry.reactions e)
            ∧ (∀ v, v ∈ Group.users (Group.addUser u g) ↔ v ∈ Group.users g)
            ∧ Group.count (Group.addUser u g) = Group.count g
            ∧ last (Group.users (Group.addUser u g)) = Some u
            ∧ (last (Group.users g) = Some u
               → Entry.addReaction parse info e = e)).
Proof.
  intros Hreach k u. split_and!.
  - apply addReaction_addReaction.
  - destruct (findGroup_addReaction parse info e) as (i & g & Hf & _ & Hus & _).
    exists i, g. split; [exact Hf|]. rewrite Hus. fold k u.
    destruct (Entry.findGroup k e) as [[j g0]|];
      [apply filter_eq_after_add|apply (filter_eq_after_add u [])].
  - intros i g Hfind Hin.
    pose proof Hfind as (Hi & _)%list_find_Some.
    destruct (Forall_lookup_1 _ _ _ _ (reachable_groups e Hreach) Hi) as [Hnd _].
    rewrite (addReaction_found parse info e i g Hfind). fold u.
    split_and!.
    + done.
    + intros v. rewrite elem_of_addUser. split; [intros [->|]|]; auto.
    + by apply count_addUser_member.
    + rewrite users_addUser. apply last_snoc.
    + intros Hlast. rewrite addUser_last_is_noop by done.
      rewrite list_insert_id by done. apply set_reactions_id.
Qed.

Lemma readd_sample :
  Entry.addReaction plain_parse (reacted "smile" "U1")
    (Entry.addReaction plain_parse (reacted "smile" "U1") two_users)
  = Entry.addReaction plain_parse (reacted "smile" "U1") two_users
  ∧ Group.count (Group.addUser "U1" (smile_of ["U1"; "U2"])) = 2.
Proof.
  destruct (addReaction_twice_is_once plain_parse (reacted "smile" "U1")
              two_users reachable_two_users) as (Hidem & _ & H).
  destruct (H 0 (smile_of ["U1"; "U2"])) as (_ & _ & Hcount & _).
  - reflexivity.
  - by left.
  - split; [exact Hidem|exact Hcount].
Defined.

(** C4. A removal that empties a group's user set deletes the group from the
    entry's reaction list; in particular [removeReaction(k, u)] after
    [addReaction(k, u)], when the group of [k] held no user other than [u],
    leaves no group with key [k], and gives back the entry itself when there
    was no such group before. *)
Theorem removeReaction_deletes_emptied_group parse info e :
  let k := Entry.rendered parse e info in
  let u := Reaction.user (SlackReactionAdded.reaction info) in
  (∀ i g, Entry.findGroup k e = Some (i, g) →
          filter (λ v, v ≠ u) (Group.users g) = [] →
          Entry.reactions (Entry.removeReaction parse info e)
            = filter (λ r, Group.reaction r ≠ k) (Entry.reactions e)
          ∧ Entry.findGroup k (Entry.removeReaction parse info e) = None)
  ∧ ((∀ i g, Entry.findGroup k e = Some (i, g) →
             ∀ v, v ∈ Group.users g → v = u) →
     let e' := Entry.removeReaction parse info (Entry.addReaction parse info e) in
     Entry.reactions e' = filter (λ r, Group.reaction r ≠ k) (Entry.reactions e)
     ∧ Entry.findGroup k e' = None
     ∧ (Entry.findGroup k e = None → e' = e)).
Proof.
  intros k u.
  assert (∀ e0 i g, Entry.rendered parse e0 info = k →
            Entry.findGroup k e0 = Some (i, g) →
            filter (λ v, v ≠ u) (Group.users g) = [] →
            Entry.removeReaction parse info e0
            = Entry.set_reactions
                (filter (λ r, Group.reaction r ≠ k) (Entry.reactions e0)) e0)
    as Hgeneral.
  { intros e0 i g <- Hfind Hempty. by eapply removeReaction_emptied. }
  split.
  - intros i g Hfind Hempty. rewrite (Hgeneral e i g) by done.
    split; [done|]. rewrite findGroup_set_reactions. apply list_find_filter_key.
  - intros Honly e'.
    destruct (findGroup_addReaction parse info e)
      as (j & g1 & Hf1 & _ & Hus & Hrest).
    fold k u in Hf1, Hus, Hrest.
    assert (filter (λ v, v ≠ u) (Group.users g1) = []) as Hempty.
    { rewrite Hus. destruct (Entry.findGroup k e) as [[i g]|] eqn:Hfind.
      - rewrite filter_ne_snoc, filter_ne_idemp.
        apply filter_ne_all_eq. by eapply Honly.
      - apply filter_ne_all_eq. by intros v ->%list_elem_of_singleton. }
    assert (e' = Entry.set_reactions
                   (filter (λ r, Group.reaction r ≠ k) (Entry.reactions e)) e)
      as He'.
    { unfold e'. rewrite (Hgeneral _ j g1); [|apply rendered_addReaction|done..].
      rewrite Hrest. unfold Entry.addReaction.
      by destruct (Entry.findGroup _ e) as [[??]|]. }
    rewrite He'. split_and!.
    + done.
    + rewrite findGroup_set_reactions. apply list_find_filter_key.
    + intros Hnone. rewrite filter_key_absent by done. apply set_reactions_id.
Qed.

Lemma add_then_remove_sample :
  Entry.removeReaction plain_parse (reacted "smile" "U1")
    (Entry.addReaction plain_parse (reacted "smile" "U1") plain_entry)
  = plain_entry.
Proof.
  destruct (removeReaction_deletes_emptied_group plain_parse
              (reacted "smile" "U1") plain_entry) as [_ H].
  apply H.
  - intros i g Hfind. vm_compute in Hfind. discriminate Hfind.
  - reflexivity.
Defined.

(** * [Array.prototype.find] *)

Section Find.
Context {A : Type} (p : A → outcome bool).

Lemma find_from_none i l :
  (∀ x, x ∈ l → p x = Ok false) → find_from p i l = Ok None.
Proof.
  revert i. induction l as [|x l IH]; intros i Hall; [done|]. simpl.
  rewrite Hall by left. apply IH. intros y Hy. apply Hall. by right.
Qed.

Lemma find_from_first i pre x post :
  (∀ y, y ∈ pre → p y = Ok false) → p x = Ok true →
  find_from p i (pre ++ x :: post) = Ok (Some (i + length pre, x)).
Proof.
  revert i. induction pre as [|y pre IH]; intros i Hpre Hx; simpl.
  - by rewrite Hx, Nat.add_0_r.
  - rewrite Hpre by left. rewrite IH; [do 3 f_equal; lia| |done].
    intros z Hz. apply Hpre. by right.
Qed.

Lemma find_from_total i l :
  (∀ x, x ∈ l → ∃ b, p x = Ok b) → ∃ r, find_from p i l = Ok r.
Proof.
  revert i. induction l as [|x l IH]; intros i Hall; simpl; [by eexists|].
  destruct (Hall x) as [[] ->]; [by left|by eexists|].
  apply IH. intros y Hy. apply Hall. by right.
Qed.

Lemma find_from_faults i pre rest :
  (∀ x, x ∈ pre → p x ≠ Ok true) → (∃ x, x ∈ pre ∧ p x = TypeError) →
  find_from p i (pre ++ rest) = TypeError.
Proof.
  revert i. induction pre as [|y pre IH]; intros i Hnone (x & Hx & Hraise).
  { by apply elem_of_nil in Hx. }
  simpl. destruct (p y) as [[]|] eqn:Hy; [|..|done].
  - by destruct (Hnone y ltac:(left)).
  - apply IH; [intros z Hz; apply Hnone; by right|].
    apply elem_of_cons in Hx as [->|Hx]; [congruence|by exists x].
Qed.

Lemma find_from_Some i l j x :
  find_from p i l = Ok (Some (j, x)) →
  i ≤ j ∧ l !! (j - i) = Some x ∧ p x = Ok true.
Proof.
  revert i. induction l as [|y l IH]; intros i; simpl; [done|].
  destruct (p y) as [[]|] eqn:Hy; [|intros H|done].
  - intros [= <- <-]. by rewrite Nat.sub_diag.
  - apply IH in H as (? & ? & ?). split_and!; [lia| |done].
    replace (j - i) with (S (j - S i)) by lia. done.
Qed.
End Find.

(** * The resolver: [findReactionTarget] *)

Section Resolver.
Implicit Types (target : Item.t) (m : Entry.t).

Lemma files_nonempty_searched m : files_nonempty m → searched_files_nonempty m.
Proof. by intros H _. Qed.

Lemma isFileShare_true target m :
  file_share_of target m → isFileShare target m = Ok true.
Proof.
  intros (Hsub & f & fs & Hfiles & Hid). unfold isFileShare. fold (raw_of m).
  rewrite Hsub, Hfiles. simpl. by rewrite bool_decide_true.
Qed.

Lemma isFileShare_raises target m :
  SlackMessage.subType (Entry.message m) = Some "file_share" →
  Raw.files (raw_of m) = Some [] →
  isFileShare target m = TypeError.
Proof.
  intros Hsub Hfiles. unfold isFileShare. fold (raw_of m).
  by rewrite Hsub, Hfiles.
Qed.

Lemma isFileShare_total target m :
  searched_files_nonempty m → ∃ b, isFileShare target m = Ok b.
Proof.
  intros Hwf. unfold isFileShare. fold (raw_of m).
  case_bool_decide as Hsub; simpl; [|by eexists].
  destruct (Raw.files (raw_of m)) as [[|f fs]|] eqn:Hfiles; simpl;
    [|by eexists..].
  destruct Hwf; auto.
Qed.

Lemma isFileComment_true target m :
  file_comment_of target m → isFileComment target m = Ok true.
Proof.
  intros (Hsub & (f & fs & Hfiles & Hid) & c & Hc & Hcid).
  unfold isFileComment. fold (raw_of m). rewrite Hsub, Hfiles, Hc. simpl.
  rewrite bool_decide_true by done. simpl. by rewrite bool_decide_true.
Qed.

Lemma isFileComment_raises target m :
  SlackMessage.subType (Entry.message m) = Some "file_comment" →
  Raw.files (raw_of m) = Some [] →
  isFileComment target m = TypeError.
Proof.
  intros Hsub Hfiles. unfold isFileComment. fold (raw_of m).
  by rewrite Hsub, Hfiles.
Qed.

Lemma isFileComment_total target m :
  searched_files_nonempty m → ∃ b, isFileComment target m = Ok b.
Proof.
  intros Hwf. unfold isFileComment. fold (raw_of m).
  case_bool_decide as Hsub; simpl; [|by eexists].
  destruct (Raw.files (raw_of m)) as [[|f fs]|] eqn:Hfiles; simpl;
    [|..|by eexists].
  - destruct Hwf; auto.
  - case_bool_decide; simpl; [|by eexists].
    destruct (Raw.comment (raw_of m)); simpl; by eexists.
Qed.

Lemma isFileShare_not target m :
  (SlackMessage.subType (Entry.message m) = Some "file_share" →
   Raw.files (raw_of m) ≠ Some []) →
  ¬ file_share_of target m →
  isFileShare target m = Ok false.
Proof.
  intros Hwf Hnot. unfold isFileShare. fold (raw_of m).
  case_bool_decide as Hsub; simpl; [|done].
  destruct (Raw.files (raw_of m)) as [[|f fs]|] eqn:Hfiles; simpl; [| |done].
  - by destruct Hwf.
  - rewrite bool_decide_false; [done|]. intros Hid. apply Hnot.
    split; [done|]. by exists f, fs.
Qed.

Lemma isFileComment_not target m :
  (SlackMessage.subType (Entry.message m) = Some "file_comment" →
   Raw.files (raw_of m) ≠ Some []) →
  ¬ file_comment_of target m →
  isFileComment target m = Ok false.
Proof.
  intros Hwf Hnot. unfold isFileComment. fold (raw_of m).
  case_bool_decide as Hsub; simpl; [|done].
  destruct (Raw.files (raw_of m)) as [[|f fs]|] eqn:Hfiles; simpl; [| |done].
  - by destruct Hwf.
  - case_bool_decide as Hid; simpl; [|done].
    destruct (Raw.comment (raw_of m)) as [c|] eqn:Hc; simpl; [|done].
    rewrite bool_decide_false; [done|]. intros Hcid. apply Hnot.
    split_and!; [done|by exists f, fs|by exists c].
Qed.

Lemma isFileShare_matches target m :
  isFileShare target m = Ok true → file_share_of target m.
Proof.
  unfold isFileShare, file_share_of. fold (raw_of m).
  case_bool_decide as Hsub; simpl; [|done].
  destruct (Raw.files (raw_of m)) as [[|f fs]|] eqn:Hfiles; simpl; [done| |done].
  case_bool_decide as Hid; [|done]. intros _. split; [done|]. by exists f, fs.
Qed.

Lemma isFileComment_matches target m :
  isFileComment target m = Ok true → file_comment_of target m.
Proof.
  unfold isFileComment, file_comment_of. fold (raw_of m).
  case_bool_decide as Hsub; simpl; [|done].
  destruct (Raw.files (raw_of m)) as [[|f fs]|] eqn:Hfiles; simpl; [done| |done].
  case_bool_decide as Hid; simpl; [|done].
  destruct (Raw.comment (raw_of m)) as [c|] eqn:Hc; simpl; [|done].
  case_bool_decide as Hcid; [|done]. intros _.
  split_and!; [done|by exists f, fs|by exists c].
Qed.

(** The resolver returns, for every event, when no entry of a searched
    subtype carries an empty files array. *)
Lemma findReactionTarget_total s :
  Forall searched_files_nonempty (infos s) →
  ∀ reaction, ∃ r, findReactionTarget s reaction = Ok r.
Proof.
  intros Hall reaction. pose proof (proj1 (Forall_forall _ _) Hall) as Hwf.
  unfold findReactionTarget. repeat case_decide.
  - apply find_from_total. intros; by eexists.
  - apply find_from_total. intros x Hx. by apply isFileShare_total, Hwf.
  - destruct (find_from_total (isFileComment
               (Reaction.item (SlackReactionAdded.reaction reaction))) 0 (infos s))
      as [[r|] Hr].
    { intros x Hx. by apply isFileComment_total, Hwf. }
    + unfold find. rewrite Hr. by eexists.
    + unfold find. rewrite Hr. simpl. apply find_from_total.
      intros x Hx. by apply isFileShare_total, Hwf.
  - by eexists.
Qed.

Lemma findReactionTarget_unknown s reaction :
  let target := Reaction.item (SlackReactionAdded.reaction reaction) in
  Item.type target ≠ "message" → Item.type target ≠ "file" →
  Item.type target ≠ "file_comment" →
  findReactionTarget s reaction = Ok None.
Proof.
  intros target H1 H2 H3. unfold findReactionTarget. fold target.
  by rewrite !decide_False.
Qed.
End Resolver.

(** C5, as stated, fails: no entry is a [file_comment] entry of file F1 and
    comment Fc1, [share_F1] is a [file_share] entry of file F1, and the
    resolution raises instead of returning [share_F1], because the first
    search reads [files[0].id] of a [file_comment] entry whose files array is
    empty. *)
Lemma fallback_blocked_by_empty_files :
  (∀ x, x ∈ infos (timeline [comment_empty_files; share_F1]) →
        ¬ file_comment_of (on_file_comment "F1" "Fc1") x)
  ∧ share_F1 ∈ infos (timeline [comment_empty_files; share_F1])
  ∧ file_share_of (on_file_comment "F1" "Fc1") share_F1
  ∧ findReactionTarget (timeline [comment_empty_files; share_F1])
      (reaction_on (on_file_comment "F1" "Fc1")) = TypeError.
Proof.
  split_and!.
  - intros x Hx (Hsub & (f & fs & Hfiles & _) & _).
    apply elem_of_cons in Hx as [->|Hx]; [discriminate Hfiles|].
    apply list_elem_of_singleton in Hx as ->. discriminate Hsub.
  - right. by left.
  - split; [reflexivity|]. by exists (sample_file "F1"), [].
  - reflexivity.
Qed.

(** C5, amended. For a [file_comment] descriptor, when no entry has subtype
    [file_comment] with the descriptor's file id and comment id and some
    entry has subtype [file_share] with the descriptor's file id as its first
    file id, the resolution returns the first such [file_share] entry,
    provided no [file_comment] entry carries an empty files array and no
    [file_share] entry ahead of the one returned does; it raises when one of
    the two is the case. For a descriptor of an unknown variant the
    resolution returns none, without error, on every timeline. *)
Theorem file_comment_falls_back_to_share s reaction :
  let target := Reaction.item (SlackReactionAdded.reaction reaction) in
  (Item.type target = "file_comment" →
   (∀ x, x ∈ infos s → ¬ file_comment_of target x) →
   ∀ pre m post,
     infos s = pre ++ m :: post →
     file_share_of target m →
     (∀ x, x ∈ pre → ¬ file_share_of target x) →
     ((∀ x, x ∈ infos s →
            SlackMessage.subType (Entry.message x) = Some "file_comment" →
            Raw.files (raw_of x) ≠ Some []) →
      (∀ x, x ∈ pre →
            SlackMessage.subType (Entry.message x) = Some "file_share" →
            Raw.files (raw_of x) ≠ Some []) →
      findReactionTarget s reaction = Ok (Some (length pre, m)))
     ∧ ((∃ x, x ∈ infos s
              ∧ SlackMessage.subType (Entry.message x) = Some "file_comment"
              ∧ Raw.files (raw_of x) = Some [])
        ∨ (∃ x, x ∈ pre
                ∧ SlackMessage.subType (Entry.message x) = Some "file_share"
                ∧ Raw.files (raw_of x) = Some []) →
        findReactionTarget s reaction = TypeError))
  ∧ (Item.type target ≠ "message" → Item.type target ≠ "file" →
     Item.type target ≠ "file_comment" →
     findReactionTarget s reaction = Ok None).
Proof.
  intros target. split; [|apply findReactionTarget_unknown].
  intros Htype Hnone pre m post Hinfos Hm Hpre.
  unfold findReactionTarget. fold target. rewrite Htype.
  rewrite decide_False, decide_False, decide_True by done.
  assert (∀ x, x ∈ infos s → isFileComment target x ≠ Ok true) as Hmiss.
  { intros x Hx Htrue. by apply (Hnone x Hx), isFileComment_matches. }
  assert (∀ x, x ∈ pre → isFileShare target x ≠ Ok true) as Hmiss'.
  { intros x Hx Htrue. by apply (Hpre x Hx), isFileShare_matches. }
  split.
  - intros Hcomments Hshares. unfold find at 1. rewrite find_from_none; simpl.
    + unfold find. rewrite Hinfos. rewrite find_from_first; [done| |].
      * intros y Hy. apply isFileShare_not; auto.
      * by apply isFileShare_true.
    + intros x Hx. apply isFileComment_not; auto.
  - intros Hempty. unfold find.
    destruct (find_from (isFileComment target) 0 (infos s)) as [[[j x]|]|]
      eqn:Hfirst; simpl; [| |done].
    + apply find_from_Some in Hfirst as (_ & Hj & Htrue).
      destruct (Hmiss x); [by eapply list_elem_of_lookup_2|done].
    + destruct Hempty as [(x & Hx & Hsub & Hfiles)|(x & Hx & Hsub & Hfiles)].
      * rewrite <- (app_nil_r (infos s)), find_from_faults in Hfirst;
          [done|done|].
        exists x. split; [done|]. by apply isFileComment_raises.
      * rewrite Hinfos. apply find_from_faults; [done|].
        exists x. split; [done|]. by apply isFileShare_raises.
Qed.

Lemma fallback_sample :
  findReactionTarget (timeline [share_F1; share_empty_files; comment_F1])
    (reaction_on (on_file_comment "F1" "Fc2"))
  = Ok (Some (0, share_F1)).
Proof.
  destruct (file_comment_falls_back_to_share
              (timeline [share_F1; share_empty_files; comment_F1])
              (reaction_on (on_file_comment "F1" "Fc2"))) as [H _].
  apply (H eq_refl) with (pre := []) (post := [share_empty_files; comment_F1]).
  - intros x Hx (Hsub & _ & c & Hc & Hid).
    repeat (apply elem_of_cons in Hx as [->|Hx]; [discriminate Hsub|]).
    apply list_elem_of_singleton in Hx as ->.
    injection Hc as <-. discriminate Hid.
  - reflexivity.
  - split; [reflexivity|]. by exists (sample_file "F1"), [].
  - by intros x ?%elem_of_nil.
  - intros x Hx Hsub.
    repeat (apply elem_of_cons in Hx as [->|Hx]; [discriminate Hsub|]).
    apply list_elem_of_singleton in Hx as ->. discriminate.
  - by intros x ?%elem_of_nil.
Defined.

(** C10, as stated, fails: a timeline whose only entry is a plain message
    with an empty files array violates the stated precondition, and yet the
    resolver returns for every event; for the [file] and [file_comment]
    descriptors it returns none. [files[0].id] is not read on that entry,
    whose subtype is not the one searched for. *)
Lemma empty_files_without_fault :
  ¬ Forall files_nonempty (infos (timeline [plain_empty_files]))
  ∧ findReactionTarget (timeline [plain_empty_files]) (reaction_on (on_file "F1"))
    = Ok None
  ∧ findReactionTarget (timeline [plain_empty_files])
      (reaction_on (on_file_comment "F1" "Fc1")) = Ok None
  ∧ ∀ reaction, ∃ r,
      findReactionTarget (timeline [plain_empty_files]) reaction = Ok r.
Proof.
  split_and!.
  - intros H. apply Forall_cons in H as [H _]. by apply H.
  - reflexivity.
  - reflexivity.
  - apply findReactionTarget_total. each_entry. intros [H|H]; discriminate H.
Qed.

(** C10, amended. For the descriptor variants [file] and [file_comment],
    [findReactionTarget] reads [files[0].id] of the entries it visits whose
    subtype is the one it searches for ([file_share]; [file_comment] in the
    first search of a [file_comment] lookup) and whose files field is
    non-null. It is therefore total (it returns an entry or none without
    faulting) whenever every tracked entry of subtype [file_share] or
    [file_comment] has a files list that is absent or non-empty, hence also
    whenever every tracked entry has. An entry of the searched subtype with
    an empty files array makes the lookup fault when the search reaches it,
    that is when no entry ahead of it matches. *)
Theorem resolver_safety s :
  (Forall searched_files_nonempty (infos s) →
   ∀ reaction, ∃ r, findReactionTarget s reaction = Ok r)
  ∧ (Forall files_nonempty (infos s) →
     ∀ reaction, ∃ r, findReactionTarget s reaction = Ok r)
  ∧ (∀ reaction pre m post,
       let target := Reaction.item (SlackReactionAdded.reaction reaction) in
       infos s = pre ++ m :: post →
       Raw.files (raw_of m) = Some [] →
       (Item.type target = "file"
        ∧ SlackMessage.subType (Entry.message m) = Some "file_share"
        ∧ (∀ x, x ∈ pre → ¬ file_share_of target x))
       ∨ (Item.type target = "file_comment"
          ∧ SlackMessage.subType (Entry.message m) = Some "file_comment"
          ∧ (∀ x, x ∈ pre → ¬ file_comment_of target x))
       ∨ (Item.type target = "file_comment"
          ∧ SlackMessage.subType (Entry.message m) = Some "file_share"
          ∧ (∀ x, x ∈ pre → ¬ file_share_of target x)
          ∧ (∀ x, x ∈ infos s → ¬ file_comment_of target x)) →
       findReactionTarget s reaction = TypeError).
Proof.
  split_and!; [apply findReactionTarget_total| |].
  { intros Hall. apply findReactionTarget_total.
    eapply Forall_impl; [exact Hall|]. apply files_nonempty_searched. }
  intros reaction pre m post target Hinfos Hfiles Hcases.
  assert (SlackMessage.subType (Entry.message m) = Some "file_share" →
          (∀ x, x ∈ pre → ¬ file_share_of target x) →
          find_from (isFileShare target) 0 (infos s) = TypeError) as Hshare.
  { intros Hsub Hpre. rewrite Hinfos, (cons_middle m pre post), app_assoc.
    apply find_from_faults.
    - intros x [Hx| ->%list_elem_of_singleton]%elem_of_app Htrue.
      + by apply (Hpre x Hx), isFileShare_matches.
      + by rewrite isFileShare_raises in Htrue.
    - exists m. rewrite elem_of_app, list_elem_of_singleton.
      split; [by right|by apply isFileShare_raises]. }
  unfold findReactionTarget. fold target.
  destruct Hcases as [(Htype & Hsub & Hpre)|[(Htype & Hsub & Hpre)|
                      (Htype & Hsub & Hpre & Hnone)]]; rewrite Htype.
  - rewrite decide_False, decide_True by done. by apply Hshare.
  - rewrite decide_False, decide_False, decide_True by done.
    unfold find. rewrite Hinfos, (cons_middle m pre post), app_assoc.
    rewrite find_from_faults; [done| |].
    + intros x [Hx| ->%list_elem_of_singleton]%elem_of_app Htrue.
      * by apply (Hpre x Hx), isFileComment_matches.
      * by rewrite isFileComment_raises in Htrue.
    + exists m. rewrite elem_of_app, list_elem_of_singleton.
      split; [by right|by apply isFileComment_raises].
  - rewrite decide_False, decide_False, decide_True by done. unfold find.
    destruct (find_from (isFileComment target) 0 (infos s)) as [[[j x]|]|]
      eqn:Hfirst; simpl; [| |done].
    + apply find_from_Some in Hfirst as (_ & Hj & Htrue).
      destruct (Hnone x); [by eapply list_elem_of_lookup_2|].
      by apply isFileComment_matches.
    + by apply Hshare.
Qed.

Lemma safe_and_faulting_samples :
  (∀ reaction, ∃ r,
     findReactionTarget (timeline [plain_entry; share_F1]) reaction = Ok r)
  ∧ findReactionTarget (timeline [plain_entry; share_empty_files; share_F1])
      (reaction_on (on_file "F1")) = TypeError.
Proof.
  split.
  - apply (proj1 (resolver_safety (timeline [plain_entry; share_F1]))).
    each_entry; intros _; discriminate.
  - apply (proj2 (proj2 (resolver_safety
                    (timeline [plain_entry; share_empty_files; share_F1]))))
      with (pre := [plain_entry]) (m := share_empty_files) (post := [share_F1]).
    + reflexivity.
    + reflexivity.
    + left. split_and!; [reflexivity..|].
      intros x ->%list_elem_of_singleton (Hsub & _). discriminate Hsub.
Defined.

(** * The dispatcher: [onReceiveMessage] *)

Section Dispatcher.
Implicit Types (message : SlackMessage.t) (parser : SlackParser) (client : cref)
  (s : SlackService.t).

Lemma isEdited_spec message em m :
  Raw.message (SlackMessage.rawMessage message) = Some em →
  isEdited message m = Ok (bool_decide (matches_edit message em m)).
Proof.
  intros Hem. unfold isEdited, embedded, matches_edit. rewrite Hem.
  fold (raw_of m). simpl. repeat case_bool_decide; simpl; try done; tauto.
Qed.

Lemma shown_edited em m :
  shown (Entry.message m) em (Entry.set_edited true m) = edit em m.
Proof. unfold shown. simpl. by rewrite decide_True. Qed.

Lemma shown_elsewhere (object : SlackMessage.t) em (l : list Entry.t) :
  (∀ x, x ∈ l →
        SlackMessage.ref (Entry.message x) ≠ SlackMessage.ref object) →
  shown object em <$> l = l.
Proof.
  intros Hother. rewrite <- (list_fmap_id l) at 2. apply list_fmap_ext.
  intros i x Hx. unfold shown. simpl. rewrite decide_False; [done|].
  apply Hother. by eapply list_elem_of_lookup_2.
Qed.

Lemma changeMessage_matched message parser client s em pre m post :
  Raw.message (SlackMessage.rawMessage message) = Some em →
  infos s = pre ++ m :: post →
  matches_edit message em m →
  (∀ x, x ∈ pre → ¬ matches_edit message em x) →
  changeMessage message parser client s
  = (Ok (), notify (set_infos
                      ((shown (Entry.message m) em <$> pre)
                       ++ edit em m :: (shown (Entry.message m) em <$> post))
                      s)).
Proof.
  intros Hem Hinfos Hm Hpre. unfold changeMessage, bind, get, lift; simpl.
  unfold find. rewrite Hinfos, find_from_first; simpl.
  - unfold embedded. rewrite Hem. unfold modify, emit; simpl.
    rewrite insert_app_r_alt, Nat.sub_diag by lia. simpl.
    by rewrite fmap_app, fmap_cons, shown_edited.
  - intros y Hy. rewrite (isEdited_spec _ em) by done.
    rewrite bool_decide_false; [done|by apply Hpre].
  - rewrite (isEdited_spec _ em) by done. by rewrite bool_decide_true.
Qed.

Lemma changeMessage_unmatched message parser client s em :
  Raw.message (SlackMessage.rawMessage message) = Some em →
  (∀ x, x ∈ infos s → ¬ matches_edit message em x) →
  changeMessage message parser client s = (Ok (), s).
Proof.
  intros Hem Hnone. unfold changeMessage, bind, get, lift; simpl.
  unfold find. rewrite find_from_none; [done|].
  intros y Hy. rewrite (isEdited_spec _ em) by done.
  rewrite bool_decide_false; [done|by apply Hnone].
Qed.

Lemma onReceiveMessage_message_changed message parser client s :
  Raw.subtype (SlackMessage.rawMessage message) = Some "message_changed" →
  onReceiveMessage message parser client s
  = match changeMessage message parser client s with
    | (Ok _, s') => (Ok Completed, notify s')
    | (TypeError, s') => (TypeError, s')
    end.
Proof.
  intros Hsub. unfold onReceiveMessage. rewrite Hsub.
  rewrite decide_False, decide_True by done. unfold bind at 1 2.
  by destruct (changeMessage message parser client s) as [[[]|] s'].
Qed.

Lemma addMessage_infos message parser client s body :
  SlackMessage.message message = Some body →
  infos (addMessage message parser client s).2
  = Entry.new (next_oid s) message parser
      (heap s !! client ≫= SlackClient.attachmentTextParser) :: infos s
  ∧ next_oid (addMessage message parser client s).2 = S (next_oid s).
Proof.
  intros Hbody. unfold addMessage. rewrite Hbody.
  unfold bind, get, modify, lift, call, emit, ret; simpl.
  destruct (Body.files body) as [[|f fs]|]; simpl; [done| |done].
  destruct (includes "image" (File.mimetype f)); simpl; [|done].
  by destruct (getMaximumThumbnail message).
Qed.

Lemma addMessage_resume_infos entry image message client s :
  infos (addMessage_resume entry image message client s).2
  = (λ m, if decide (Entry.oid m = entry) then Entry.set_image image m else m)
      <$> infos s.
Proof. reflexivity. Qed.
End Dispatcher.

(** C7. For every message event with subtype [message_deleted] carrying
    [deleted_ts = T], the handling removes exactly the timeline entries whose
    raw-message timestamp equals [T]; every other entry stays, the same
    object with the same fields, in the same relative order. *)
Theorem deleted_event_removes_exactly message parser client s T :
  Raw.subtype (SlackMessage.rawMessage message) = Some "message_deleted" →
  Raw.deleted_ts (SlackMessage.rawMessage message) = Some T →
  ∃ s', onReceiveMessage message parser client s = (Ok Completed, s')
        ∧ infos s' = filter (λ m, Raw.ts (raw_of m) ≠ T) (infos s)
        ∧ (∀ m, m ∈ infos s' ↔ m ∈ infos s ∧ Raw.ts (raw_of m) ≠ T)
        ∧ infos s' `sublist_of` infos s
        ∧ clients s' = clients s ∧ heap s' = heap s.
Proof.
  intros Hsub Hts. eexists. split.
  - unfold onReceiveMessage. rewrite Hsub. rewrite decide_True by done.
    unfold removeDeletedMessage, bind, modify, emit, ret. simpl. reflexivity.
  - simpl. rewrite Hts.
    assert (filter (λ m, Some T ≠ Some (Raw.ts (SlackMessage.rawMessage
                                               (Entry.message m))))
              (infos s) = filter (λ m, Raw.ts (raw_of m) ≠ T) (infos s)) as ->.
    { apply list_filter_iff. intros m. unfold raw_of.
      split; intros H ?; apply H; congruence. }
    split_and!; [done| |apply sublist_filter|done..].
    intros m. rewrite list_elem_of_filter. tauto.
Qed.

Lemma delete_sample :
  ∃ s', onReceiveMessage (deleted_event "100.5") (fullParser 0) 0
          (timeline [share_F1; plain_entry; share_empty_files])
        = (Ok Completed, s')
        ∧ infos s' = [share_F1; share_empty_files].
Proof.
  destruct (deleted_event_removes_exactly (deleted_event "100.5") (fullParser 0) 0
              (timeline [share_F1; plain_entry; share_empty_files]) "100.5"
              eq_refl eq_refl) as (s' & Hrun & Hinfos & _).
  exists s'. split; [exact Hrun|]. rewrite Hinfos. reflexivity.
Defined.

(** C6. [addMessage] places every entry it inserts at the head of the
    timeline: from any timeline, inserting E1, then E2, then E3 gives E3, E2,
    E1 ahead of the prior contents. The late arrival of an image changes
    neither the entries nor their order. *)
Theorem addMessage_most_recent_first :
  (∀ message parser client s body,
     SlackMessage.message message = Some body →
     ∃ e, infos (addMessage message parser client s).2 = e :: infos s
          ∧ Entry.message e = message ∧ Entry.oid e = next_oid s)
  ∧ (∀ m1 m2 m3 p1 p2 p3 c1 c2 c3 s,
       is_Some (SlackMessage.message m1) →
       is_Some (SlackMessage.message m2) →
       is_Some (SlackMessage.message m3) →
       let s1 := (addMessage m1 p1 c1 s).2 in
       let s2 := (addMessage m2 p2 c2 s1).2 in
       let s3 := (addMessage m3 p3 c3 s2).2 in
       ∃ e1 e2 e3,
         infos s3 = [e3; e2; e1] ++ infos s
         ∧ Entry.message e1 = m1 ∧ Entry.message e2 = m2 ∧ Entry.message e3 = m3
         ∧ Entry.oid e1 = next_oid s ∧ Entry.oid e2 = S (next_oid s)
         ∧ Entry.oid e3 = S (S (next_oid s)))
  ∧ (∀ entry image message client s,
       let s' := (addMessage_resume entry image message client s).2 in
       Entry.oid <$> infos s' = Entry.oid <$> infos s
       ∧ Entry.message <$> infos s' = Entry.message <$> infos s).
Proof.
  split_and!.
  - intros message parser client s body Hbody.
    destruct (addMessage_infos message parser client s body Hbody) as [-> _].
    by eexists.
  - intros m1 m2 m3 p1 p2 p3 c1 c2 c3 s [b1 H1] [b2 H2] [b3 H3] s1 s2 s3.
    destruct (addMessage_infos m1 p1 c1 s b1 H1) as [Hi1 Hn1].
    destruct (addMessage_infos m2 p2 c2 s1 b2 H2) as [Hi2 Hn2].
    destruct (addMessage_infos m3 p3 c3 s2 b3 H3) as [Hi3 Hn3].
    fold s1 in Hi1, Hn1. fold s2 in Hi2, Hn2. fold s3 in Hi3.
    eexists _, _, _. rewrite Hi3, Hi2, Hi1. split; [reflexivity|].
    simpl. rewrite Hn2, Hn1. done.
  - intros entry image message client s s'. unfold s'.
    rewrite addMessage_resume_infos, <- !list_fmap_compose.
    split; apply list_fmap_ext; intros i m _; simpl; by case_decide.
Qed.

Lemma three_inserts_sample :
  ∃ e1 e2 e3,
    infos (addMessage (file_message 13 "3" None None None) (fullParser 0) 0
             (addMessage (file_message 12 "2" None None None) (fullParser 0) 0
                (addMessage (file_message 11 "1" None None None) (fullParser 0) 0
                   (timeline [plain_entry])).2).2).2
    = [e3; e2; e1] ++ [plain_entry]
    ∧ Entry.message e1 = file_message 11 "1" None None None
    ∧ Entry.message e2 = file_message 12 "2" None None None
    ∧ Entry.message e3 = file_message 13 "3" None None None.
Proof.
  destruct (proj1 (proj2 addMessage_most_recent_first)
              (file_message 11 "1" None None None) (file_message 12 "2" None None None)
              (file_message 13 "3" None None None)
              (fullParser 0) (fullParser 0) (fullParser 0) 0 0 0
              (timeline [plain_entry]))
    as (e1 & e2 & e3 & H & H1 & H2 & H3 & _); [by eexists..|].
  exists e1, e2, e3. split_and!; [exact H|exact H1|exact H2|exact H3].
Defined.

(** C2, as stated, fails: no entry of the timeline has timestamp 999.9 in
    channel C1, the [message_changed] event for that message leaves the
    timeline as it is, and yet one change notification is emitted for the
    event. *)
Lemma unmatched_edit_is_notified :
  (∀ m, m ∈ infos (timeline [plain_entry]) →
        ¬ (Raw.ts (raw_of m) = "999.9" ∧ Raw.channel (raw_of m) = "C1"))
  ∧ infos (onReceiveMessage (changed_event "999.9" "edited") (fullParser 0) 0
             (timeline [plain_entry])).2 = infos (timeline [plain_entry])
  ∧ onChange (timeline [plain_entry]) = 0
  ∧ onChange (onReceiveMessage (changed_event "999.9" "edited") (fullParser 0) 0
                (timeline [plain_entry])).2 = 1.
Proof.
  split_and!; [|reflexivity..].
  intros m ->%list_elem_of_singleton [H _]. discriminate H.
Qed.

(** C2, amended. For every inbound message event with subtype
    [message_changed] that carries an embedded message: if some timeline
    entry matches the timestamp of the embedded message and the channel of
    the event, the first such entry is marked edited and the text and
    attachments of its message are replaced; it keeps its place, identity,
    image and reactions. The replacement is made to the message object: an
    other entry shows it exactly when it holds the same object (one message
    delivered to two subscriptions of its connection), it is not marked
    edited, and an entry that holds another object is as it was; when no
    other entry holds the object, the entry found is the only one that
    changes. Two change notifications are emitted (one by [changeMessage],
    one by the dispatcher). Otherwise the timeline is unchanged,
    [changeMessage] emits no notification, and the dispatcher still emits
    its one notification for the event. *)
Theorem edit_event_handling message parser client s em :
  Raw.subtype (SlackMessage.rawMessage message) = Some "message_changed" →
  Raw.message (SlackMessage.rawMessage message) = Some em →
  (∀ pre m post,
     infos s = pre ++ m :: post →
     matches_edit message em m →
     (∀ x, x ∈ pre → ¬ matches_edit message em x) →
     ∃ s', onReceiveMessage message parser client s = (Ok Completed, s')
           ∧ infos s' = (shown (Entry.message m) em <$> pre)
                        ++ edit em m :: (shown (Entry.message m) em <$> post)
           ∧ ((∀ x, x ∈ pre ++ post →
                    SlackMessage.ref (Entry.message x)
                    ≠ SlackMessage.ref (Entry.message m)) →
              infos s' = pre ++ edit em m :: post)
           ∧ Entry.edited (edit em m) = true
           ∧ SlackMessage.text (Entry.message (edit em m)) = Embedded.text em
           ∧ Raw.attachments (raw_of (edit em m)) = Embedded.attachments em
           ∧ Entry.oid (edit em m) = Entry.oid m
           ∧ Entry.reactions (edit em m) = Entry.reactions m
           ∧ Entry.image (edit em m) = Entry.image m
           ∧ (∀ x, SlackMessage.ref (Entry.message x)
                   = SlackMessage.ref (Entry.message m) →
                   SlackMessage.text (Entry.message (shown (Entry.message m) em x))
                   = Embedded.text em
                   ∧ Raw.attachments (raw_of (shown (Entry.message m) em x))
                     = Embedded.attachments em
                   ∧ Entry.edited (shown (Entry.message m) em x) = Entry.edited x
                   ∧ Entry.oid (shown (Entry.message m) em x) = Entry.oid x
                   ∧ Entry.reactions (shown (Entry.message m) em x)
                     = Entry.reactions x
                   ∧ Entry.image (shown (Entry.message m) em x) = Entry.image x)
           ∧ (∀ x, SlackMessage.ref (Entry.message x)
                   ≠ SlackMessage.ref (Entry.message m) →
                   shown (Entry.message m) em x = x)
           ∧ onChange s' = S (S (onChange s)))
  ∧ ((∀ x, x ∈ infos s → ¬ matches_edit message em x) →
     changeMessage message parser client s = (Ok (), s)
     ∧ onReceiveMessage message parser client s = (Ok Completed, notify s)
     ∧ infos (notify s) = infos s
     ∧ onChange (notify s) = S (onChange s)).
Proof.
  intros Hsub Hem. split.
  - intros pre m post Hinfos Hm Hpre. eexists. split.
    + rewrite onReceiveMessage_message_changed by done.
      by rewrite (changeMessage_matched _ _ _ _ em pre m post).
    + simpl. split; [done|]. split.
      { intros Hother. rewrite !shown_elsewhere; [done|..];
          intros x Hx; apply Hother; rewrite elem_of_app; auto. }
      do 6 (split; [done|]). split; [|split; [|done]].
      * intros x Hx. unfold shown. by rewrite decide_True.
      * intros x Hx. unfold shown. by rewrite decide_False.
  - intros Hnone. rewrite onReceiveMessage_message_changed by done.
    by rewrite (changeMessage_unmatched _ _ _ _ em).
Qed.

Lemma edit_sample :
  (∃ s', onReceiveMessage (changed_event "100.5" "edited") (fullParser 0) 0
           (timeline [share_F1; plain_entry]) = (Ok Completed, s')
         ∧ infos s' = [share_F1] ++
             edit {| Embedded.ts := "100.5"; Embedded.text := "edited";
                     Embedded.attachments := None |} plain_entry :: []
         ∧ onChange s' = 2)
  ∧ ∃ s', onReceiveMessage (changed_event "100.5" "edited") (fullParser 0) 0
            (timeline [share_F1; plain_twin; plain_entry]) = (Ok Completed, s')
          ∧ Entry.edited <$> infos s' = [false; true; false]
          ∧ SlackMessage.text ∘ Entry.message <$> infos s'
            = ["hello"; "edited"; "edited"].
Proof.
  split.
  - destruct (proj1 (edit_event_handling (changed_event "100.5" "edited")
                (fullParser 0) 0 (timeline [share_F1; plain_entry]) _
                eq_refl eq_refl) [share_F1] plain_entry [])
      as (s' & H1 & _ & H2 & _ & _ & _ & _ & _ & _ & _ & _ & H3).
    + reflexivity.
    + split; reflexivity.
    + intros x ->%list_elem_of_singleton [H _]. discriminate H.
    + exists s'. split_and!; [exact H1| |exact H3]. apply H2.
      intros x ->%list_elem_of_singleton. discriminate.
  - destruct (proj1 (edit_event_handling (changed_event "100.5" "edited")
                (fullParser 0) 0 (timeline [share_F1; plain_twin; plain_entry]) _
                eq_refl eq_refl) [share_F1] plain_twin [plain_entry])
      as (s' & H1 & H2 & _).
    + reflexivity.
    + split; reflexivity.
    + intros x ->%list_elem_of_singleton [H _]. discriminate H.
    + exists s'. split; [exact H1|]. rewrite H2. split; reflexivity.
Defined.

(** One message, two entries. After the token A was configured once and then
    twice, the message stream of connection 0 has two subscriptions; a
    message of that connection is handed to both, and each builds an entry
    from the same object. An edit of the message marks the first entry
    found, and its text shows in both. *)
Example edit_through_shared_message :
  let m := file_message 0 "100.5" None None None in
  let s1 := (onReceiveMessage m (fullParser 0) 0 once_then_twice_A).2 in
  let s2 := (onReceiveMessage m (fullParser 0) 0 s1).2 in
  let s3 := (onReceiveMessage (changed_event "100.5" "edited") (fullParser 0) 0
               s2).2 in
  clients once_then_twice_A = [0; 0]
  ∧ subscription once_then_twice_A
    = bundle 0 (fullParser 0) ++ bundle 0 (fullParser 0)
  ∧ Entry.oid <$> infos s2 = [1; 0]
  ∧ Entry.message <$> infos s2 = [m; m]
  ∧ Entry.oid <$> infos s3 = [1; 0]
  ∧ Entry.edited <$> infos s3 = [true; false]
  ∧ SlackMessage.text ∘ Entry.message <$> infos s3 = ["edited"; "edited"].
Proof. by vm_compute. Qed.

(** * The reconciler: [refresh] *)

Section Reconciler.
Implicit Types (h : gmap cref SlackClient.t) (p : Pass) (c : cref)
  (k t : string).

Lemma build_cache_snoc h cs c :
  build_cache h (cs ++ [c])
  = match h !! c with
    | Some x => cache_set (SlackClient.token x) c (build_cache h cs)
    | None => build_cache h cs
    end.
Proof. unfold build_cache. by rewrite foldl_app. Qed.

(** What the cache holds under a key is an active connection with that
    token, not yet marked as reused. *)
Lemma build_cache_sound h cs k c b :
  (build_cache h cs).1 !! k = Some (c, b) →
  b = false ∧ c ∈ cs ∧ tokenOf h c = Some k.
Proof.
  induction cs as [|c' cs IH] using rev_ind; [done|].
  rewrite build_cache_snoc. unfold tokenOf.
  destruct (h !! c') as [x|] eqn:Hc'.
  - unfold cache_set. case_decide as Hp; simpl.
    + intros H. apply IH in H as (? & ? & ?). rewrite elem_of_app. auto.
    + destruct (decide (SlackClient.token x = k)) as [<-|Hne].
      * rewrite lookup_insert_eq. intros [= <- <-].
        rewrite elem_of_app, list_elem_of_singleton, Hc'. auto.
      * rewrite lookup_insert_ne by done. intros H.
        apply IH in H as (? & ? & ?). rewrite elem_of_app. auto.
  - intros H. apply IH in H as (? & ? & ?). rewrite elem_of_app. auto.
Qed.

(** The prototype of the cache is replaced only for a connection whose
    token is [__proto__]. *)
Lemma build_cache_proto h cs :
  (∀ c, c ∈ cs → tokenOf h c ≠ Some "__proto__") →
  (build_cache h cs).2 = None.
Proof.
  induction cs as [|c' cs IH] using rev_ind; [done|]. intros Hall.
  rewrite build_cache_snoc.
  assert ((build_cache h cs).2 = None) as IH'.
  { apply IH. intros c Hc. apply Hall. rewrite elem_of_app. by left. }
  destruct (h !! c') as [x|] eqn:Hc'; [|done].
  unfold cache_set. case_decide as Hp; [|done].
  destruct (Hall c').
  - rewrite elem_of_app, list_elem_of_singleton. by right.
  - unfold tokenOf. by rewrite Hc', <- Hp.
Qed.

(** The token of every active connection is a key of the cache. *)
Lemma build_cache_complete h cs c x :
  c ∈ cs → h !! c = Some x → SlackClient.token x ≠ "__proto__" →
  ∃ c', (build_cache h cs).1 !! SlackClient.token x = Some (c', false).
Proof.
  induction cs as [|c' cs IH] using rev_ind; [by intros ?%elem_of_nil|].
  rewrite build_cache_snoc, elem_of_app, list_elem_of_singleton.
  intros Hin Hc Hx.
  destruct (h !! c') as [x'|] eqn:Hc'.
  - unfold cache_set. case_decide as Hp; simpl.
    + destruct Hin as [Hin| ->]; [by apply IH|congruence].
    + destruct (decide (SlackClient.token x' = SlackClient.token x)) as [->|Hne].
      * rewrite lookup_insert_eq. by eexists.
      * rewrite lookup_insert_ne by done.
        destruct Hin as [Hin| ->]; [by apply IH|congruence].
  - destruct Hin as [Hin| ->]; [by apply IH|congruence].
Qed.

(** A read of the cache whose prototype is [Object.prototype]. *)
Lemma cache_get_Pair p t c b :
  proto p = None → cache_get p t = Pair c b →
  t ≠ "__proto__" ∧ cache p !! t = Some (c, b).
Proof.
  intros Hproto. unfold cache_get. rewrite Hproto.
  case_decide as Hp; [done|].
  destruct (cache p !! t) as [[c' b']|]; [by intros [= -> ->]|].
  by destruct (_ || _).
Qed.

Lemma cache_get_Undefined p t :
  proto p = None → cache_get p t = Undefined →
  t ≠ "__proto__" ∧ cache p !! t = None.
Proof.
  intros Hproto. unfold cache_get. rewrite Hproto.
  case_decide as Hp; [done|]. by destruct (cache p !! t) as [[c' b']|].
Qed.

Lemma cache_get_plain p t :
  proto p = None → t ∉ Object_prototype → (inherited_1 p = true → t ≠ "1") →
  cache_get p t ≠ Foreign.
Proof.
  intros Hproto Hown H1. unfold cache_get. rewrite Hproto.
  case_decide as Hp.
  { subst t. destruct Hown. by apply (bool_decide_unpack _). }
  destruct (cache p !! t) as [[c' b']|]; [done|].
  rewrite bool_decide_false by done. simpl.
  destruct (inherited_1 p); simpl; [|done].
  by rewrite bool_decide_false by auto.
Qed.

Lemma cache_get_inherited p t :
  proto p = None → t ∈ Object_prototype → cache p !! t = None →
  cache_get p t = Foreign.
Proof.
  intros Hproto Hin Hnone. unfold cache_get. rewrite Hproto, Hnone.
  case_decide; [done|]. by rewrite bool_decide_true.
Qed.

(** One token: what [connect] does when it returns. *)
Lemma connect_Ok t p c p' :
  proto p = None → connect t p = (Ok c, p') →
  t ≠ "__proto__" ∧ proto p' = None ∧ inherited_1 p' = inherited_1 p
  ∧ subscribed p' = subscribed p ++ bundle c (fullParser c)
  ∧ (∀ k, cache p' !! k
          = (λ cb : cref * bool, (cb.1, bool_decide (k = t) || cb.2))
              <$> cache p !! k)
  ∧ (∀ c', objects p !! c' = None → c' ≠ c → objects p' !! c' = None)
  ∧ serves p p' t c.
Proof.
  intros Hproto. unfold connect, serves.
  destruct (cache_get p t) as [c0 b0| |] eqn:Hget; [| done |].
  - apply cache_get_Pair in Hget as [Hne Ht]; [|done].
    intros [= <- <-]. unfold mark. rewrite decide_False by done. simpl.
    split_and!; [done..| | |].
    + intros k. destruct (decide (k = t)) as [->|Hk].
      * by rewrite lookup_insert_eq, Ht, bool_decide_true.
      * rewrite lookup_insert_ne, bool_decide_false by done.
        by destruct (cache p !! k) as [[??]|].
    + intros c' Hx _. rewrite lookup_alter. case_decide; subst; by rewrite Hx.
    + left. by eexists.
  - apply cache_get_Undefined in Hget as [Hne Ht]; [|done].
    intros [= <- <-]. simpl.
    set (c := fresh (dom (objects p))).
    assert (objects p !! c = None) as Hfresh.
    { apply not_elem_of_dom. apply is_fresh. }
    split_and!; [done..| | |].
    + intros k. destruct (decide (k = t)) as [->|Hk].
      * by rewrite Ht.
      * rewrite bool_decide_false by done.
        by destruct (cache p !! k) as [[??]|].
    + intros c' Hx Hne'. by rewrite lookup_alter_ne, lookup_insert_ne.
    + right. split_and!; [done..|].
      rewrite lookup_alter_eq, lookup_insert_eq. simpl. by eexists.
Qed.

(** Whatever its outcome, [connect] keeps every object, with its token and
    its counts of calls. *)
Lemma connect_kept t p c x :
  objects p !! c = Some x →
  ∃ x', objects (connect t p).2 !! c = Some x' ∧ same_lifecycle x x'.
Proof.
  intros Hx. unfold connect.
  destruct (cache_get p t) as [c0 b0| |]; simpl.
  - unfold mark. case_decide; simpl; rewrite lookup_alter;
      case_decide; subst; rewrite Hx; simpl; by eexists.
  - by eexists.
  - assert (c ≠ fresh (dom (objects p))) as Hne.
    { intros ->. pose proof (is_fresh (dom (objects p))) as Hf.
      apply not_elem_of_dom in Hf. congruence. }
    rewrite lookup_alter_ne, lookup_insert_ne by done. by eexists.
Qed.

Lemma connect_plain t p :
  proto p = None → t ∉ Object_prototype → (inherited_1 p = true → t ≠ "1") →
  ∃ c p', connect t p = (Ok c, p').
Proof.
  intros Hproto Hown H1. pose proof (cache_get_plain p t Hproto Hown H1) as Hget.
  unfold connect. destruct (cache_get p t); [by eexists _, _|done|by eexists _, _].
Qed.

Lemma connect_all_cons t ts p :
  connect_all (t :: ts) p
  = match connect t p with
    | (Ok c, p') =>
        match connect_all ts p' with
        | (Ok cs, p'') => (Ok (c :: cs), p'')
        | (TypeError, p'') => (TypeError, p'')
        end
    | (TypeError, p') => (TypeError, p')
    end.
Proof. reflexivity. Qed.

Lemma same_lifecycle_trans x y z :
  same_lifecycle x y → same_lifecycle y z → same_lifecycle x z.
Proof. unfold same_lifecycle. intros (?&?&?) (?&?&?). split_and!; congruence. Qed.

Lemma connect_all_kept tokens p c x :
  objects p !! c = Some x →
  ∃ x', objects (connect_all tokens p).2 !! c = Some x' ∧ same_lifecycle x x'.
Proof.
  revert p x. induction tokens as [|t ts IH]; intros p x Hx.
  - exists x. by split.
  - rewrite connect_all_cons.
    destruct (connect_kept t p c x Hx) as (x1 & Hx1 & Hl1).
    destruct (connect t p) as [[c1|] p1]; simpl in Hx1; [|by exists x1].
    destruct (IH p1 x1 Hx1) as (x' & Hx' & Hl').
    destruct (connect_all ts p1) as [[cs|] p2]; simpl in *;
      exists x'; split; try done; by eapply same_lifecycle_trans.
Qed.

(** The pass, when it reaches its end: a cache entry is marked exactly when
    its key is one of the tokens, or was marked before; each connection
    served gets its bundle; no other object is built; each token is
    served. *)
Lemma connect_all_Ok tokens p cs p' :
  proto p = None → connect_all tokens p = (Ok cs, p') →
  ("__proto__" ∉ tokens) ∧ proto p' = None ∧ inherited_1 p' = inherited_1 p
  ∧ subscribed p' = subscribed p ++ (cs ≫= λ c, bundle c (fullParser c))
  ∧ (∀ k, cache p' !! k
          = (λ cb : cref * bool, (cb.1, bool_decide (k ∈ tokens) || cb.2))
              <$> cache p !! k)
  ∧ (∀ c, objects p !! c = None → c ∉ cs → objects p' !! c = None)
  ∧ Forall2 (serves p p') tokens cs.
Proof.
  revert p cs. induction tokens as [|t ts IH]; intros p cs Hproto.
  - intros [= <- <-]. split_and!; [by intros ?%elem_of_nil|done|done|..].
    + simpl. by rewrite app_nil_r.
    + intros k. by destruct (cache p !! k) as [[c b]|].
    + done.
    + constructor.
  - rewrite connect_all_cons.
    destruct (connect t p) as [[c1|] p1] eqn:Hone; [|done].
    destruct (connect_all ts p1) as [[cs1|] p2] eqn:Hrest; [|done].
    intros [= <- <-].
    destruct (connect_Ok t p c1 p1 Hproto Hone)
      as (Hne & Hproto1 & Hinh1 & Hsub1 & Hcache1 & Hnone1 & Hserve1).
    destruct (IH p1 cs1 Hproto1 Hrest)
      as (Hnot & Hproto2 & Hinh2 & Hsub2 & Hcache2 & Hnone2 & Hall).
    split_and!.
    + intros [?|?]%elem_of_cons; [congruence|done].
    + done.
    + congruence.
    + rewrite Hsub2, Hsub1, bind_cons. by rewrite <- app_assoc.
    + intros k. rewrite Hcache2, Hcache1.
      destruct (cache p !! k) as [[c b]|]; simpl; [|done].
      rewrite orb_assoc, <- bool_decide_or.
      rewrite (bool_decide_ext (k ∈ ts ∨ k = t) (k ∈ t :: ts)); [done|].
      rewrite elem_of_cons. tauto.
    + intros c Hc [Hne1 Hnot1]%not_elem_of_cons. apply Hnone2; [|done].
      by apply Hnone1.
    + assert (∀ c x, objects p1 !! c = Some x →
                ∃ x', objects p2 !! c = Some x' ∧ same_lifecycle x x')
        as Hkeep2.
      { intros c x Hx. pose proof (connect_all_kept ts p1 c x Hx) as H.
        by rewrite Hrest in H. }
      assert (∀ c x, objects p !! c = Some x →
                ∃ x', objects p1 !! c = Some x' ∧ same_lifecycle x x')
        as Hkeep1.
      { intros c x Hx. pose proof (connect_kept t p c x Hx) as H.
        by rewrite Hone in H. }
      constructor.
      * destruct Hserve1 as [?|(Ht & Hc & x1 & Hx1 & Htok & Hst & Hsp)];
          [by left|].
        right. split_and!; [done..|].
        destruct (Hkeep2 c1 x1 Hx1) as (x' & Hx' & Htok' & Hst' & Hsp').
        exists x'.
        split_and!; [done|by rewrite Htok'|by rewrite Hst'|by rewrite Hsp'].
      * eapply Forall2_impl; [exact Hall|]. intros t' c' Hs.
        destruct Hs as [[b Hb]|(Ht' & Hc' & Hnew)].
        -- left. rewrite Hcache1 in Hb.
           destruct (cache p !! t') as [[c0 b0]|]; simplify_eq/=. by eexists.
        -- right. rewrite Hcache1 in Ht'. split_and!; [| |done].
           ++ by destruct (cache p !! t').
           ++ destruct (objects p !! c') as [x|] eqn:Hx; [|done].
              destruct (Hkeep1 c' x Hx) as (x1 & Hx1 & _). congruence.
Qed.

Lemma connect_all_plain tokens p :
  proto p = None →
  Forall (λ t, (t ∉ Object_prototype) ∧ (inherited_1 p = true → t ≠ "1"))
    tokens →
  ∃ cs p', connect_all tokens p = (Ok cs, p').
Proof.
  revert p. induction tokens as [|t ts IH]; intros p Hproto Hall.
  - by eexists _, _.
  - apply Forall_cons in Hall as [[Hown H1] Hall].
    destruct (connect_plain t p Hproto Hown H1) as (c & p1 & Hone).
    destruct (connect_Ok t p c p1 Hproto Hone) as (_ & Hproto1 & Hinh1 & _).
    destruct (IH p1 Hproto1) as (cs & p2 & Hrest).
    { by rewrite Hinh1. }
    rewrite connect_all_cons, Hone, Hrest. by eexists _, _.
Qed.

(** A token that names a property of [Object.prototype] is only served
    when a connection is cached under it; otherwise the callback raises. *)
Lemma connect_inherited t p c p' :
  proto p = None → connect t p = (Ok c, p') → t ∈ Object_prototype →
  is_Some (cache p !! t).
Proof.
  intros Hproto Hone Hin. destruct (cache p !! t) eqn:Ht; [done|].
  unfold connect in Hone. by rewrite cache_get_inherited in Hone.
Qed.

Lemma connect_raises t p :
  proto p = None → t ∈ Object_prototype → cache p !! t = None →
  connect t p = (TypeError, taint t p).
Proof. intros ???. unfold connect. by rewrite cache_get_inherited. Qed.

Lemma connect_all_inherited tokens p cs p' t :
  proto p = None → connect_all tokens p = (Ok cs, p') →
  t ∈ tokens → t ∈ Object_prototype → is_Some (cache p !! t).
Proof.
  revert p cs p'. induction tokens as [|t' ts IH]; intros p cs p' Hproto.
  { by intros _ ?%elem_of_nil. }
  rewrite connect_all_cons.
  destruct (connect t' p) as [[c1|] p1] eqn:Hone; [|done].
  destruct (connect_all ts p1) as [[cs1|] p2] eqn:Hrest; [|done].
  intros _ [->|Hin]%elem_of_cons Hinh; [by eapply connect_inherited|].
  destruct (connect_Ok t' p c1 p1 Hproto Hone)
    as (_ & Hproto1 & _ & _ & Hcache1 & _).
  destruct (IH p1 cs1 p2 Hproto1 Hrest Hin Hinh) as [cb Hcb].
  rewrite Hcache1 in Hcb. by destruct (cache p !! t).
Qed.

Lemma connect_all_app l1 l2 p :
  connect_all (l1 ++ l2) p
  = match connect_all l1 p with
    | (Ok cs1, p1) =>
        match connect_all l2 p1 with
        | (Ok cs2, p2) => (Ok (cs1 ++ cs2), p2)
        | (TypeError, p2) => (TypeError, p2)
        end
    | (TypeError, p1) => (TypeError, p1)
    end.
Proof.
  revert p. induction l1 as [|t l1 IH]; intros p.
  - simpl. by destruct (connect_all l2 p) as [[?|] ?].
  - rewrite <- app_comm_cons, !connect_all_cons.
    destruct (connect t p) as [[c|] p1]; [|done]. rewrite IH.
    destruct (connect_all l1 p1) as [[cs1|] p2]; [|done].
    by destruct (connect_all l2 p2) as [[cs2|] p3].
Qed.

(** The last loop, seen from one connection [c]. *)
Lemma stops_none (l : list (string * (cref * bool))) h c :
  (∀ kv, kv ∈ l → kv.2.1 = c → kv.2.2 = true) →
  foldl (λ h (kv : string * (cref * bool)),
           if kv.2.2 then h else alter SlackClient.stop kv.2.1 h) h l !! c
  = h !! c.
Proof.
  revert h. induction l as [|[k [c' b]] l IH]; intros h Hall; [done|]. simpl.
  rewrite IH by (intros kv Hkv; apply Hall; by right).
  destruct b; [done|]. apply lookup_alter_ne. intros ->.
  by specialize (Hall (k, (c, false)) ltac:(left) eq_refl).
Qed.

Lemma stops_once (l1 l2 : list (string * (cref * bool))) h c k :
  (∀ kv, kv ∈ l1 ++ l2 → kv.2.1 ≠ c) →
  foldl (λ h (kv : string * (cref * bool)),
           if kv.2.2 then h else alter SlackClient.stop kv.2.1 h) h
    (l1 ++ (k, (c, false)) :: l2) !! c
  = SlackClient.stop <$> h !! c.
Proof.
  intros Hother. rewrite foldl_app. simpl. rewrite stops_none.
  - rewrite lookup_alter_eq. f_equal. apply stops_none.
    intros kv Hkv Hc. destruct (Hother kv); [|done]. rewrite elem_of_app. by left.
  - intros kv Hkv Hc. destruct (Hother kv); [|done]. rewrite elem_of_app. by right.
Qed.

Lemma stop_unused_kept (cache : gmap string (cref * bool)) h c :
  (∀ k b, cache !! k = Some (c, b) → b = true) →
  stop_unused cache h !! c = h !! c.
Proof.
  intros Hused. apply stops_none. intros [k [c' b]] Hkv%elem_of_map_to_list Hc.
  simpl in *. subst. by eapply Hused.
Qed.

Lemma stop_unused_stopped (cache : gmap string (cref * bool)) h c k :
  cache !! k = Some (c, false) →
  (∀ k' b, cache !! k' = Some (c, b) → k' = k) →
  stop_unused cache h !! c = SlackClient.stop <$> h !! c.
Proof.
  intros Hk Hinj. unfold stop_unused.
  pose proof (NoDup_map_to_list cache) as Hnd.
  assert ((k, (c, false)) ∈ map_to_list cache) as Hin
    by by apply elem_of_map_to_list.
  apply list_elem_of_split in Hin as (l1 & l2 & Hl). rewrite Hl in Hnd |- *.
  apply stops_once. intros [k' [c' b]] Hkv Hc. simpl in Hc. subst c'.
  assert ((k', (c, b)) ∈ map_to_list cache) as Hin'.
  { rewrite Hl, elem_of_app, elem_of_cons. rewrite elem_of_app in Hkv. tauto. }
  apply elem_of_map_to_list in Hin'. assert (k' = k) as -> by by eapply Hinj.
  assert (b = false) as -> by congruence.
  apply NoDup_app in Hnd as (_ & Hdisj & Hnd2).
  apply NoDup_cons in Hnd2 as [Hnot2 _].
  apply elem_of_app in Hkv as [Hkv|Hkv]; [|done].
  eapply Hdisj; [done|]. by left.
Qed.

(** The prototype of the cache of a service whose connections are ordinary
    is [Object.prototype]. *)
Lemma ordinary_proto (s : SlackService.t) :
  ordinary s → proto (initial_pass s) = None.
Proof. intros Hord. by apply build_cache_proto. Qed.

(** With plain tokens and ordinary connections the pass reaches its end. *)
Lemma plain_pass tokens (s : SlackService.t) :
  ordinary s → Forall (plain s) tokens →
  ∃ cs p', connect_all tokens (initial_pass s) = (Ok cs, p').
Proof.
  intros Hord Hplain. apply connect_all_plain; [by apply ordinary_proto|done].
Qed.
End Reconciler.

(** [refresh] when the pass reaches its end: [cs] are the connections it
    returns and [p'] is its state after the last token. *)
Section Refresh.
Variables (tokens : list string) (s : SlackService.t) (cs : list cref)
  (p' : Pass).
Hypothesis Hordinary : ordinary s.
Hypothesis Hrun : connect_all tokens (initial_pass s) = (Ok cs, p').
Hypothesis Hdistinct : distinct_tokens s.

Lemma refresh_Ok : (refresh tokens s).1 = Ok ().
Proof using Hrun. unfold refresh. by rewrite Hrun. Qed.

Lemma refresh_clients : clients (refresh tokens s).2 = cs.
Proof using Hrun. unfold refresh. by rewrite Hrun. Qed.

Lemma refresh_heap :
  heap (refresh tokens s).2 = stop_unused (cache p') (objects p').
Proof using Hrun. unfold refresh. by rewrite Hrun. Qed.

Lemma refresh_subscription :
  subscription (refresh tokens s).2 = (cs ≫= λ c, bundle c (fullParser c)).
Proof using Hrun Hordinary.
  unfold refresh. rewrite Hrun. simpl.
  destruct (connect_all_Ok tokens _ cs p' (ordinary_proto s Hordinary) Hrun)
    as (_ & _ & _ & Hsub & _).
  by rewrite Hsub.
Qed.

Lemma refresh_prototype_1 :
  prototype_1 (refresh tokens s).2 = prototype_1 s.
Proof using Hrun Hordinary.
  unfold refresh. rewrite Hrun. simpl.
  by destruct (connect_all_Ok tokens _ cs p' (ordinary_proto s Hordinary) Hrun)
    as (_ & _ & -> & _).
Qed.

Lemma cached_own_token c x :
  c ∈ clients s → heap s !! c = Some x →
  cache (initial_pass s) !! SlackClient.token x = Some (c, false).
Proof using Hdistinct Hordinary.
  intros Hin Hx. simpl.
  destruct (build_cache_complete (heap s) (clients s) c x Hin Hx) as [c' Hc'].
  { intros Htok. apply (Hordinary c Hin). unfold tokenOf. by rewrite Hx, <- Htok. }
  destruct (build_cache_sound _ _ _ _ _ Hc') as (_ & Hin' & Htok).
  assert (c' = c) as ->; [|done].
  apply Hdistinct; [done..|]. rewrite Htok. unfold tokenOf. by rewrite Hx.
Qed.

Lemma cache_after k c b :
  cache p' !! k = Some (c, b) →
  b = bool_decide (k ∈ tokens) ∧ c ∈ clients s ∧ tokenOf (heap s) c = Some k.
Proof using Hrun Hordinary.
  destruct (connect_all_Ok tokens _ cs p' (ordinary_proto s Hordinary) Hrun)
    as (_ & _ & _ & _ & Hcache & _).
  rewrite Hcache. simpl.
  destruct ((build_cache (heap s) (clients s)).1 !! k) as [[c0 b0]|] eqn:Hk;
    [|done].
  simpl. intros [= <- <-].
  destruct (build_cache_sound _ _ _ _ _ Hk) as (-> & ? & ?).
  by rewrite orb_false_r.
Qed.

Lemma kept_objects c x :
  heap s !! c = Some x →
  ∃ x', objects p' !! c = Some x' ∧ same_lifecycle x x'.
Proof using Hrun.
  intros Hx. pose proof (connect_all_kept tokens (initial_pass s) c x Hx) as H.
  by rewrite Hrun in H.
Qed.

Lemma served : Forall2 (serves (initial_pass s) p') tokens cs.
Proof using Hrun Hordinary.
  by destruct (connect_all_Ok tokens _ cs p' (ordinary_proto s Hordinary) Hrun)
    as (_ & _ & _ & _ & _ & _ & H).
Qed.

Lemma heap_reused c x :
  c ∈ clients s → heap s !! c = Some x → SlackClient.token x ∈ tokens →
  ∃ x', heap (refresh tokens s).2 !! c = Some x' ∧ same_lifecycle x x'.
Proof using Hrun Hordinary.
  intros Hin Hx Htok. rewrite refresh_heap, stop_unused_kept.
  - by apply kept_objects.
  - intros k b (-> & _ & Hk)%cache_after. unfold tokenOf in Hk.
    rewrite Hx in Hk. simplify_eq/=. by rewrite bool_decide_true.
Qed.

Lemma heap_dropped c x :
  c ∈ clients s → heap s !! c = Some x → SlackClient.token x ∉ tokens →
  ∃ x', heap (refresh tokens s).2 !! c = Some x'
        ∧ SlackClient.token x' = SlackClient.token x
        ∧ SlackClient.starts x' = SlackClient.starts x
        ∧ SlackClient.stops x' = S (SlackClient.stops x).
Proof using Hrun Hordinary Hdistinct.
  intros Hin Hx Htok.
  rewrite refresh_heap, (stop_unused_stopped _ _ _ (SlackClient.token x)).
  - destruct (kept_objects c x Hx) as (x' & -> & Ht & Hst & Hsp). simpl.
    eexists. split; [done|]. simpl. by rewrite Ht, Hst, Hsp.
  - destruct (connect_all_Ok tokens _ cs p' (ordinary_proto s Hordinary) Hrun)
      as (_ & _ & _ & _ & Hcache & _).
    rewrite Hcache, (cached_own_token c x Hin Hx). simpl.
    by rewrite bool_decide_false.
  - intros k b (_ & _ & Hk)%cache_after. unfold tokenOf in Hk.
    rewrite Hx in Hk. by simplify_eq/=.
Qed.

Lemma heap_new c :
  heap s !! c = None →
  heap (refresh tokens s).2 !! c = objects p' !! c.
Proof using Hrun Hordinary.
  intros Hc. rewrite refresh_heap. apply stop_unused_kept.
  intros k b (_ & _ & Hk)%cache_after. unfold tokenOf in Hk. by rewrite Hc in Hk.
Qed.

(** Every desired token is served by a connection with that token. *)
Lemma refresh_serves :
  Forall2 (λ t c, tokenOf (heap (refresh tokens s).2) c = Some t) tokens
    (clients (refresh tokens s).2).
Proof using Hrun Hordinary.
  rewrite refresh_clients. eapply Forall2_impl; [apply served|].
  destruct (connect_all_Ok tokens _ cs p' (ordinary_proto s Hordinary) Hrun)
    as (_ & _ & _ & _ & Hcache & _).
  intros t c [[b Hb]|(Hnone & Hc & x' & Hx' & Htok & _)].
  - simpl in Hb. destruct (build_cache_sound _ _ _ _ _ Hb) as (-> & Hin & Ht).
    unfold tokenOf in Ht |- *.
    destruct (heap s !! c) as [x|] eqn:Hx; simplify_eq/=.
    destruct (kept_objects c x Hx) as (x' & Hx' & Htok & _).
    rewrite refresh_heap.
    destruct (decide (SlackClient.token x ∈ tokens)) as [Hin'|Hnot].
    + rewrite stop_unused_kept, Hx'; [by rewrite <- Htok|].
      intros k b' (-> & _ & Hk)%cache_after. unfold tokenOf in Hk.
      rewrite Hx in Hk. simplify_eq/=. by rewrite bool_decide_true.
    + rewrite (stop_unused_stopped _ _ _ (SlackClient.token x)), Hx'.
      * simpl. by rewrite <- Htok.
      * rewrite Hcache. simpl. rewrite Hb. simpl.
        by rewrite bool_decide_false.
      * intros k b' (_ & _ & Hk)%cache_after. unfold tokenOf in Hk.
        rewrite Hx in Hk. by simplify_eq/=.
  - simpl in Hc. unfold tokenOf. rewrite (heap_new c Hc), Hx'.
    simpl. by rewrite Htok.
Qed.

Lemma refresh_no_dangling : no_dangling (refresh tokens s).2.
Proof using Hrun Hordinary.
  intros c [i Hi]%list_elem_of_lookup.
  destruct (Forall2_lookup_r _ _ _ _ _ refresh_serves Hi) as (t & _ & Ht).
  unfold tokenOf in Ht. by destruct (heap (refresh tokens s).2 !! c).
Qed.

Lemma refresh_distinct :
  NoDup tokens → distinct_tokens (refresh tokens s).2.
Proof using Hrun Hordinary.
  intros Hnd c1 c2 [i Hi]%list_elem_of_lookup [j Hj]%list_elem_of_lookup Heq.
  destruct (Forall2_lookup_r _ _ _ _ _ refresh_serves Hi) as (t1 & Ht1 & Hc1).
  destruct (Forall2_lookup_r _ _ _ _ _ refresh_serves Hj) as (t2 & Ht2 & Hc2).
  assert (t1 = t2) as -> by congruence.
  assert (i = j) as -> by by eapply NoDup_lookup.
  congruence.
Qed.

Lemma refresh_ordinary : ordinary (refresh tokens s).2.
Proof using Hrun Hordinary.
  intros c [i Hi]%list_elem_of_lookup.
  destruct (Forall2_lookup_r _ _ _ _ _ refresh_serves Hi) as (t & Ht & ->).
  destruct (connect_all_Ok tokens _ cs p' (ordinary_proto s Hordinary) Hrun)
    as (Hnot & _).
  intros [= ->]. apply Hnot. by eapply list_elem_of_lookup_2.
Qed.
End Refresh.

(** Reconciliation when the tokens are plain and the active connections
    have pairwise distinct tokens: [refresh] returns; every desired token is
    served, in the order of the list, by a connection with that token; an
    active connection whose token is desired is kept, the same object, with
    no further [start()] or [stop()]; an active connection whose token is not
    desired is dropped after exactly one [stop()]; every other served
    connection is a new object, started exactly once. *)
Theorem refresh_distinct_tokens tokens s :
  ordinary s → Forall (plain s) tokens →
  no_dangling s → distinct_tokens s →
  let s' := (refresh tokens s).2 in
  (refresh tokens s).1 = Ok ()
  ∧ length (clients s') = length tokens
  ∧ (∀ i t c, tokens !! i = Some t → clients s' !! i = Some c →
              tokenOf (heap s') c = Some t)
  ∧ (∀ c x, c ∈ clients s → heap s !! c = Some x →
            SlackClient.token x ∈ tokens →
            c ∈ clients s'
            ∧ ∃ x', heap s' !! c = Some x' ∧ same_lifecycle x x')
  ∧ (∀ c x, c ∈ clients s → heap s !! c = Some x →
            SlackClient.token x ∉ tokens →
            (c ∉ clients s')
            ∧ ∃ x', heap s' !! c = Some x'
                    ∧ SlackClient.token x' = SlackClient.token x
                    ∧ SlackClient.starts x' = SlackClient.starts x
                    ∧ SlackClient.stops x' = S (SlackClient.stops x))
  ∧ (∀ c, c ∈ clients s' → c ∉ clients s →
          heap s !! c = None
          ∧ ∃ x', heap s' !! c = Some x' ∧ SlackClient.token x' ∈ tokens
                  ∧ SlackClient.starts x' = 1 ∧ SlackClient.stops x' = 0).
Proof.
  intros Hord Hplain Hheap Hdistinct s'. unfold s'.
  destruct (plain_pass tokens s Hord Hplain) as (cs & p' & Hrun).
  rewrite (refresh_clients tokens s cs p' Hrun).
  pose proof (served tokens s cs p' Hord Hrun) as Hserved.
  assert (∀ t c, t ∈ tokens →
            serves (initial_pass s) p' t c →
            (c ∈ clients s ∧ tokenOf (heap s) c = Some t)
            ∨ ((c ∉ clients s) ∧ heap s !! c = None
               ∧ ∃ x', objects p' !! c = Some x'
                       ∧ SlackClient.token x' = t
                       ∧ SlackClient.starts x' = 1 ∧ SlackClient.stops x' = 0))
    as Hcases.
  { intros t c Ht [[b Hb]|(Hnone & Hc & Hnew)].
    - left. simpl in Hb.
      by destruct (build_cache_sound _ _ _ _ _ Hb) as (_ & ? & ?).
    - right. simpl in Hc. split_and!; [|done..]. intros Hin.
      destruct (Hheap c Hin) as [x Hx]. congruence. }
  split_and!.
  - by eapply refresh_Ok.
  - symmetry. by eapply Forall2_length.
  - intros i t c Ht Hc.
    pose proof (Forall2_lookup_lr _ _ _ _ _ _ Hserved Ht Hc) as Hs.
    destruct (Hcases t c) as [[Hin Htok]|(Hnot & Hnone & x' & Hx' & Htok & _)];
      [by eapply list_elem_of_lookup_2|done|..].
    + unfold tokenOf in Htok.
      destruct (heap s !! c) as [x|] eqn:Hx; simplify_eq/=.
      destruct (heap_reused tokens s cs p' Hord Hrun c x Hin Hx)
        as (x' & Hx' & Htok' & _).
      { by eapply list_elem_of_lookup_2. }
      unfold tokenOf. rewrite Hx'. simpl. by rewrite Htok'.
    + unfold tokenOf. rewrite (heap_new tokens s cs p' Hord Hrun c Hnone), Hx'.
      simpl. by rewrite Htok.
  - intros c x Hin Hx Htok. split; [|by eapply heap_reused].
    apply list_elem_of_lookup in Htok as [i Hi].
    destruct (Forall2_lookup_l _ _ _ _ _ Hserved Hi) as (c' & Hc' & Hs).
    assert (c' = c) as <-; [|by eapply list_elem_of_lookup_2].
    pose proof (cached_own_token s Hord Hdistinct c x Hin Hx) as Hown.
    destruct Hs as [[b Hb]|(Hnone & _)]; congruence.
  - intros c x Hin Hx Htok. split; [|by eapply heap_dropped].
    intros [i Hi]%list_elem_of_lookup.
    destruct (Forall2_lookup_r _ _ _ _ _ Hserved Hi) as (t & Ht & Hs).
    destruct (Hcases t c) as [[_ Htok']|(Hnot & _)];
      [by eapply list_elem_of_lookup_2|done|..|done].
    unfold tokenOf in Htok'. rewrite Hx in Htok'. simplify_eq/=.
    apply Htok. by eapply list_elem_of_lookup_2.
  - intros c [i Hi]%list_elem_of_lookup Hnot.
    destruct (Forall2_lookup_r _ _ _ _ _ Hserved Hi) as (t & Ht & Hs).
    assert (t ∈ tokens) as Hin by by eapply list_elem_of_lookup_2.
    destruct (Hcases t c Hin Hs)
      as [[? _]|(_ & Hnone & x' & Hx' & Htok & Hst & Hsp)]; [done|].
    split; [done|]. exists x'.
    rewrite (heap_new tokens s cs p' Hord Hrun c Hnone).
    split_and!; [exact Hx'|by rewrite Htok|done..].
Qed.

Lemma tokens_AB_wellformed :
  ordinary tokens_AB ∧ no_dangling tokens_AB ∧ distinct_tokens tokens_AB.
Proof.
  split_and!.
  - intros c Hc. change (clients tokens_AB) with [0; 1] in Hc.
    repeat (apply elem_of_cons in Hc as [->|Hc]);
      [by vm_compute..|by apply elem_of_nil in Hc].
  - intros c Hc. change (clients tokens_AB) with [0; 1] in Hc.
    repeat (apply elem_of_cons in Hc as [->|Hc]);
      [by vm_compute; eexists..|by apply elem_of_nil in Hc].
  - intros c1 c2 H1 H2. change (clients tokens_AB) with [0; 1] in H1, H2.
    repeat (apply elem_of_cons in H1 as [->|H1]);
      [..|by apply elem_of_nil in H1];
      (repeat (apply elem_of_cons in H2 as [->|H2]);
       [..|by apply elem_of_nil in H2]);
      try done; intros H; vm_compute in H; discriminate H.
Qed.

(** The scenario of the specification: the connections of tokens A and B
    reconfigured to B and C. The connection of B is the same object, not
    started again; that of A is stopped once and dropped; that of C is new
    and started once. *)
Example refresh_AB_to_BC :
  clients tokens_AB = [0; 1]
  ∧ tokenOf (heap tokens_AB) 0 = Some "A"
  ∧ tokenOf (heap tokens_AB) 1 = Some "B"
  ∧ clients tokens_BC = [1; 2]
  ∧ (1 ∈ clients tokens_BC
     ∧ ∃ x', heap tokens_BC !! 1 = Some x'
             ∧ SlackClient.starts x' = 1 ∧ SlackClient.stops x' = 0)
  ∧ ((0 ∉ clients tokens_BC)
     ∧ ∃ x', heap tokens_BC !! 0 = Some x' ∧ SlackClient.stops x' = 1)
  ∧ tokenOf (heap tokens_BC) 2 = Some "C"
  ∧ length (subscription tokens_BC) = 10.
Proof.
  destruct tokens_AB_wellformed as (Hord & Hheap & Hdistinct).
  destruct (refresh_distinct_tokens ["B"; "C"] tokens_AB Hord)
    as (_ & _ & _ & Hkeep & Hdrop & _); [plain_tokens|done..|].
  do 4 (split; [reflexivity|]). split; [|split; [|split; reflexivity]].
  - destruct (Hkeep 1 (SlackClient.set_attachmentTextParser (attachmentParser 1)
                         (SlackClient.start (SlackClient.new "B"))))
      as (Hin & x' & Hx' & _ & Hst & Hsp);
      [by right; left|reflexivity|by left|].
    split; [exact Hin|]. by exists x'.
  - destruct (Hdrop 0 (SlackClient.set_attachmentTextParser (attachmentParser 0)
                         (SlackClient.start (SlackClient.new "A"))))
      as (Hnot & x' & Hx' & _ & _ & Hsp);
      [by left|reflexivity| |].
    + intros Hin. repeat (apply elem_of_cons in Hin as [Hin|Hin]; [done|]).
      by apply elem_of_nil in Hin.
    + split; [exact Hnot|]. by exists x'.
Qed.

(** C1. The reconciliation must reuse the connection of every token that
    stays desired and call [stop()] exactly once on every connection whose
    token is no longer desired. It does not when two active connections have
    the same token: configuring the token A twice builds and starts two
    connections, objects 0 and 1. Removing A from the configuration then
    drops both from the active set while [stop()] is called on object 1
    only; object 0, started once, is never stopped. Configuring A once
    instead keeps object 1 and drops object 0, again without [stop()]. *)
Theorem refresh_duplicate_token_not_stopped :
  clients twice_A = [0; 1]
  ∧ tokenOf (heap twice_A) 0 = Some "A"
  ∧ tokenOf (heap twice_A) 1 = Some "A"
  ∧ clients twice_A_removed = []
  ∧ SlackClient.starts <$> heap twice_A_removed !! 0 = Some 1
  ∧ SlackClient.stops <$> heap twice_A_removed !! 0 = Some 0
  ∧ SlackClient.stops <$> heap twice_A_removed !! 1 = Some 1
  ∧ clients twice_A_once = [1]
  ∧ SlackClient.stops <$> heap twice_A_once !! 0 = Some 0.
Proof. by vm_compute. Qed.

(** * The timeline of every state of the service *)

Section Timeline.
Implicit Types (s : SlackService.t).

Lemma refresh_infos tokens s : infos (refresh tokens s).2 = infos s.
Proof. unfold refresh. by destruct (connect_all tokens _) as [[?|] ?]. Qed.

Lemma findReactionTarget_Some s reaction i e :
  findReactionTarget s reaction = Ok (Some (i, e)) → infos s !! i = Some e.
Proof.
  unfold findReactionTarget, find. repeat case_decide; [..|done].
  - intros (_ & Hi & _)%find_from_Some. by rewrite Nat.sub_0_r in Hi.
  - intros (_ & Hi & _)%find_from_Some. by rewrite Nat.sub_0_r in Hi.
  - destruct (find_from (isFileComment _) 0 (infos s)) as [[[j x]|]|] eqn:Hfirst;
      simpl; [| |done].
    + intros [= -> ->]. apply find_from_Some in Hfirst as (_ & Hi & _).
      by rewrite Nat.sub_0_r in Hi.
    + intros (_ & Hi & _)%find_from_Some. by rewrite Nat.sub_0_r in Hi.
Qed.

Lemma step_reachable s s' :
  step s s' → Forall reachable (infos s) → Forall reachable (infos s').
Proof.
  intros Hstep Hall. destruct Hstep as [tokens s|message parser client s
    |entry image message client s|parse reaction parser client s
    |parse reaction parser client s].
  - by rewrite refresh_infos.
  - unfold onReceiveMessage. repeat case_decide.
    + unfold removeDeletedMessage, bind, modify, emit, ret; simpl.
      apply Forall_forall. intros m [_ Hm]%list_elem_of_filter.
      by eapply Forall_forall in Hall.
    + unfold changeMessage, bind, get, lift, modify, emit, ret; simpl.
      destruct (find (isEdited message) (infos s)) as [[[i e]|]|] eqn:Hfind;
        simpl; [|done..].
      destruct (embedded message) as [em|]; simpl; [|done].
      apply find_from_Some in Hfind as (_ & Hi & _).
      rewrite Nat.sub_0_r in Hi. rewrite list_fmap_insert, shown_edited.
      apply Forall_insert.
      * apply Forall_fmap. eapply Forall_impl; [exact Hall|].
        intros x Hx. by apply reachable_shown.
      * apply reachable_edit. by eapply Forall_lookup_1.
    + done.
    + unfold bind at 1.
      destruct (SlackMessage.message message) as [body|] eqn:Hbody.
      * destruct (addMessage_infos message parser client s body Hbody)
          as [Hinfos _].
        assert (Forall reachable (infos (addMessage message parser client s).2))
          as Hnew.
        { rewrite Hinfos. constructor; [apply reachable_new|done]. }
        by destruct (addMessage message parser client s) as [[[|?]|] s1].
      * unfold addMessage. by rewrite Hbody.
  - unfold onReceiveMessage_resume, addMessage_resume, bind, modify, call, emit;
      simpl.
    apply Forall_fmap. eapply Forall_impl; [exact Hall|]. intros m Hm. simpl.
    case_decide; [by apply reachable_image|done].
  - unfold onReactionAdded, bind, get, lift, modify, emit, ret; simpl.
    destruct (findReactionTarget s reaction) as [[[i e]|]|] eqn:Hfind;
      simpl; [|done..].
    apply findReactionTarget_Some in Hfind. apply Forall_insert; [done|].
    apply reachable_add. by eapply Forall_lookup_1.
  - unfold onReactionRemoved, bind, get, lift, modify, emit, ret; simpl.
    destruct (findReactionTarget s reaction) as [[[i e]|]|] eqn:Hfind;
      simpl; [|done..].
    apply findReactionTarget_Some in Hfind. apply Forall_insert; [done|].
    apply reachable_remove. by eapply Forall_lookup_1.
Qed.

(** Every entry of the timeline of a state that the service reaches from its
    initial state is an entry as [reachable] describes them; its reaction
    groups hold each user once and are not empty. *)
Lemma timeline_reachable s : rtc step init s → Forall reachable (infos s).
Proof.
  revert s. apply rtc_ind_r; [constructor|].
  intros s1 s2 _ Hstep IH. by eapply step_reachable.
Qed.

Lemma timeline_groups s e g :
  rtc step init s → e ∈ infos s → g ∈ Entry.reactions e →
  NoDup (Group.users g) ∧ Group.users g ≠ [].
Proof.
  intros Hsteps He Hg.
  pose proof (proj1 (Forall_forall _ _) (timeline_reachable s Hsteps) e He)
    as Hreach.
  by apply (proj1 (Forall_forall _ _) (reachable_groups e Hreach) g Hg).
Qed.
End Timeline.

(** * Further properties of the reaction groups *)

Section MoreEntries.
Variable parse : SlackParser → string → DataStore → string.
Implicit Types (e : Entry.t) (info : SlackReactionAdded.t) (g : Group.t).

Lemma removeUser_absent (u : string) g :
  u ∉ Group.users g → Group.removeUser u g = g.
Proof.
  intros Hu. unfold Group.removeUser. rewrite filter_ne_absent by done.
  apply set_users_id.
Qed.

Lemma removeUser_addUser_absent (u : string) g :
  u ∉ Group.users g → Group.removeUser u (Group.addUser u g) = g.
Proof.
  intros Hu. destruct g as [raw key us shown].
  unfold Group.removeUser, Group.addUser, Group.set_users; simpl in *.
  by rewrite filter_ne_snoc, filter_ne_idemp, filter_ne_absent.
Qed.

Lemma removeReaction_kept info e i g :
  let k := Entry.rendered parse e info in
  let u := Reaction.user (SlackReactionAdded.reaction info) in
  Entry.findGroup k e = Some (i, g) →
  filter (λ v, v ≠ u) (Group.users g) ≠ [] →
  Entry.removeReaction parse info e
  = Entry.set_reactions (<[i := Group.removeUser u g]> (Entry.reactions e)) e.
Proof.
  intros k u Hfind Hleft. unfold Entry.removeReaction. fold k u. rewrite Hfind.
  rewrite bool_decide_false; [done|].
  unfold Group.count. rewrite users_removeUser.
  by intros ?%length_zero_iff_nil.
Qed.

Lemma reachable_keys e :
  reachable e → NoDup (Group.reaction <$> Entry.reactions e).
Proof.
  induction 1 as [o m p ap|parse' info e _ IH|parse' info e _ IH
                   |em e _ IH|object em e _ IH|image e _ IH];
    [| | |exact IH|by unfold shown; case_decide|exact IH].
  - constructor.
  - unfold Entry.addReaction.
    destruct (Entry.findGroup _ e) as [[i g]|] eqn:Hfind; simpl.
    + apply list_find_Some in Hfind as (Hi & Hk & _).
      rewrite list_fmap_insert, list_insert_id; [done|].
      by rewrite list_lookup_fmap, Hi.
    + rewrite fmap_app. apply NoDup_app. split_and!; [done| |apply NoDup_singleton].
      intros k Hk ->%list_elem_of_singleton.
      apply list_find_None in Hfind.
      apply list_elem_of_fmap in Hk as (g & Hg & Hin).
      by apply (proj1 (Forall_forall _ _) Hfind g Hin).
  - unfold Entry.removeReaction.
    destruct (Entry.findGroup _ e) as [[i g]|] eqn:Hfind; [|done].
    apply list_find_Some in Hfind as (Hi & Hk & _).
    assert (NoDup (Group.reaction <$>
              <[i := Group.removeUser
                       (Reaction.user (SlackReactionAdded.reaction info)) g]>
                (Entry.reactions e))) as Hins.
    { rewrite list_fmap_insert, list_insert_id; [done|].
      by rewrite list_lookup_fmap, Hi. }
    case_bool_decide; simpl; [|done].
    eapply sublist_NoDup; [exact Hins|].
    simpl. apply fmap_sublist, sublist_filter.
Qed.
End MoreEntries.

(** X1. [removeReaction] for a user who is not in the group of the key, or
    for a key that has no group, leaves a reachable entry exactly as it
    is. *)
Theorem removing_absent_user_changes_nothing parse info e :
  reachable e →
  let k := Entry.rendered parse e info in
  let u := Reaction.user (SlackReactionAdded.reaction info) in
  (∀ i g, Entry.findGroup k e = Some (i, g) → u ∉ Group.users g) →
  Entry.removeReaction parse info e = e.
Proof.
  intros Hreach k u Habsent.
  destruct (Entry.findGroup k e) as [[i g]|] eqn:Hfind.
  - pose proof Hfind as (Hi & _)%list_find_Some.
    destruct (Forall_lookup_1 _ _ _ _ (reachable_groups e Hreach) Hi)
      as [_ Hne].
    pose proof (Habsent i g eq_refl) as Hu.
    rewrite (removeReaction_kept parse info e i g Hfind).
    + fold u. rewrite removeUser_absent, list_insert_id by done.
      apply set_reactions_id.
    + fold u. by rewrite filter_ne_absent.
  - unfold Entry.removeReaction. fold k. by rewrite Hfind.
Qed.

Lemma absent_user_sample :
  Entry.removeReaction plain_parse (reacted "smile" "U3") two_users = two_users
  ∧ Entry.removeReaction plain_parse (reacted "heart" "U1") two_users = two_users.
Proof.
  split.
  - apply removing_absent_user_changes_nothing; [exact reachable_two_users|].
    intros i g [= <- <-]. simpl. intros Hin.
    repeat (apply elem_of_cons in Hin as [Hin|Hin]; [discriminate Hin|]).
    by apply elem_of_nil in Hin.
  - apply removing_absent_user_changes_nothing; [exact reachable_two_users|].
    intros i g Hfind. vm_compute in Hfind. discriminate Hfind.
Defined.

(** X2. When the group of the key holds the user and at least one other
    user, [removeReaction] keeps the group in its place with the user
    filtered out: the user is gone, the other users stay, the count drops by
    one, and the keys of the entry's groups are the same. *)
Theorem removing_one_of_several_users parse info e i g v :
  reachable e →
  let k := Entry.rendered parse e info in
  let u := Reaction.user (SlackReactionAdded.reaction info) in
  Entry.findGroup k e = Some (i, g) →
  u ∈ Group.users g → v ∈ Group.users g → v ≠ u →
  Entry.reactions (Entry.removeReaction parse info e)
    = <[i := Group.removeUser u g]> (Entry.reactions e)
  ∧ Entry.findGroup k (Entry.removeReaction parse info e)
    = Some (i, Group.removeUser u g)
  ∧ (u ∉ Group.users (Group.removeUser u g))
  ∧ (∀ w, w ≠ u → w ∈ Group.users (Group.removeUser u g) ↔ w ∈ Group.users g)
  ∧ S (Group.count (Group.removeUser u g)) = Group.count g
  ∧ Group.reaction <$> Entry.reactions (Entry.removeReaction parse info e)
    = Group.reaction <$> Entry.reactions e.
Proof.
  intros Hreach k u Hfind Hu Hv Hne.
  pose proof Hfind as (Hi & Hk & _)%list_find_Some.
  destruct (Forall_lookup_1 _ _ _ _ (reachable_groups e Hreach) Hi) as [Hnd _].
  rewrite (removeReaction_kept parse info e i g Hfind).
  2:{ fold u. intros Hnil.
      assert (v ∈ filter (λ w, w ≠ u) (Group.users g)) as Hin
        by by apply list_elem_of_filter.
      rewrite Hnil in Hin. by apply elem_of_nil in Hin. }
  fold u. split_and!.
  - done.
  - rewrite findGroup_set_reactions.
    eapply list_find_insert_same; [exact Hfind|done].
  - rewrite users_removeUser. intros [Hneq _]%list_elem_of_filter. by apply Hneq.
  - intros w Hw. rewrite users_removeUser, list_elem_of_filter. tauto.
  - unfold Group.count. rewrite users_removeUser.
    by apply length_filter_ne_NoDup.
  - simpl. rewrite list_fmap_insert, list_insert_id; [done|].
    by rewrite list_lookup_fmap, Hi.
Qed.

Lemma one_of_two_sample :
  Entry.reactions (Entry.removeReaction plain_parse (reacted "smile" "U1") two_users)
  = [smile_of ["U2"]].
Proof.
  destruct (removing_one_of_several_users plain_parse (reacted "smile" "U1")
              two_users 0 (smile_of ["U1"; "U2"]) "U2" reachable_two_users)
    as (H & _); [reflexivity|by left|by right; left|discriminate|].
  rewrite H. reflexivity.
Defined.

(** X3. Round trip: on a reachable entry, [removeReaction(k, u)] after
    [addReaction(k, u)] gives back the entry itself whenever [u] was not in
    the group of [k] before, whether that group existed or not. *)
Theorem add_then_remove_restores_entry parse info e :
  reachable e →
  let k := Entry.rendered parse e info in
  let u := Reaction.user (SlackReactionAdded.reaction info) in
  (∀ i g, Entry.findGroup k e = Some (i, g) → u ∉ Group.users g) →
  Entry.removeReaction parse info (Entry.addReaction parse info e) = e.
Proof.
  intros Hreach k u Habsent.
  destruct (Entry.findGroup k e) as [[i g]|] eqn:Hfind.
  - pose proof Hfind as (Hi & Hk & _)%list_find_Some.
    destruct (Forall_lookup_1 _ _ _ _ (reachable_groups e Hreach) Hi)
      as [_ Hne].
    pose proof (Habsent i g eq_refl) as Hu.
    rewrite (addReaction_found parse info e i g Hfind). fold u.
    erewrite removeReaction_kept.
    2:{ rewrite rendered_set_reactions, findGroup_set_reactions.
        eapply list_find_insert_same; [exact Hfind|exact Hk]. }
    2:{ fold u. rewrite users_addUser, filter_ne_snoc, filter_ne_idemp.
        by rewrite filter_ne_absent. }
    fold u. rewrite removeUser_addUser_absent by done.
    unfold Entry.set_reactions; simpl.
    rewrite list_insert_insert_eq, list_insert_id by done.
    by destruct e.
  - destruct (findGroup_addReaction parse info e)
      as (j & g1 & Hf1 & _ & Hus & Hrest).
    fold k u in Hf1, Hus, Hrest. rewrite Hfind in Hus.
    erewrite removeReaction_emptied.
    2:{ rewrite rendered_addReaction. exact Hf1. }
    2:{ rewrite Hus. apply filter_ne_all_eq.
        by intros w ->%list_elem_of_singleton. }
    rewrite rendered_addReaction. fold k. rewrite Hrest.
    rewrite filter_key_absent by done.
    rewrite (addReaction_absent parse info e Hfind). by destruct e.
Qed.

Lemma third_user_sample :
  Entry.removeReaction plain_parse (reacted "smile" "U3")
    (Entry.addReaction plain_parse (reacted "smile" "U3") two_users)
  = two_users.
Proof.
  apply add_then_remove_restores_entry; [exact reachable_two_users|].
  intros i g [= <- <-]. simpl. intros Hin.
  repeat (apply elem_of_cons in Hin as [Hin|Hin]; [discriminate Hin|]).
  by apply elem_of_nil in Hin.
Defined.

(** X4. On a reachable entry [doesReactionExist] is true exactly when some
    user holds a reaction on it: no group is kept without users. *)
Theorem doesReactionExist_iff_some_user e :
  reachable e →
  Entry.doesReactionExist e = true
  ↔ ∃ g u, g ∈ Entry.reactions e ∧ u ∈ Group.users g.
Proof.
  intros Hreach. unfold Entry.doesReactionExist. rewrite bool_decide_eq_true.
  pose proof (reachable_groups e Hreach) as Hgroups.
  destruct (Entry.reactions e) as [|g gs]; simpl.
  - split; [lia|]. intros (g & u & Hg & _). by apply elem_of_nil in Hg.
  - split; [intros _|lia]. apply Forall_cons in Hgroups as [[_ Hne] _].
    destruct (Group.users g) as [|u us] eqn:Hus; [done|].
    exists g, u. split; [by left|]. rewrite Hus. by left.
Qed.

Lemma reaction_exists_sample :
  Entry.doesReactionExist two_users = true
  ∧ Entry.doesReactionExist
      (Entry.removeReaction plain_parse (reacted "smile" "U1")
         (Entry.addReaction plain_parse (reacted "smile" "U1") plain_entry))
    = false.
Proof.
  split.
  - apply doesReactionExist_iff_some_user; [exact reachable_two_users|].
    exists (smile_of ["U1"; "U2"]), "U1". split; by left.
  - reflexivity.
Defined.

Section Mine.
Variable parse : SlackParser → string → DataStore → string.

Lemma message_addReaction info e :
  Entry.message (Entry.addReaction parse info e) = Entry.message e.
Proof. unfold Entry.addReaction. by destruct (Entry.findGroup _ e) as [[??]|]. Qed.

Lemma message_removeReaction info e :
  Entry.message (Entry.removeReaction parse info e) = Entry.message e.
Proof.
  unfold Entry.removeReaction. destruct (Entry.findGroup _ e) as [[??]|]; [|done].
  by case_bool_decide.
Qed.

Lemma includeMine_spec target r :
  includeMine target r = true
  ↔ SlackMessage.myUserId (Entry.message target) ∈ Group.users r
    ∧ SlackMessage.myUserId (Entry.message target) ≠ "".
Proof.
  unfold includeMine. set (me := SlackMessage.myUserId (Entry.message target)).
  destruct (list_find (λ u, u = me) (Group.users r)) as [[i u]|] eqn:Hfind; simpl.
  - apply list_find_Some in Hfind as (Hi & -> & _).
    rewrite negb_true_iff, String.eqb_neq. split; [intros Hne|tauto].
    split; [by eapply list_elem_of_lookup_2|done].
  - split; [done|]. intros [Hin _]. apply list_find_None in Hfind.
    by destruct (proj1 (Forall_forall _ _) Hfind me Hin).
Qed.
End Mine.

(** X5. [includeMine] is true exactly when the local user id is in the
    group and is not the empty string. After the local user (with a
    non-empty id) adds a reaction, the group of the key includes mine; after
    the local user's removal no group of the key does. *)
Theorem includeMine_follows_my_reactions parse info e :
  let me := SlackMessage.myUserId (Entry.message e) in
  let k := Entry.rendered parse e info in
  (∀ r, includeMine e r = true ↔ me ∈ Group.users r ∧ me ≠ "")
  ∧ (Reaction.user (SlackReactionAdded.reaction info) = me → me ≠ "" →
     ∃ i g, Entry.findGroup k (Entry.addReaction parse info e) = Some (i, g)
            ∧ includeMine (Entry.addReaction parse info e) g = true)
  ∧ (Reaction.user (SlackReactionAdded.reaction info) = me →
     ∀ i g, Entry.findGroup k (Entry.removeReaction parse info e) = Some (i, g) →
            includeMine (Entry.removeReaction parse info e) g = false).
Proof.
  intros me k. split_and!.
  - intros r. apply includeMine_spec.
  - intros Hme Hne.
    destruct (findGroup_addReaction parse info e) as (i & g & Hf & _ & Hus & _).
    exists i, g. split; [exact Hf|]. apply includeMine_spec.
    rewrite message_addReaction. fold me. split; [|done]. rewrite Hus, Hme.
    fold me. destruct (Entry.findGroup _ e) as [[??]|].
    + rewrite elem_of_app, list_elem_of_singleton. by right.
    + by left.
  - intros Hme i g Hfind. apply not_true_is_false.
    intros [Hin _]%includeMine_spec. rewrite message_removeReaction in Hin.
    fold me in Hin. revert Hfind Hin. unfold Entry.removeReaction. fold k.
    destruct (Entry.findGroup k e) as [[j g0]|] eqn:Hfind0.
    + rewrite Hme. fold me. case_bool_decide as Hcount.
      * rewrite findGroup_set_reactions. simpl.
        by rewrite list_find_filter_key.
      * rewrite findGroup_set_reactions.
        erewrite list_find_insert_same;
          [|exact Hfind0|by apply list_find_Some in Hfind0 as (_ & ? & _)].
        intros [= <- <-]. rewrite users_removeUser.
        intros [Hneq _]%list_elem_of_filter. by apply Hneq.
    + by rewrite Hfind0.
Qed.

Lemma my_reaction_sample :
  ∃ i g, Entry.findGroup ":smile::notitle:"
           (Entry.addReaction plain_parse (reacted "smile" "U0") two_users)
         = Some (i, g)
         ∧ includeMine (Entry.addReaction plain_parse (reacted "smile" "U0") two_users) g
           = true.
Proof.
  destruct (includeMine_follows_my_reactions plain_parse (reacted "smile" "U0")
              two_users) as (_ & H & _).
  apply H; [reflexivity|discriminate].
Defined.

(** * Further properties of the resolver *)

Section MoreResolver.
Implicit Types (target : Item.t) (m : Entry.t).

Lemma isMessage_true target m : has_ts target m → isMessage target m = Ok true.
Proof. intros Hm. unfold isMessage. by rewrite bool_decide_true. Qed.

Lemma isMessage_false target m :
  ¬ has_ts target m → isMessage target m = Ok false.
Proof. intros Hm. unfold isMessage. by rewrite bool_decide_false. Qed.


Lemma findReactionTarget_message s reaction :
  Item.type (Reaction.item (SlackReactionAdded.reaction reaction)) = "message" →
  findReactionTarget s reaction
  = find (isMessage (Reaction.item (SlackReactionAdded.reaction reaction)))
      (infos s).
Proof. intros Htype. unfold findReactionTarget. by rewrite Htype, decide_True. Qed.

Lemma find_message_first target l pre m post :
  l = pre ++ m :: post → has_ts target m →
  (∀ x, x ∈ pre → ¬ has_ts target x) →
  find (isMessage target) l = Ok (Some (length pre, m)).
Proof.
  intros -> Hm Hpre. unfold find. rewrite find_from_first; [done| |].
  - intros y Hy. by apply isMessage_false, Hpre.
  - by apply isMessage_true.
Qed.

Lemma find_message_none target l :
  (∀ x, x ∈ l → ¬ has_ts target x) → find (isMessage target) l = Ok None.
Proof.
  intros Hnone. apply find_from_none. intros y Hy.
  by apply isMessage_false, Hnone.
Qed.
End MoreResolver.

(** X6. A [message] descriptor resolves to the first entry of the timeline
    that has the descriptor's timestamp (the channel is not compared), to
    none when no entry has it, and never faults, whatever the files of the
    entries. *)
Theorem message_reaction_resolves_by_timestamp s reaction :
  let target := Reaction.item (SlackReactionAdded.reaction reaction) in
  Item.type target = "message" →
  (∀ pre m post,
     infos s = pre ++ m :: post → has_ts target m →
     (∀ x, x ∈ pre → ¬ has_ts target x) →
     findReactionTarget s reaction = Ok (Some (length pre, m)))
  ∧ ((∀ x, x ∈ infos s → ¬ has_ts target x) →
     findReactionTarget s reaction = Ok None)
  ∧ ∃ r, findReactionTarget s reaction = Ok r.
Proof.
  intros target Htype. rewrite findReactionTarget_message by done. fold target.
  split_and!.
  - intros pre m post Hinfos Hm Hpre. by eapply find_message_first.
  - apply find_message_none.
  - apply find_from_total. intros x _. by eexists.
Qed.

Lemma message_among_empty_files_sample :
  findReactionTarget
    (timeline [plain_empty_files; share_empty_files; plain_entry; share_F1])
    (reaction_on (on_message "100.5"))
  = Ok (Some (2, plain_entry)).
Proof.
  destruct (message_reaction_resolves_by_timestamp
              (timeline [plain_empty_files; share_empty_files; plain_entry; share_F1])
              (reaction_on (on_message "100.5")) eq_refl) as (H & _).
  apply (H [plain_empty_files; share_empty_files] plain_entry [share_F1]).
  - reflexivity.
  - reflexivity.
  - intros x Hx Hts.
    repeat (apply elem_of_cons in Hx as [->|Hx]; [discriminate Hts|]).
    by apply elem_of_nil in Hx.
Defined.

(** X7. A [file] descriptor resolves to the first [file_share] entry whose
    first file is the descriptor's, provided the [file_share] entries ahead
    of it have no empty files array; the entries behind it and the entries
    of other subtypes are not examined. When no [file_share] entry matches
    and none has an empty files array, it resolves to none. *)
Theorem file_reaction_resolves_to_first_share s reaction :
  let target := Reaction.item (SlackReactionAdded.reaction reaction) in
  Item.type target = "file" →
  (∀ pre m post,
     infos s = pre ++ m :: post → file_share_of target m →
     (∀ x, x ∈ pre → ¬ file_share_of target x) →
     (∀ x, x ∈ pre →
           SlackMessage.subType (Entry.message x) = Some "file_share" →
           Raw.files (raw_of x) ≠ Some []) →
     findReactionTarget s reaction = Ok (Some (length pre, m)))
  ∧ ((∀ x, x ∈ infos s → ¬ file_share_of target x) →
     (∀ x, x ∈ infos s →
           SlackMessage.subType (Entry.message x) = Some "file_share" →
           Raw.files (raw_of x) ≠ Some []) →
     findReactionTarget s reaction = Ok None).
Proof.
  intros target Htype. unfold findReactionTarget. fold target. rewrite Htype.
  rewrite decide_False, decide_True by done. split.
  - intros pre m post Hinfos Hm Hpre Hwf. unfold find. rewrite Hinfos.
    rewrite find_from_first; [done| |by apply isFileShare_true].
    intros y Hy. apply isFileShare_not; auto.
  - intros Hnone Hwf. apply find_from_none.
    intros y Hy. apply isFileShare_not; auto.
Qed.

Lemma file_behind_comment_sample :
  findReactionTarget (timeline [comment_empty_files; share_F1; share_empty_files])
    (reaction_on (on_file "F1"))
  = Ok (Some (1, share_F1)).
Proof.
  destruct (file_reaction_resolves_to_first_share
              (timeline [comment_empty_files; share_F1; share_empty_files])
              (reaction_on (on_file "F1")) eq_refl) as (H & _).
  apply (H [comment_empty_files] share_F1 [share_empty_files]).
  - reflexivity.
  - split; [reflexivity|]. by exists (sample_file "F1"), [].
  - intros x ->%list_elem_of_singleton (Hsub & _). discriminate Hsub.
  - intros x ->%list_elem_of_singleton Hsub. discriminate Hsub.
Defined.

(** * Reaction events and thumbnails *)

(** X8. A reaction event on a message: when an entry has the timestamp, the
    first such entry gets the reaction added (removed), in its place, every
    other entry is left alone, and one change notification is emitted; when
    no entry has the timestamp, the service is unchanged except for the one
    notification, which is emitted all the same. *)
Theorem reaction_event_on_message parse reaction parser client s :
  let target := Reaction.item (SlackReactionAdded.reaction reaction) in
  Item.type target = "message" →
  (∀ pre m post,
     infos s = pre ++ m :: post → has_ts target m →
     (∀ x, x ∈ pre → ¬ has_ts target x) →
     onReactionAdded parse reaction parser client s
     = (Ok (), notify (set_infos
                         (pre ++ Entry.addReaction parse reaction m :: post) s))
     ∧ onReactionRemoved parse reaction parser client s
       = (Ok (), notify (set_infos
                           (pre ++ Entry.removeReaction parse reaction m :: post) s)))
  ∧ ((∀ x, x ∈ infos s → ¬ has_ts target x) →
     onReactionAdded parse reaction parser client s = (Ok (), notify s)
     ∧ onReactionRemoved parse reaction parser client s = (Ok (), notify s)).
Proof.
  intros target Htype. split.
  - intros pre m post Hinfos Hm Hpre.
    unfold onReactionAdded, onReactionRemoved, bind, get, lift, modify, emit;
      simpl.
    rewrite findReactionTarget_message by done. fold target.
    rewrite (find_message_first target _ pre m post Hinfos Hm Hpre). simpl.
    rewrite Hinfos, !insert_app_r_alt, Nat.sub_diag by lia. done.
  - intros Hnone.
    unfold onReactionAdded, onReactionRemoved, bind, get, lift, modify, emit;
      simpl.
    rewrite findReactionTarget_message by done. fold target.
    by rewrite (find_message_none target _ Hnone).
Qed.

Lemma reaction_event_samples :
  infos (onReactionAdded plain_parse (reacted "smile" "U1") (fullParser 0) 0
           (timeline [share_F1; plain_entry])).2
  = [share_F1; Entry.addReaction plain_parse (reacted "smile" "U1") plain_entry]
  ∧ onReactionAdded plain_parse (reacted "smile" "U1") (fullParser 0) 0
      (timeline [share_F1])
    = (Ok (), notify (timeline [share_F1])).
Proof.
  destruct (reaction_event_on_message plain_parse (reacted "smile" "U1")
              (fullParser 0) 0 (timeline [share_F1; plain_entry]) eq_refl)
    as [Hfound _].
  destruct (reaction_event_on_message plain_parse (reacted "smile" "U1")
              (fullParser 0) 0 (timeline [share_F1]) eq_refl)
    as [_ Hnone].
  split.
  - destruct (Hfound [share_F1] plain_entry []) as [-> _]; [reflexivity..| |done].
    intros x ->%list_elem_of_singleton Hts. discriminate Hts.
  - apply Hnone. intros x ->%list_elem_of_singleton Hts. discriminate Hts.
Defined.

Section Thumbnails.
Lemma truthy_string_false t : truthy_string t = false ↔ no_thumbnail t.
Proof.
  unfold no_thumbnail. destruct t as [u|]; simpl.
  - rewrite negb_false_iff, String.eqb_eq. split; [intros ->; by right|].
    by intros [?|[= ->]].
  - split; [by left|done].
Qed.

Lemma first_truthy_skip t l :
  no_thumbnail t → first_truthy (t :: l) = first_truthy l.
Proof. intros Ht%truthy_string_false. simpl. by rewrite Ht. Qed.

Lemma first_truthy_here (u : string) l : u ≠ "" → first_truthy (Some u :: l) = u.
Proof. intros Hu. simpl. by rewrite (proj2 (String.eqb_neq _ _) Hu). Qed.

Lemma getMaximumThumbnail_thumbnails message file fs :
  Raw.files (SlackMessage.rawMessage message) = Some (file :: fs) →
  getMaximumThumbnail message = Ok (first_truthy (thumbnails file)).
Proof.
  intros Hfiles. unfold getMaximumThumbnail. rewrite Hfiles. simpl.
  by repeat destruct (truthy_string _).
Qed.
End Thumbnails.

(** X9. [getMaximumThumbnail] returns the thumbnail of the first file of the
    raw message that is the first, in the order 480, 360, 160, 80, 64, to be
    present and non-empty; the empty string when none is; and it raises
    when the raw message has no files or an empty files array. *)
Theorem getMaximumThumbnail_prefers_largest message :
  (∀ file fs pre url post,
     Raw.files (SlackMessage.rawMessage message) = Some (file :: fs) →
     thumbnails file = pre ++ Some url :: post → url ≠ "" →
     Forall no_thumbnail pre →
     getMaximumThumbnail message = Ok url)
  ∧ (∀ file fs,
       Raw.files (SlackMessage.rawMessage message) = Some (file :: fs) →
       Forall no_thumbnail (thumbnails file) →
       getMaximumThumbnail message = Ok "")
  ∧ (Raw.files (SlackMessage.rawMessage message) = None
     ∨ Raw.files (SlackMessage.rawMessage message) = Some [] →
     getMaximumThumbnail message = TypeError).
Proof.
  split_and!.
  - intros file fs pre url post Hfiles Hthumbs Hurl Hpre.
    rewrite (getMaximumThumbnail_thumbnails message file fs Hfiles), Hthumbs.
    f_equal. clear Hthumbs. induction Hpre as [|t pre Ht _ IH].
    + by apply first_truthy_here.
    + rewrite <- app_comm_cons. by rewrite first_truthy_skip.
  - intros file fs Hfiles Hall.
    rewrite (getMaximumThumbnail_thumbnails message file fs Hfiles). f_equal.
    induction Hall as [|t l Ht _ IH]; [done|]. by rewrite first_truthy_skip.
  - unfold getMaximumThumbnail. by intros [-> | ->].
Qed.

Lemma thumbnail_sample :
  getMaximumThumbnail image_message = Ok "thumb160".
Proof.
  destruct (getMaximumThumbnail_prefers_largest image_message) as (H & _).
  apply (H (image_file "F5" "thumb160") [] [None; Some ""] "thumb160"
           [Some "small"; None]); [reflexivity|reflexivity|discriminate|].
  apply Forall_cons. split; [by left|].
  apply Forall_cons. split; [by right|]. constructor.
Defined.

(** * Further properties of the dispatcher *)

Section MoreDispatcher.
Implicit Types (message : SlackMessage.t) (parser : SlackParser) (client : cref)
  (s : SlackService.t).

Lemma onReceiveMessage_unhandled message parser client s :
  unhandled_subtype message →
  onReceiveMessage message parser client s
  = match addMessage message parser client s with
    | (Ok Completed, s') => (Ok Completed, notify s')
    | (Ok (Awaiting entry), s') => (Ok (Awaiting entry), s')
    | (TypeError, s') => (TypeError, s')
    end.
Proof.
  intros (H1 & H2 & H3). unfold onReceiveMessage.
  rewrite !decide_False by done. unfold bind at 1.
  by destruct (addMessage message parser client s) as [[[|?]|] s'].
Qed.

Lemma addMessage_plain message parser client s body :
  SlackMessage.message message = Some body → no_image body →
  addMessage message parser client s
  = (Ok Completed,
     notify (set_heap
               (alter (SlackClient.markRead (SlackMessage.channelID message)
                         (SlackMessage.ts message)) client (heap s))
               (unshift message parser client s))).
Proof.
  intros Hbody Himage. unfold addMessage. rewrite Hbody.
  unfold bind, get, modify, lift, call, emit, ret; simpl.
  by destruct Himage as [->|(f & fs & -> & Hf)]; simpl; [|rewrite Hf].
Qed.

Lemma addMessage_image message parser client s body :
  SlackMessage.message message = Some body → has_image body →
  addMessage message parser client s
  = match getMaximumThumbnail message with
    | Ok url =>
        (Ok (Awaiting (next_oid s)),
         set_heap (alter (SlackClient.getImage url) client (heap s))
           (unshift message parser client s))
    | TypeError => (TypeError, unshift message parser client s)
    end.
Proof.
  intros Hbody (f & fs & Hfiles & Hf). unfold addMessage. rewrite Hbody.
  unfold bind, get, modify, lift, call, emit, ret; simpl.
  rewrite Hfiles. simpl. rewrite Hf.
  by destruct (getMaximumThumbnail message).
Qed.

Lemma addMessage_empty_files message parser client s body :
  SlackMessage.message message = Some body → Body.files body = Some [] →
  addMessage message parser client s
  = (TypeError, unshift message parser client s).
Proof.
  intros Hbody Hfiles. unfold addMessage. rewrite Hbody.
  unfold bind, get, modify, lift, call, emit, ret; simpl. by rewrite Hfiles.
Qed.
End MoreDispatcher.

(** X10. A message event of an unhandled subtype with a body and no image
    runs to its end: the entry is at the head of the timeline, the
    connection that delivered it gets one [markRead(channelID, ts)], no
    other connection is touched, and two change notifications are emitted
    (one by [addMessage], one by the dispatcher). *)
Theorem plain_message_is_inserted_and_marked_read message parser client s body :
  unhandled_subtype message →
  SlackMessage.message message = Some body → no_image body →
  ∃ s', onReceiveMessage message parser client s = (Ok Completed, s')
        ∧ infos s'
          = Entry.new (next_oid s) message parser
              (heap s !! client ≫= SlackClient.attachmentTextParser) :: infos s
        ∧ onChange s' = S (S (onChange s))
        ∧ clients s' = clients s
        ∧ (∀ c, c ≠ client → heap s' !! c = heap s !! c)
        ∧ heap s' !! client
          = SlackClient.markRead (SlackMessage.channelID message)
              (SlackMessage.ts message) <$> heap s !! client.
Proof.
  intros Hsub Hbody Himage. eexists. split.
  - rewrite onReceiveMessage_unhandled by done.
    by rewrite (addMessage_plain _ _ _ _ body).
  - simpl. split_and!; [done..| |].
    + intros c Hc. by rewrite lookup_alter_ne.
    + by rewrite lookup_alter_eq.
Qed.

Lemma plain_message_sample :
  ∃ s', onReceiveMessage (file_message 16 "106.0" None None None) (fullParser 0) 0
          tokens_AB = (Ok Completed, s')
        ∧ onChange s' = 2
        ∧ SlackClient.reads <$> heap s' !! (0 : cref) = Some [("C1", "106.0")].
Proof.
  destruct (plain_message_is_inserted_and_marked_read
              (file_message 16 "106.0" None None None) (fullParser 0) 0 tokens_AB
              {| Body.files := None |})
    as (s' & Hrun & _ & Hn & _ & _ & Hread).
  - repeat split; discriminate.
  - reflexivity.
  - by left.
  - exists s'. split_and!; [exact Hrun|exact Hn|]. rewrite Hread. reflexivity.
Defined.

(** X11. A message event whose first file is an image is suspended at the
    fetch: the entry is already at the head of the timeline, the connection
    was asked for the largest available thumbnail, and neither a
    notification nor [markRead] has happened yet. *)
Theorem image_message_waits_for_its_image message parser client s body rf rfs :
  unhandled_subtype message →
  SlackMessage.message message = Some body → has_image body →
  Raw.files (SlackMessage.rawMessage message) = Some (rf :: rfs) →
  ∃ s', onReceiveMessage message parser client s
        = (Ok (Awaiting (next_oid s)), s')
        ∧ infos s'
          = Entry.new (next_oid s) message parser
              (heap s !! client ≫= SlackClient.attachmentTextParser) :: infos s
        ∧ onChange s' = onChange s
        ∧ heap s' !! client
          = SlackClient.getImage (first_truthy (thumbnails rf)) <$> heap s !! client
        ∧ (∀ c, c ≠ client → heap s' !! c = heap s !! c).
Proof.
  intros Hsub Hbody Himage Hfiles. eexists. split.
  - rewrite onReceiveMessage_unhandled by done.
    rewrite (addMessage_image _ _ _ _ body) by done.
    by rewrite (getMaximumThumbnail_thumbnails message rf rfs).
  - simpl. split_and!; [done..| |].
    + by rewrite lookup_alter_eq.
    + intros c Hc. by rewrite lookup_alter_ne.
Qed.

Lemma image_message_sample :
  ∃ s', onReceiveMessage image_message (fullParser 0) 0 tokens_AB
        = (Ok (Awaiting 0), s')
        ∧ onChange s' = 0
        ∧ SlackClient.fetches <$> heap s' !! (0 : cref) = Some ["thumb160"]
        ∧ SlackClient.reads <$> heap s' !! (0 : cref) = Some [].
Proof.
  destruct (image_message_waits_for_its_image image_message (fullParser 0) 0
              tokens_AB {| Body.files := Some [image_file "F5" "thumb160"] |}
              (image_file "F5" "thumb160") [])
    as (s' & Hrun & _ & Hn & Hfetch & _).
  - repeat split; discriminate.
  - reflexivity.
  - by exists (image_file "F5" "thumb160"), [].
  - reflexivity.
  - exists s'. split_and!; [exact Hrun|exact Hn|..]; rewrite Hfetch; reflexivity.
Defined.

(** X12. A message whose body has an empty files array, or whose first file
    is an image while the raw message has no first file, makes the handler
    raise after the insertion: the entry stays at the head of the timeline,
    no notification is emitted and the message is not marked read. *)
Theorem faulting_message_stays_inserted message parser client s body :
  unhandled_subtype message →
  SlackMessage.message message = Some body →
  Body.files body = Some []
  ∨ (has_image body
     ∧ (Raw.files (SlackMessage.rawMessage message) = None
        ∨ Raw.files (SlackMessage.rawMessage message) = Some [])) →
  onReceiveMessage message parser client s
  = (TypeError, unshift message parser client s)
  ∧ infos (unshift message parser client s)
    = Entry.new (next_oid s) message parser
        (heap s !! client ≫= SlackClient.attachmentTextParser) :: infos s
  ∧ onChange (unshift message parser client s) = onChange s
  ∧ heap (unshift message parser client s) = heap s.
Proof.
  intros Hsub Hbody Hcases. split; [|done].
  rewrite onReceiveMessage_unhandled by done.
  destruct Hcases as [Hfiles|[Himage Hraw]].
  - by rewrite (addMessage_empty_files _ _ _ _ body).
  - rewrite (addMessage_image _ _ _ _ body) by done.
    unfold getMaximumThumbnail. by destruct Hraw as [-> | ->].
Qed.

Lemma faulting_message_sample :
  onReceiveMessage (file_message 17 "107.0" None (Some []) None) (fullParser 0) 0
    (timeline [plain_entry])
  = (TypeError,
     unshift (file_message 17 "107.0" None (Some []) None) (fullParser 0) 0
       (timeline [plain_entry])).
Proof.
  apply (faulting_message_stays_inserted _ _ _ _ {| Body.files := Some [] |}).
  - repeat split; discriminate.
  - reflexivity.
  - by left.
Defined.

(** X13. A [message_replied] event, and an event of an unhandled subtype
    without a message body, change nothing in the service and still emit one
    change notification. *)
Theorem idle_events_still_notify message parser client s :
  Raw.subtype (SlackMessage.rawMessage message) = Some "message_replied"
  ∨ (unhandled_subtype message ∧ SlackMessage.message message = None) →
  onReceiveMessage message parser client s = (Ok Completed, notify s).
Proof.
  intros [Hsub|[Hsub Hbody]].
  - unfold onReceiveMessage. rewrite Hsub.
    by rewrite decide_False, decide_False, decide_True.
  - rewrite onReceiveMessage_unhandled by done.
    unfold addMessage. by rewrite Hbody.
Qed.

Lemma idle_event_sample :
  onChange (onReceiveMessage replied_event (fullParser 0) 0
              (timeline [plain_entry])).2 = 1
  ∧ infos (onReceiveMessage replied_event (fullParser 0) 0
             (timeline [plain_entry])).2 = [plain_entry].
Proof.
  rewrite (idle_events_still_notify replied_event (fullParser 0) 0
             (timeline [plain_entry])); [by split|].
  by left.
Defined.

(** * The identity of the entries *)

Section Identities.
Implicit Types (s : SlackService.t) (e : Entry.t).

Lemma oid_addReaction parse info e :
  Entry.oid (Entry.addReaction parse info e) = Entry.oid e.
Proof. unfold Entry.addReaction. by destruct (Entry.findGroup _ e) as [[??]|]. Qed.

Lemma oid_removeReaction parse info e :
  Entry.oid (Entry.removeReaction parse info e) = Entry.oid e.
Proof.
  unfold Entry.removeReaction. destruct (Entry.findGroup _ e) as [[??]|]; [|done].
  by case_bool_decide.
Qed.

Lemma oid_shown (object : SlackMessage.t) em e :
  Entry.oid (shown object em e) = Entry.oid e.
Proof. unfold shown. by case_decide. Qed.

Lemma refresh_next_oid tokens s : next_oid (refresh tokens s).2 = next_oid s.
Proof. unfold refresh. by destruct (connect_all tokens _) as [[?|] ?]. Qed.

(** Replacing an entry by one with the same identity. *)
Lemma oids_insert (l : list Entry.t) i e e' n :
  l !! i = Some e → Entry.oid e' = Entry.oid e →
  NoDup (Entry.oid <$> l) ∧ Forall (λ x, Entry.oid x < n) l →
  NoDup (Entry.oid <$> <[i:=e']> l)
  ∧ Forall (λ x, Entry.oid x < n) (<[i:=e']> l).
Proof.
  intros Hi Hoid [Hnd Hlt]. split.
  - rewrite list_fmap_insert, list_insert_id; [done|].
    by rewrite list_lookup_fmap, Hi, Hoid.
  - apply Forall_insert; [done|]. rewrite Hoid.
    by apply (Forall_lookup_1 _ _ _ _ Hlt Hi).
Qed.

Lemma step_oids s s' : step s s' → oids_wf s → oids_wf s'.
Proof.
  unfold oids_wf. intros Hstep Hwf.
  destruct Hstep as [tokens s|message parser client s
    |entry image message client s|parse reaction parser client s
    |parse reaction parser client s].
  - by rewrite refresh_infos, refresh_next_oid.
  - unfold onReceiveMessage. repeat case_decide.
    + unfold removeDeletedMessage, bind, modify, emit, ret; simpl.
      destruct Hwf as [Hnd Hlt]. split.
      * eapply sublist_NoDup; [exact Hnd|]. apply fmap_sublist, sublist_filter.
      * apply Forall_forall. intros m [_ Hm]%list_elem_of_filter.
        by apply (proj1 (Forall_forall _ _) Hlt).
    + unfold changeMessage, bind, get, lift, modify, emit, ret; simpl.
      destruct (find (isEdited message) (infos s)) as [[[i e]|]|] eqn:Hfind;
        simpl; [|done..].
      destruct (embedded message) as [em|]; simpl; [|done].
      apply find_from_Some in Hfind as (_ & Hi & _).
      rewrite Nat.sub_0_r in Hi.
      assert (Entry.oid <$> (shown (Entry.message e) em
                             <$> <[i:=Entry.set_edited true e]> (infos s))
              = Entry.oid <$> infos s) as Hoids.
      { rewrite <- list_fmap_compose.
        rewrite (list_fmap_ext _ Entry.oid
                   (<[i:=Entry.set_edited true e]> (infos s)));
          [|intros j x _; apply oid_shown].
        rewrite list_fmap_insert, list_insert_id; [done|].
        by rewrite list_lookup_fmap, Hi. }
      destruct Hwf as [Hnd Hlt]. split; [by rewrite Hoids|].
      apply (Forall_fmap Entry.oid (λ o, o < next_oid s)). rewrite Hoids.
      by apply (Forall_fmap Entry.oid (λ o, o < next_oid s)).
    + done.
    + destruct (SlackMessage.message message) as [body|] eqn:Hbody.
      * destruct (addMessage_infos message parser client s body Hbody)
          as [Hinfos Hnext].
        assert (NoDup (Entry.oid <$> infos (addMessage message parser client s).2)
                ∧ Forall (λ e, Entry.oid e
                               < next_oid (addMessage message parser client s).2)
                    (infos (addMessage message parser client s).2)) as Hnew.
        { rewrite Hinfos, Hnext. destruct Hwf as [Hnd Hlt]. simpl. split.
          - apply NoDup_cons. split; [|done].
            intros (e & He & Hin)%list_elem_of_fmap.
            pose proof (proj1 (Forall_forall _ _) Hlt e Hin) as Hlt'.
            simpl in He, Hlt'. lia.
          - constructor; [simpl; lia|].
            eapply Forall_impl; [exact Hlt|]. simpl. lia. }
        unfold bind.
        destruct (addMessage message parser client s) as [[[|?]|] s1];
          simpl in *; exact Hnew.
      * unfold addMessage. by rewrite Hbody.
  - unfold onReceiveMessage_resume, addMessage_resume, bind, modify, call, emit;
      simpl.
    destruct Hwf as [Hnd Hlt]. split.
    + rewrite <- list_fmap_compose.
      erewrite list_fmap_ext; [exact Hnd|]. intros i m _. simpl. by case_decide.
    + apply Forall_fmap. eapply Forall_impl; [exact Hlt|]. intros m Hm. simpl.
      by case_decide.
  - unfold onReactionAdded, bind, get, lift, modify, emit, ret; simpl.
    destruct (findReactionTarget s reaction) as [[[i e]|]|] eqn:Hfind;
      simpl; [|done..].
    apply findReactionTarget_Some in Hfind.
    eapply oids_insert; [done|apply oid_addReaction|done].
  - unfold onReactionRemoved, bind, get, lift, modify, emit, ret; simpl.
    destruct (findReactionTarget s reaction) as [[[i e]|]|] eqn:Hfind;
      simpl; [|done..].
    apply findReactionTarget_Some in Hfind.
    eapply oids_insert; [done|apply oid_removeReaction|done].
Qed.

Lemma timeline_oids s : rtc step init s → oids_wf s.
Proof.
  revert s. apply rtc_ind_r.
  - split; [constructor|constructor].
  - intros s1 s2 _ Hstep IH. by eapply step_oids.
Qed.

(** The late assignment of an image, on a timeline of distinct objects. *)
Lemma set_image_at (l : list Entry.t) pre e post entry image :
  NoDup (Entry.oid <$> l) → l = pre ++ e :: post → Entry.oid e = entry →
  (λ m, if decide (Entry.oid m = entry) then Entry.set_image image m else m) <$> l
  = pre ++ Entry.set_image image e :: post.
Proof.
  intros Hnd -> He. rewrite fmap_app, fmap_cons in Hnd.
  apply NoDup_app in Hnd as (_ & Hpre & Hpost).
  apply NoDup_cons in Hpost as [Hpost _].
  rewrite fmap_app, fmap_cons, decide_True by done. f_equal; [|f_equal].
  - rewrite <- (list_fmap_id pre) at 2. apply list_fmap_ext. intros i m Hm. simpl.
    rewrite decide_False; [done|]. intros Hoid.
    apply (Hpre (Entry.oid m)).
    + apply list_elem_of_fmap. exists m. split; [done|].
      by eapply list_elem_of_lookup_2.
    + rewrite Hoid, <- He. by left.
  - rewrite <- (list_fmap_id post) at 2. apply list_fmap_ext. intros i m Hm. simpl.
    rewrite decide_False; [done|]. intros Hoid. apply Hpost.
    apply list_elem_of_fmap. exists m. split; [congruence|].
    by eapply list_elem_of_lookup_2.
Qed.

Lemma set_image_nowhere (l : list Entry.t) entry image :
  (∀ e, e ∈ l → Entry.oid e ≠ entry) →
  (λ m, if decide (Entry.oid m = entry) then Entry.set_image image m else m) <$> l
  = l.
Proof.
  intros Hnone. rewrite <- (list_fmap_id l) at 2. apply list_fmap_ext.
  intros i m Hm. simpl. rewrite decide_False; [done|]. apply Hnone.
  by eapply list_elem_of_lookup_2.
Qed.
End Identities.

(** X14. In every state the service reaches, the image that arrives late is
    assigned to the entry it was fetched for and to no other entry; when
    that entry has left the timeline in between, the timeline is unchanged.
    In both cases the message is marked read and two notifications are
    emitted. *)
Theorem late_image_reaches_its_entry_only s entry image message client :
  rtc step init s →
  ∃ s', onReceiveMessage_resume entry image message client s = (Ok (), s')
        ∧ onChange s' = S (S (onChange s))
        ∧ heap s' !! client
          = SlackClient.markRead (SlackMessage.channelID message)
              (SlackMessage.ts message) <$> heap s !! client
        ∧ (∀ pre e post,
             infos s = pre ++ e :: post → Entry.oid e = entry →
             infos s' = pre ++ Entry.set_image image e :: post)
        ∧ ((∀ e, e ∈ infos s → Entry.oid e ≠ entry) → infos s' = infos s).
Proof.
  intros Hsteps. destruct (timeline_oids s Hsteps) as [Hnd _].
  eexists. split; [reflexivity|]. simpl. split_and!; [done| | |].
  - by rewrite lookup_alter_eq.
  - intros pre e post Hinfos He. by eapply set_image_at.
  - apply set_image_nowhere.
Qed.

Lemma awaiting_image_reached : rtc step init awaiting_image.
Proof.
  eapply rtc_l; [apply (step_refresh ["A"; "B"] init)|].
  apply rtc_once. apply (step_message image_message (fullParser 0) 0 tokens_AB).
Defined.

Lemma late_image_sample :
  ∃ s', onReceiveMessage_resume 0 (Some "PNG") image_message 0 awaiting_image
        = (Ok (), s')
        ∧ infos s'
          = [Entry.set_image (Some "PNG")
               (Entry.new 0 image_message (fullParser 0)
                  (Some (attachmentParser 0)))]
        ∧ onChange s' = 2.
Proof.
  destruct (late_image_reaches_its_entry_only awaiting_image 0 (Some "PNG")
              image_message 0 awaiting_image_reached)
    as (s' & Hrun & Hn & _ & Hset & _).
  exists s'. split_and!; [exact Hrun| |exact Hn].
  apply (Hset [] (Entry.new 0 image_message (fullParser 0)
                    (Some (attachmentParser 0))) []); reflexivity.
Defined.

(** X15. A [message_changed] event without an embedded message: on an empty
    timeline the callback is never run and the event ends with its one
    notification; on a non-empty timeline the handler raises, the service is
    unchanged and no notification is emitted. *)
Theorem edit_without_embedded_message message parser client s :
  Raw.subtype (SlackMessage.rawMessage message) = Some "message_changed" →
  Raw.message (SlackMessage.rawMessage message) = None →
  (infos s = [] →
   onReceiveMessage message parser client s = (Ok Completed, notify s))
  ∧ (infos s ≠ [] →
     onReceiveMessage message parser client s = (TypeError, s)).
Proof.
  intros Hsub Hem. rewrite onReceiveMessage_message_changed by done.
  unfold changeMessage, bind, get, lift, find; simpl. split.
  - by intros ->.
  - intros Hne. destruct (infos s) as [|m l]; [done|]. simpl.
    unfold isEdited, embedded. by rewrite Hem.
Qed.

Lemma bare_changed_sample :
  onReceiveMessage bare_changed_event (fullParser 0) 0 init
  = (Ok Completed, notify init)
  ∧ onReceiveMessage bare_changed_event (fullParser 0) 0 (timeline [plain_entry])
    = (TypeError, timeline [plain_entry]).
Proof.
  split.
  - by apply (edit_without_embedded_message bare_changed_event (fullParser 0) 0
                init eq_refl eq_refl).
  - by apply (edit_without_embedded_message bare_changed_event (fullParser 0) 0
                (timeline [plain_entry]) eq_refl eq_refl).
Defined.

(** X16. Insert then look up, delete then look up: right after a message
    was inserted, a reaction on its timestamp resolves to the new entry, at
    the head of the timeline; right after a [message_deleted] event, a
    reaction on the deleted timestamp resolves to none. *)
Theorem inserted_found_deleted_gone message parser client s reaction :
  let target := Reaction.item (SlackReactionAdded.reaction reaction) in
  Item.type target = "message" →
  (unhandled_subtype message → is_Some (SlackMessage.message message) →
   Item.ts target = Some (Raw.ts (SlackMessage.rawMessage message)) →
   findReactionTarget (onReceiveMessage message parser client s).2 reaction
   = Ok (Some (0, Entry.new (next_oid s) message parser
                    (heap s !! client ≫= SlackClient.attachmentTextParser))))
  ∧ (Raw.subtype (SlackMessage.rawMessage message) = Some "message_deleted" →
     Item.ts target = Raw.deleted_ts (SlackMessage.rawMessage message) →
     findReactionTarget (onReceiveMessage message parser client s).2 reaction
     = Ok None).
Proof.
  intros target Htype. split.
  - intros Hsub [body Hbody] Hts.
    rewrite findReactionTarget_message by done. fold target.
    assert (infos (onReceiveMessage message parser client s).2
            = Entry.new (next_oid s) message parser
                (heap s !! client ≫= SlackClient.attachmentTextParser)
              :: infos s) as ->.
    { rewrite onReceiveMessage_unhandled by done.
      destruct (addMessage_infos message parser client s body Hbody) as [<- _].
      by destruct (addMessage message parser client s) as [[[|?]|] s1]. }
    apply (find_message_first target _ [] _ (infos s)); [done| |].
    + unfold has_ts. by rewrite Hts.
    + by intros x ?%elem_of_nil.
  - intros Hsub Hts. rewrite findReactionTarget_message by done. fold target.
    apply find_message_none. intros x Hx Hx'.
    unfold onReceiveMessage in Hx. rewrite Hsub, decide_True in Hx by done.
    unfold removeDeletedMessage, bind, modify, emit, ret in Hx. simpl in Hx.
    apply list_elem_of_filter in Hx as [Hkeep _]. apply Hkeep.
    unfold has_ts, raw_of in Hx'. by rewrite <- Hts, Hx'.
Qed.

Lemma insert_then_find_sample :
  findReactionTarget
    (onReceiveMessage (file_message 10 "110.0" None None None) (fullParser 0) 0
       (timeline [plain_entry])).2
    (reaction_on (on_message "110.0"))
  = Ok (Some (0, Entry.new 0 (file_message 10 "110.0" None None None)
                   (fullParser 0) None))
  ∧ findReactionTarget
      (onReceiveMessage (deleted_event "100.5") (fullParser 0) 0
         (timeline [plain_entry])).2
      (reaction_on (on_message "100.5"))
    = Ok None.
Proof.
  split.
  - apply (proj1 (inserted_found_deleted_gone
                    (file_message 10 "110.0" None None None) (fullParser 0) 0
                    (timeline [plain_entry]) (reaction_on (on_message "110.0"))
                    eq_refl)).
    + repeat split; discriminate.
    + by eexists.
    + reflexivity.
  - by apply (proj2 (inserted_found_deleted_gone (deleted_event "100.5")
                       (fullParser 0) 0 (timeline [plain_entry])
                       (reaction_on (on_message "100.5")) eq_refl)).
Defined.

(** * Further properties of the reconciler *)

Section MoreReconciler.
Implicit Types (h : gmap cref SlackClient.t) (p : Pass) (c : cref)
  (s : SlackService.t).

(** A [refresh] that raises leaves the active set as it was and keeps
    every object, with its token and its counts of calls. *)
Lemma refresh_raises tokens s :
  (refresh tokens s).1 = TypeError →
  clients (refresh tokens s).2 = clients s
  ∧ ∀ c x, heap s !! c = Some x →
           ∃ x', heap (refresh tokens s).2 !! c = Some x' ∧ same_lifecycle x x'.
Proof.
  unfold refresh.
  destruct (connect_all tokens (initial_pass s)) as [[cs|] p'] eqn:Hrun; [done|].
  intros _. split; [done|]. intros c x Hx. simpl.
  pose proof (connect_all_kept tokens (initial_pass s) c x Hx) as H.
  by rewrite Hrun in H.
Qed.

Lemma tokenOf_alter (f : SlackClient.t → SlackClient.t) h c c' :
  (∀ x, SlackClient.token (f x) = SlackClient.token x) →
  tokenOf (alter f c h) c' = tokenOf h c'.
Proof.
  intros Hf. unfold tokenOf. destruct (decide (c = c')) as [->|Hne].
  - rewrite lookup_alter_eq. destruct (h !! c'); simpl; [|done]. by rewrite Hf.
  - by rewrite lookup_alter_ne.
Qed.

(** The handlers leave the active set and the tokens alone. *)
Lemma handles_connections s s' :
  handles s s' →
  clients s' = clients s ∧ ∀ c, tokenOf (heap s') c = tokenOf (heap s) c.
Proof.
  intros [message parser client s0|entry image message client s0
         |parse reaction parser client s0|parse reaction parser client s0].
  - unfold onReceiveMessage. repeat case_decide.
    + done.
    + unfold changeMessage, bind, get, lift, modify, emit, ret; simpl.
      destruct (find (isEdited message) (infos s0)) as [[[i e]|]|]; simpl;
        [|done..].
      by destruct (embedded message).
    + done.
    + unfold addMessage, bind, get, lift, modify, call, emit, ret.
      destruct (SlackMessage.message message) as [body|]; simpl; [|done].
      destruct (Body.files body) as [[|f fs]|]; simpl; [done| |].
      * destruct (includes "image" (File.mimetype f)); simpl.
        -- destruct (getMaximumThumbnail message); simpl; [|done].
           split; [done|]. intros c. by apply tokenOf_alter.
        -- split; [done|]. intros c. by apply tokenOf_alter.
      * split; [done|]. intros c. by apply tokenOf_alter.
  - unfold onReceiveMessage_resume, addMessage_resume, bind, modify, call, emit;
      simpl.
    split; [done|]. intros c. by apply tokenOf_alter.
  - unfold onReactionAdded, bind, get, lift, modify, emit, ret; simpl.
    by destruct (findReactionTarget s0 reaction) as [[[i e]|]|].
  - unfold onReactionRemoved, bind, get, lift, modify, emit, ret; simpl.
    by destruct (findReactionTarget s0 reaction) as [[[i e]|]|].
Qed.
End MoreReconciler.

(** X17. [refresh] with plain tokens, on a service whose connections are
    ordinary, returns, and after it: the subscriptions are exactly one
    bundle of five per served connection, in the order of the token list
    (earlier subscriptions are gone); there are as many connections as
    tokens ([numTeams]); each token is served by a connection with that
    token; timeline and notifications are untouched. *)
Theorem refresh_rebuilds_one_bundle_per_token tokens s :
  ordinary s → Forall (plain s) tokens →
  let s' := (refresh tokens s).2 in
  (refresh tokens s).1 = Ok ()
  ∧ subscription s' = (clients s' ≫= λ c, bundle c (fullParser c))
  ∧ length (subscription s') = 5 * length tokens
  ∧ numTeams s' = length tokens
  ∧ Forall2 (λ t c, tokenOf (heap s') c = Some t) tokens (clients s')
  ∧ infos s' = infos s ∧ onChange s' = onChange s.
Proof.
  intros Hord Hplain s'. unfold s'.
  destruct (plain_pass tokens s Hord Hplain) as (cs & p' & Hrun).
  pose proof (refresh_serves tokens s cs p' Hord Hrun) as Hserved.
  assert (subscription (refresh tokens s).2
          = (clients (refresh tokens s).2 ≫= λ c, bundle c (fullParser c)))
    as Hsub.
  { rewrite (refresh_clients tokens s cs p' Hrun).
    by apply (refresh_subscription tokens s cs p'). }
  split_and!.
  - by eapply refresh_Ok.
  - exact Hsub.
  - rewrite Hsub. rewrite (Forall2_length _ _ _ Hserved).
    clear Hsub Hserved.
    induction (clients (refresh tokens s).2) as [|c l IH]; [done|].
    rewrite bind_cons, length_app, IH. simpl. lia.
  - unfold numTeams. symmetry. apply (Forall2_length _ _ _ Hserved).
  - exact Hserved.
  - apply refresh_infos.
  - unfold refresh. by rewrite Hrun.
Qed.

Lemma refresh_bundles_sample :
  numTeams tokens_AB = 2 ∧ length (subscription tokens_AB) = 10.
Proof.
  destruct (refresh_rebuilds_one_bundle_per_token ["A"; "B"] init)
    as (_ & _ & Hlen & Hteams & _).
  - by intros c ?%elem_of_nil.
  - plain_tokens.
  - split; [exact Hteams|exact Hlen].
Defined.

(** The connections of a service whose configuration never lists a token
    twice: none has the token [__proto__], all are objects of the heap, and
    their tokens are pairwise distinct. *)
Lemma careful_connections s :
  rtc careful_step init s → ordinary s ∧ no_dangling s ∧ distinct_tokens s.
Proof.
  revert s. apply rtc_ind_r.
  - split_and!; [intros c Hc|intros c Hc|intros c1 c2 Hc];
      by apply elem_of_nil in Hc.
  - intros s1 s2 _ Hstep (Hord & Hheap & Hdistinct).
    assert (∀ s', clients s' = clients s1 →
              (∀ c, c ∈ clients s1 → tokenOf (heap s') c = tokenOf (heap s1) c) →
              ordinary s' ∧ no_dangling s' ∧ distinct_tokens s') as Hsame.
    { intros s' Hclients Htokens. split_and!.
      - intros c Hc. rewrite Hclients in Hc. rewrite Htokens by done.
        by apply Hord.
      - intros c Hc. rewrite Hclients in Hc. destruct (Hheap c Hc) as [x Hx].
        pose proof (Htokens c Hc) as Ht. unfold tokenOf in Ht. rewrite Hx in Ht.
        by destruct (heap s' !! c).
      - intros c1 c2 H1 H2. rewrite Hclients in H1, H2.
        rewrite !Htokens by done. by apply Hdistinct. }
    destruct Hstep as [tokens s1 Hnd|s1 s2 Hhandles].
    + destruct (connect_all tokens (initial_pass s1)) as [[cs|] p'] eqn:Hrun.
      * split_and!; [by eapply refresh_ordinary|by eapply refresh_no_dangling
                     |by eapply refresh_distinct].
      * destruct (refresh_raises tokens s1) as [Hclients Hkept].
        { unfold refresh. by rewrite Hrun. }
        apply Hsame; [done|]. intros c Hc. destruct (Hheap c Hc) as [x Hx].
        destruct (Hkept c x Hx) as (x' & Hx' & Htok & _).
        unfold tokenOf. rewrite Hx, Hx'. simpl. by rewrite Htok.
    + destruct (handles_connections s1 s2 Hhandles) as [Hclients Htokens].
      by apply Hsame.
Qed.

(** X18. As long as no configured token list names a token twice, the
    active connections are objects of the heap with pairwise distinct
    tokens, in every state the service reaches: the handlers never change
    the active set or a token. *)
Theorem careful_configuration_keeps_tokens_distinct s :
  rtc careful_step init s → no_dangling s ∧ distinct_tokens s.
Proof. intros Hsteps. by destruct (careful_connections s Hsteps) as (_ & ? & ?). Qed.

Lemma awaiting_image_carefully : rtc careful_step init awaiting_image.
Proof.
  eapply rtc_l.
  - apply (careful_refresh ["A"; "B"] init).
    apply (bool_decide_unpack _). vm_compute. exact I.
  - apply rtc_once, careful_handles.
    apply (handles_message image_message (fullParser 0) 0 tokens_AB).
Defined.

Lemma careful_sample : no_dangling awaiting_image ∧ distinct_tokens awaiting_image.
Proof.
  apply careful_configuration_keeps_tokens_distinct.
  exact awaiting_image_carefully.
Defined.

(** X19. [refresh] with a duplicate-free list of plain tokens, on a service
    whose connections are ordinary, is idempotent on the connections: a
    second [refresh] with the same list returns as the first does, keeps the
    same connection objects in the same order, calls neither [start()] nor
    [stop()] on any object, and builds no object. *)
Theorem refresh_again_changes_no_connection tokens s :
  ordinary s → Forall (plain s) tokens → NoDup tokens →
  let s1 := (refresh tokens s).2 in
  let s2 := (refresh tokens s1).2 in
  (refresh tokens s).1 = Ok ()
  ∧ (refresh tokens s1).1 = Ok ()
  ∧ clients s2 = clients s1
  ∧ (∀ c x, heap s1 !! c = Some x →
            ∃ x', heap s2 !! c = Some x' ∧ same_lifecycle x x')
  ∧ (∀ c, heap s1 !! c = None → heap s2 !! c = None).
Proof.
  intros Hord Hplain Hnd s1 s2.
  destruct (plain_pass tokens s Hord Hplain) as (cs1 & p1 & Hrun1).
  pose proof (refresh_ordinary tokens s cs1 p1 Hord Hrun1) as Hord1.
  pose proof (refresh_no_dangling tokens s cs1 p1 Hord Hrun1) as Hheap1.
  pose proof (refresh_distinct tokens s cs1 p1 Hord Hrun1 Hnd) as Hdist1.
  pose proof (refresh_serves tokens s cs1 p1 Hord Hrun1) as Hserved1.
  fold s1 in Hord1, Hheap1, Hdist1, Hserved1.
  assert (Forall (plain s1) tokens) as Hplain1.
  { eapply Forall_impl; [exact Hplain|]. intros t [Hown H1]. split; [done|].
    unfold s1. by rewrite (refresh_prototype_1 tokens s cs1 p1 Hord Hrun1). }
  destruct (plain_pass tokens s1 Hord1 Hplain1) as (cs2 & p2 & Hrun2).
  pose proof (refresh_distinct tokens s1 cs2 p2 Hord1 Hrun2 Hnd) as Hdist2.
  pose proof (refresh_serves tokens s1 cs2 p2 Hord1 Hrun2) as Hserved2.
  fold s2 in Hdist2, Hserved2.
  assert (∀ c x, c ∈ clients s1 → heap s1 !! c = Some x →
            c ∈ clients s2
            ∧ ∃ x', heap s2 !! c = Some x' ∧ same_lifecycle x x') as Hkeep.
  { intros c x [i Hi]%list_elem_of_lookup Hx.
    destruct (refresh_distinct_tokens tokens s1 Hord1 Hplain1 Hheap1 Hdist1)
      as (_ & _ & _ & Hreuse & _).
    apply (Hreuse c x); [by eapply list_elem_of_lookup_2|done|].
    destruct (Forall2_lookup_r _ _ _ _ _ Hserved1 Hi) as (t & Ht & Hc).
    unfold tokenOf in Hc. rewrite Hx in Hc. simplify_eq/=.
    by eapply list_elem_of_lookup_2. }
  assert (clients s2 = clients s1) as Hclients.
  { apply list_eq_same_length with (length tokens);
      [by erewrite <- Forall2_length|by erewrite <- Forall2_length|].
    intros i c2 c1 _ H2 H1.
    destruct (Forall2_lookup_r _ _ _ _ _ Hserved1 H1) as (t & Ht & Hc1).
    destruct (Forall2_lookup_r _ _ _ _ _ Hserved2 H2) as (t' & Ht' & Hc2).
    assert (t' = t) as -> by congruence.
    assert (is_Some (heap s1 !! c1)) as [x Hx]
      by (apply Hheap1; by eapply list_elem_of_lookup_2).
    destruct (Hkeep c1 x) as (Hin & x' & Hx' & Htok & _);
      [by eapply list_elem_of_lookup_2|done|].
    apply Hdist2; [by eapply list_elem_of_lookup_2|done|].
    rewrite Hc2. unfold tokenOf in Hc1 |- *. rewrite Hx in Hc1.
    rewrite Hx'. simpl in *. congruence. }
  split_and!.
  - by eapply refresh_Ok.
  - by eapply refresh_Ok.
  - exact Hclients.
  - intros c x Hx. destruct (decide (c ∈ clients s1)) as [Hin|Hnot].
    + by apply (Hkeep c x).
    + unfold s2. rewrite (refresh_heap tokens s1 cs2 p2 Hrun2), stop_unused_kept.
      * by eapply kept_objects.
      * intros k b (_ & Hin & _)%(cache_after tokens s1 cs2 p2 Hord1 Hrun2).
        done.
  - intros c Hc. unfold s2. rewrite (heap_new tokens s1 cs2 p2 Hord1 Hrun2 c Hc).
    destruct (connect_all_Ok tokens _ cs2 p2 (ordinary_proto s1 Hord1) Hrun2)
      as (_ & _ & _ & _ & _ & Hnone & _).
    apply Hnone; [done|].
    rewrite <- (refresh_clients tokens s1 cs2 p2 Hrun2). fold s2.
    rewrite Hclients. intros Hin.
    destruct (Hheap1 c Hin) as [x Hx]. congruence.
Qed.

Lemma refresh_again_sample :
  clients (refresh ["A"; "B"] tokens_AB).2 = clients tokens_AB
  ∧ ∃ x', heap (refresh ["A"; "B"] tokens_AB).2 !! (0 : cref) = Some x'
          ∧ SlackClient.starts x' = 1 ∧ SlackClient.stops x' = 0.
Proof.
  destruct (refresh_again_changes_no_connection ["A"; "B"] init)
    as (_ & _ & Hclients & Hsame & _).
  { by intros c ?%elem_of_nil. }
  { plain_tokens. }
  { apply (bool_decide_unpack _). vm_compute. exact I. }
  split; [exact Hclients|].
  destruct (Hsame 0 (SlackClient.set_attachmentTextParser (attachmentParser 0)
                       (SlackClient.start (SlackClient.new "A"))))
    as (x' & Hx' & _ & Hst & Hsp); [reflexivity|].
  exists x'. split_and!; [exact Hx'|exact Hst|exact Hsp].
Defined.

(** One step of the service is a call of [refresh] or the run of a
    handler. *)
Lemma step_cases s s' :
  step s s' → (∃ tokens, s' = (refresh tokens s).2) ∨ handles s s'.
Proof.
  intros [tokens s0|message parser client s0|entry image message client s0
         |parse reaction parser client s0|parse reaction parser client s0].
  - left. by exists tokens.
  - right. apply handles_message.
  - right. apply handles_image.
  - right. apply handles_reaction_added.
  - right. apply handles_reaction_removed.
Qed.

(** No connection is built for a token that names a property of
    [Object.prototype]. *)
Lemma reached_connections s :
  rtc step init s →
  ∀ c, c ∈ clients s →
       ∃ t, tokenOf (heap s) c = Some t ∧ t ∉ Object_prototype.
Proof.
  revert s.
  apply (rtc_ind_r (λ s, ∀ c, c ∈ clients s →
                              ∃ t, tokenOf (heap s) c = Some t
                                   ∧ t ∉ Object_prototype));
    [by intros c ?%elem_of_nil|].
  intros s1 s2 _ Hstep IH.
  assert (ordinary s1) as Hord.
  { intros c Hc Htok. destruct (IH c Hc) as (t & Ht & Hnot).
    apply Hnot. rewrite Htok in Ht. injection Ht as <-.
    by apply (bool_decide_unpack _). }
  assert (clients s2 = clients s1 →
          (∀ c, c ∈ clients s1 → tokenOf (heap s2) c = tokenOf (heap s1) c) →
          ∀ c, c ∈ clients s2 →
               ∃ t, tokenOf (heap s2) c = Some t ∧ t ∉ Object_prototype)
    as Hsame.
  { intros Hclients Htokens c Hc. rewrite Hclients in Hc.
    rewrite Htokens by done. by apply IH. }
  destruct (step_cases s1 s2 Hstep) as [[tokens ->]|Hhandles].
  - destruct (connect_all tokens (initial_pass s1)) as [[cs|] p'] eqn:Hrun.
    + intros c [i Hi]%list_elem_of_lookup.
      destruct (Forall2_lookup_r _ _ _ _ _
                  (refresh_serves tokens s1 cs p' Hord Hrun) Hi)
        as (t & Ht & Hc).
      exists t. split; [done|]. intros Hinh.
      destruct (connect_all_inherited tokens _ cs p' t
                  (ordinary_proto s1 Hord) Hrun) as [[c0 b0] Hc0];
        [by eapply list_elem_of_lookup_2|done|].
      simpl in Hc0. apply build_cache_sound in Hc0 as (_ & Hin0 & Ht0).
      destruct (IH c0 Hin0) as (t0 & Ht0' & Hnot). congruence.
    + destruct (refresh_raises tokens s1) as [Hclients Hkept].
      { unfold refresh. by rewrite Hrun. }
      apply Hsame; [done|]. intros c Hc. destruct (IH c Hc) as (t & Ht & _).
      unfold tokenOf in Ht |- *.
      destruct (heap s1 !! c) as [x|] eqn:Hx; [|done].
      destruct (Hkept c x Hx) as (x' & -> & Htok & _). simpl.
      by rewrite Htok.
  - destruct (handles_connections s1 s2 Hhandles) as [Hclients Htokens].
    by apply Hsame.
Qed.

Lemma reached_tokens s :
  rtc step init s →
  ordinary s
  ∧ ∀ c t, c ∈ clients s → tokenOf (heap s) c = Some t → t ∉ Object_prototype.
Proof.
  intros Hsteps. pose proof (reached_connections s Hsteps) as Hinv. split.
  - intros c Hc Htok. destruct (Hinv c Hc) as (t & Ht & Hnot).
    apply Hnot. rewrite Htok in Ht. injection Ht as <-.
    by apply (bool_decide_unpack _).
  - intros c t Hc Ht. destruct (Hinv c Hc) as (t' & Ht' & Hnot). congruence.
Qed.

(** X22. In every state the service reaches from its initial state, every
    active connection is an object of the heap whose token names no
    property of [Object.prototype]; in particular none has the token
    [__proto__], and the prototype of the cache of the next [refresh] is
    [Object.prototype]. *)
Theorem reached_connections_are_ordinary s :
  rtc step init s →
  ordinary s ∧ no_dangling s
  ∧ (∀ c t, c ∈ clients s → tokenOf (heap s) c = Some t →
            t ∉ Object_prototype)
  ∧ proto (initial_pass s) = None.
Proof.
  intros Hsteps. pose proof (reached_connections s Hsteps) as Hinv.
  assert (ordinary s) as Hord.
  { intros c Hc Htok. destruct (Hinv c Hc) as (t & Ht & Hnot).
    apply Hnot. rewrite Htok in Ht. injection Ht as <-.
    by apply (bool_decide_unpack _). }
  split_and!; [done| | |by apply ordinary_proto].
  - intros c Hc. destruct (Hinv c Hc) as (t & Ht & _).
    unfold tokenOf in Ht. by destruct (heap s !! c).
  - intros c t Hc Ht. destruct (Hinv c Hc) as (t' & Ht' & Hnot). congruence.
Qed.

Lemma reached_sample : ordinary awaiting_image ∧ no_dangling awaiting_image.
Proof.
  destruct (reached_connections_are_ordinary awaiting_image) as (Hord & Hheap & _).
  - eapply rtc_l; [apply (step_refresh ["A"; "B"] init)|].
    apply rtc_once.
    apply (step_message image_message (fullParser 0) 0 tokens_AB).
  - split; [exact Hord|exact Hheap].
Defined.

(** X23. In every state the service reaches, [refresh] raises when the token
    list names a property of [Object.prototype] after plain tokens: the
    active set is not assigned and no connection is stopped or restarted;
    the connections of the tokens ahead were reused or built before the
    exception, the subscriptions are their bundles, and those that were
    built are started once and are not in the active set; timeline and
    notifications are untouched; the token [__proto__] leaves
    [Object.prototype] with the property [1]. *)
Theorem refresh_inherited_name_raises pre t post s :
  rtc step init s → Forall (plain s) pre → t ∈ Object_prototype →
  let s' := (refresh (pre ++ t :: post) s).2 in
  (refresh (pre ++ t :: post) s).1 = TypeError
  ∧ clients s' = clients s
  ∧ (∀ c x, heap s !! c = Some x →
            ∃ x', heap s' !! c = Some x' ∧ same_lifecycle x x')
  ∧ (∃ cs, Forall2 (λ t c, tokenOf (heap s') c = Some t) pre cs
           ∧ subscription s' = (cs ≫= λ c, bundle c (fullParser c))
           ∧ ∀ c, c ∈ cs → c ∉ clients s →
                  heap s !! c = None
                  ∧ ∃ x', heap s' !! c = Some x'
                          ∧ SlackClient.starts x' = 1
                          ∧ SlackClient.stops x' = 0)
  ∧ infos s' = infos s ∧ onChange s' = onChange s
  ∧ prototype_1 s' = prototype_1 s || bool_decide (t = "__proto__").
Proof.
  intros Hsteps Hplain Hinh s'. unfold s'.
  destruct (reached_tokens s Hsteps) as (Hord & Hnone).
  destruct (plain_pass pre s Hord Hplain) as (cs & p1 & Hrun).
  destruct (connect_all_Ok pre _ cs p1 (ordinary_proto s Hord) Hrun)
    as (_ & Hproto1 & Hinh1 & Hsub & Hcache & _ & Hserved).
  assert (cache p1 !! t = None) as Ht.
  { rewrite Hcache. simpl.
    destruct ((build_cache (heap s) (clients s)).1 !! t) as [[c b]|] eqn:Hc;
      [|done].
    apply build_cache_sound in Hc as (_ & Hin & Htok).
    destruct (Hnone c t Hin Htok Hinh). }
  assert (connect_all (pre ++ t :: post) (initial_pass s)
          = (TypeError, taint t p1)) as Hall.
  { rewrite connect_all_app, Hrun, connect_all_cons.
    by rewrite (connect_raises t p1 Hproto1 Hinh Ht). }
  assert (∀ c x, heap s !! c = Some x →
            ∃ x', objects p1 !! c = Some x' ∧ same_lifecycle x x') as Hkept.
  { intros c x Hx. pose proof (connect_all_kept pre (initial_pass s) c x Hx) as H.
    by rewrite Hrun in H. }
  unfold refresh. rewrite Hall. simpl. split_and!; [done..| |done|done|].
  - exists cs. split_and!.
    + eapply Forall2_impl; [exact Hserved|].
      intros t' c [[b Hb]|(_ & _ & x' & Hx' & Htok & _)].
      * simpl in Hb. apply build_cache_sound in Hb as (_ & _ & Htok).
        unfold tokenOf in Htok |- *.
        destruct (heap s !! c) as [x|] eqn:Hx; [|done].
        destruct (Hkept c x Hx) as (x' & -> & Htok' & _). simpl in *.
        by rewrite Htok'.
      * unfold tokenOf. rewrite Hx'. simpl. by rewrite Htok.
    + by rewrite Hsub.
    + intros c [i Hi]%list_elem_of_lookup Hnot.
      destruct (Forall2_lookup_r _ _ _ _ _ Hserved Hi) as (t' & _ & Hs).
      destruct Hs as [[b Hb]|(_ & Hc & x' & Hx' & _ & Hst & Hsp)].
      * simpl in Hb. by apply build_cache_sound in Hb as (_ & ? & _).
      * split; [done|]. by exists x'.
  - by rewrite Hinh1.
Qed.

Lemma inherited_name_sample :
  (refresh ["A"; "constructor"; "B"] init).1 = TypeError
  ∧ clients (refresh ["A"; "constructor"; "B"] init).2 = []
  ∧ length (subscription (refresh ["A"; "constructor"; "B"] init).2) = 5
  ∧ SlackClient.starts <$> heap (refresh ["A"; "constructor"; "B"] init).2 !! 0
    = Some 1.
Proof.
  destruct (refresh_inherited_name_raises ["A"] "constructor" ["B"] init)
    as (Hraise & Hclients & _).
  - apply rtc_refl.
  - plain_tokens.
  - by apply (bool_decide_unpack _).
  - split_and!; [exact Hraise|exact Hclients|reflexivity..].
Defined.

Lemma reacted_timeline_reached : rtc step init reacted_timeline.
Proof.
  eapply rtc_l;
    [apply (step_message (file_message 0 "100.5" None None None) (fullParser 0)
              0 init)|].
  apply rtc_once. apply step_reaction_added.
Defined.

(** X20. In every state the service reaches from its initial state, each
    entry of the timeline has at most one reaction group per rendered key,
    and each of its groups holds every user once and at least one user. *)
Theorem timeline_reactions_wellformed s e :
  rtc step init s → e ∈ infos s →
  NoDup (Group.reaction <$> Entry.reactions e)
  ∧ ∀ g, g ∈ Entry.reactions e →
         NoDup (Group.users g) ∧ Group.users g ≠ [] ∧ 0 < Group.count g.
Proof.
  intros Hsteps He.
  pose proof (proj1 (Forall_forall _ _) (timeline_reachable s Hsteps) e He)
    as Hreach.
  split; [by apply reachable_keys|]. intros g Hg.
  destruct (proj1 (Forall_forall _ _) (reachable_groups e Hreach) g Hg)
    as [Hnd Hne].
  split_and!; [done..|]. unfold Group.count.
  destruct (Group.users g); [done|simpl; lia].
Qed.

Lemma reacted_timeline_sample :
  NoDup (Group.reaction <$>
           Entry.reactions
             (Entry.addReaction plain_parse (reacted "smile" "U1") plain_entry))
  ∧ 0 < Group.count (smile_of ["U1"]).
Proof.
  destruct (timeline_reactions_wellformed reacted_timeline
              (Entry.addReaction plain_parse (reacted "smile" "U1") plain_entry)
              reacted_timeline_reached) as [Hkeys Hgroups]; [by left|].
  split; [exact Hkeys|]. apply (Hgroups (smile_of ["U1"])). by left.
Defined.


(** X21. A [file_comment] descriptor resolves to the first [file_comment]
    entry with the descriptor's file and comment, provided the
    [file_comment] entries ahead of it have no empty files array:
    [file_share] entries of the same file ahead of it, also ones with an
    empty files array, are not considered. *)
Theorem file_comment_entry_comes_first s reaction pre m post :
  let target := Reaction.item (SlackReactionAdded.reaction reaction) in
  Item.type target = "file_comment" →
  infos s = pre ++ m :: post →
  file_comment_of target m →
  (∀ x, x ∈ pre → ¬ file_comment_of target x) →
  (∀ x, x ∈ pre →
        SlackMessage.subType (Entry.message x) = Some "file_comment" →
        Raw.files (raw_of x) ≠ Some []) →
  findReactionTarget s reaction = Ok (Some (length pre, m)).
Proof.
  intros target Htype Hinfos Hm Hpre Hwf.
  unfold findReactionTarget. fold target. rewrite Htype.
  rewrite decide_False, decide_False, decide_True by done.
  unfold find. rewrite Hinfos, find_from_first; [done| |by apply isFileComment_true].
  intros y Hy. apply isFileComment_not; auto.
Qed.

Lemma comment_behind_share_sample :
  findReactionTarget (timeline [share_F1; share_empty_files; comment_F1])
    (reaction_on (on_file_comment "F1" "Fc1"))
  = Ok (Some (2, comment_F1)).
Proof.
  apply (file_comment_entry_comes_first
           (timeline [share_F1; share_empty_files; comment_F1])
           (reaction_on (on_file_comment "F1" "Fc1"))
           [share_F1; share_empty_files] comment_F1 []).
  - reflexivity.
  - reflexivity.
  - split_and!; [reflexivity|by exists (sample_file "F1"), []|].
    by exists {| Comment.id := "Fc1" |}.
  - intros x Hx (Hsub & _).
    repeat (apply elem_of_cons in Hx as [->|Hx]; [discriminate Hsub|]).
    by apply elem_of_nil in Hx.
  - intros x Hx Hsub.
    repeat (apply elem_of_cons in Hx as [->|Hx]; [discriminate Hsub|]).
    by apply elem_of_nil in Hx.
Defined.
